(** * multi_vector: a fixed-capacity structure-of-arrays container

    Shallow embedding of [multi_vector.hpp].  A [multi_vector<Ts...>] packs one
    array per element type into a single allocated block.

    - The pack [Ts...] is a list of [cpp_type]: the [sizeof], [alignof] and
      [std::is_trivially_destructible_v] of each type.  The operations are
      functions of the pack, as the class is a template of it.
    - [std::size_t] and pointers are 64-bit unsigned integers in [Z]; every
      addition and multiplication of the source wraps as it does there.
    - The member arrays [data_ptrs_], [sizes_], [capacities_] are lists
      indexed by the position in the pack.  The selectors are compile-time
      checked in the source ([static_assert]), so no operation is ever called
      out of range; the embedding reads with a total lookup.
    - Placement-new and explicit destructor calls act on a [world]: the heap
      of live objects, each occupying [sizeof] bytes from its address, and
      the trace of allocations, constructions, destructions and releases.
    - [push_back] can throw; it returns its outcome together with the state
      it leaves.  What [::operator new] answers is an input of [build].
    - Loops over [0 .. n) are left folds over [seq 0 n].

    The file has the model first, then the vocabulary of the properties and
    the fixtures of the test suite, then the proofs, and at the end one
    theorem for each claim about the specification. *)

From Stdlib Require Import ZArith Lia.
From stdpp Require Import base decidable option list numbers strings.

Local Open Scope Z_scope.

(** ** [std::size_t] and pointers: 64-bit unsigned, wrapping *)

Definition size_t_mod : Z := 2 ^ 64.

Definition wrap (z : Z) : Z := z mod size_t_mod.

Definition is_size_t (z : Z) : Prop := 0 <= z < size_t_mod.

Definition add_sz (a b : Z) : Z := wrap (a + b).
Definition sub_sz (a b : Z) : Z := wrap (a - b).
Definition mul_sz (a b : Z) : Z := wrap (a * b).
(** [~a] on a [size_t]. *)
Definition not_sz (a : Z) : Z := wrap (Z.lnot a).

(** [for (std::size_t i = 0; i < n; ++i) body], as a left fold over [0 .. n-1]. *)
Definition for_loop {S : Type} (n : nat) (body : S → nat → S) (init : S) : S :=
  foldl body init (seq 0 n).

(** ** Element types

    What the container needs to know of a type of the pack [Ts...]:
    [sizeof], [alignof] and [std::is_trivially_destructible_v]. *)

Record cpp_type := CppType {
  type_name : string;
  type_size : Z;
  type_align : Z;
  trivially_destructible : bool
}.

#[global] Instance cpp_type_eq_dec : EqDecision cpp_type.
Proof. solve_decision. Defined.

#[global] Instance cpp_type_inhabited : Inhabited cpp_type :=
  populate (CppType "char" 1 1 true).

#[global] Instance is_size_t_dec (z : Z) : Decision (is_size_t z).
Proof. unfold is_size_t. apply _. Defined.

(** Guarantees of the language for every object type: [sizeof] is positive,
    [alignof] is a power of two; both are [size_t] values. *)
Definition wf_type (T : cpp_type) : Prop :=
  0 < type_size T < size_t_mod ∧
  0 < type_align T < size_t_mod ∧
  type_align T = 2 ^ Z.log2 (type_align T).

#[global] Instance wf_type_dec (T : cpp_type) : Decision (wf_type T).
Proof. unfold wf_type. apply _. Defined.

(** [index_of<T, Us...>]: position of the first [T] in the pack.  The template
    has no case for an empty pack (the program is ill-formed there, and the
    accessors' [static_assert] rejects it first); the embedding then counts
    up to the length of the pack. *)
Fixpoint index_of (T : cpp_type) (Us : list cpp_type) : nat :=
  match Us with
  | [] => 0%nat
  | U :: Us' => if decide (T = U) then 0%nat else S (index_of T Us')
  end.

(** [align_up], lines 41-43. *)
Definition align_up (value alignment : Z) : Z :=
  if decide (alignment = 0) then value
  else Z.land (add_sz value (sub_sz alignment 1)) (not_sz (sub_sz alignment 1)).

(** [std::max({alignof(Ts)...})]. *)
Definition max_of (l : list Z) : Z :=
  match l with
  | [] => 0
  | a :: l' => foldl Z.max a l'
  end.

(** ** The heap of live objects and the trace of effects *)

Inductive exn := length_error | bad_alloc.

Inductive res (A : Type) :=
| Ok (a : A)
| Throw (e : exn).
Arguments Ok {A} a.
Arguments Throw {A} e.

Section Heap.
Context {val : Type}.

(** A live object of type [obj_type] occupying the bytes
    [obj_addr, obj_addr + sizeof(obj_type)). *)
Record object := Object {
  obj_addr : Z;
  obj_type : cpp_type;
  obj_value : val
}.

Inductive event :=
| EvNew (size align : Z) (block : Z)
| EvDelete (block : Z) (align : Z)
| EvConstruct (T : cpp_type) (addr : Z) (v : val)
| EvDestroy (T : cpp_type) (addr : Z).

Record world := World {
  heap : list object;
  trace : list event
}.

Definition log (e : event) (w : world) : world :=
  World (heap w) (trace w ++ [e]).

(** Does the object [o] share a byte with [p, p + n)? *)
Definition overlaps (p n : Z) (o : object) : Prop :=
  p < obj_addr o + type_size (obj_type o) ∧ obj_addr o < p + n.

Definition is_at (p : Z) (T : cpp_type) (o : object) : Prop :=
  obj_addr o = p ∧ obj_type o = T.

(** [::new (p) T(value)]: the copy constructor runs at [p]; the storage is
    reused, which ends the lifetime of whatever object lived in it. *)
Definition placement_new (p : Z) (T : cpp_type) (value : val) (w : world) : world :=
  World (Object p T value :: filter (λ o, ¬ overlaps p (type_size T) o) (heap w))
        (trace w ++ [EvConstruct T p value]).

(** [p->~T()]. *)
Definition destroy_at (p : Z) (T : cpp_type) (w : world) : world :=
  World (filter (λ o, ¬ is_at p T o) (heap w)) (trace w ++ [EvDestroy T p]).

(** Reading the [T] that lives at [p], if one does. *)
Definition load (w : world) (p : Z) (T : cpp_type) : option val :=
  obj_value <$> head (filter (is_at p T) (heap w)).

Definition is_construct (e : event) : bool :=
  match e with EvConstruct _ _ _ => true | _ => false end.
Definition is_destroy (e : event) : bool :=
  match e with EvDestroy _ _ => true | _ => false end.
Definition is_delete (e : event) : bool :=
  match e with EvDelete _ _ => true | _ => false end.

(** Events on elements whose type has a non-trivial destructor. *)
Definition tracked (e : event) : bool :=
  match e with
  | EvConstruct T _ _ | EvDestroy T _ => negb (trivially_destructible T)
  | _ => false
  end.
End Heap.
Arguments object : clear implicits.
Arguments event : clear implicits.
Arguments world : clear implicits.

(** ** The container *)

(** The data members, lines 61-65.  The three arrays have [N] entries. *)
Record multi_vector := MultiVector {
  data_ptrs_ : list Z;
  sizes_ : list Z;
  capacities_ : list Z;
  block_ : Z;
  block_size_ : Z
}.

Definition set_data_ptr (i : nat) (p : Z) (mv : multi_vector) : multi_vector :=
  MultiVector (<[i:=p]> (data_ptrs_ mv)) (sizes_ mv) (capacities_ mv)
              (block_ mv) (block_size_ mv).
Definition set_size (i : nat) (n : Z) (mv : multi_vector) : multi_vector :=
  MultiVector (data_ptrs_ mv) (<[i:=n]> (sizes_ mv)) (capacities_ mv)
              (block_ mv) (block_size_ mv).
Definition set_capacity (i : nat) (n : Z) (mv : multi_vector) : multi_vector :=
  MultiVector (data_ptrs_ mv) (sizes_ mv) (<[i:=n]> (capacities_ mv))
              (block_ mv) (block_size_ mv).
Definition set_block (p : Z) (mv : multi_vector) : multi_vector :=
  MultiVector (data_ptrs_ mv) (sizes_ mv) (capacities_ mv) p (block_size_ mv).
Definition set_block_size (n : Z) (mv : multi_vector) : multi_vector :=
  MultiVector (data_ptrs_ mv) (sizes_ mv) (capacities_ mv) (block_ mv) n.

(** What [::operator new(size, align)] answered: a pointer, or
    [std::bad_alloc]. *)
Inductive new_outcome :=
| Allocated (block : Z)
| OutOfMemory.

Section MultiVector.
Context {val : Type}.
(** The pack [Ts...]. *)
Variable Ts : list cpp_type.

Definition N : nat := length Ts.
Definition idx_v (T : cpp_type) : nat := index_of T Ts.
Definition type_at (I : nat) : cpp_type := Ts !!! I.
Definition type_sizes_ : list Z := type_size <$> Ts.
Definition type_aligns_ : list Z := type_align <$> Ts.
Definition block_align_ : Z := max_of (type_align <$> Ts).

(** [static_cast<T*>(p) + j]. *)
Definition ptr_add (p : Z) (T : cpp_type) (j : Z) : Z :=
  add_sz p (mul_sz j (type_size T)).

(** [multi_vector() noexcept = default], with the member initialisers. *)
Definition default_ctor : multi_vector :=
  MultiVector (replicate N 0) (replicate N 0) (replicate N 0) 0 0.

(** *** Accessors, lines 93-127 *)

Definition size_T (T : cpp_type) (this : multi_vector) : Z :=
  sizes_ this !!! idx_v T.
Definition size_I (idx : nat) (this : multi_vector) : Z :=
  sizes_ this !!! idx.
Definition data_T (T : cpp_type) (this : multi_vector) : Z :=
  data_ptrs_ this !!! idx_v T.
Definition data_I (idx : nat) (this : multi_vector) : Z :=
  data_ptrs_ this !!! idx.
Definition capacity_T (T : cpp_type) (this : multi_vector) : Z :=
  capacities_ this !!! idx_v T.
Definition capacity_I (idx : nat) (this : multi_vector) : Z :=
  capacities_ this !!! idx.

(** *** [push_back], lines 129-147

    The result pairs the outcome with the container and the world as the
    call leaves them, also when it throws. *)

Definition push_back_T (T : cpp_type) (value : val)
    (this : multi_vector) (w : world val)
  : res () * (multi_vector * world val) :=
  if decide (size_T T this >= capacity_T T this) then
    (Throw length_error, (this, w))
  else
    let w' := placement_new (ptr_add (data_T T this) T (size_T T this)) T value w in
    (Ok (), (set_size (idx_v T) (add_sz (sizes_ this !!! idx_v T) 1) this, w')).

Definition push_back_I (idx : nat) (value : val)
    (this : multi_vector) (w : world val)
  : res () * (multi_vector * world val) :=
  if decide (size_I idx this >= capacity_I idx this) then
    (Throw length_error, (this, w))
  else
    let w' := placement_new
                (ptr_add (data_I idx this) (type_at idx) (size_I idx this))
                (type_at idx) value w in
    (Ok (), (set_size idx (add_sz (sizes_ this !!! idx) 1) this, w')).

(** *** Destruction, lines 45-59 and 72-76 *)

Definition destroy_elements_at (I : nat) (this : multi_vector) (w : world val)
  : world val :=
  let T := type_at I in
  if trivially_destructible T then w
  else
    let ptr := data_ptrs_ this !!! I in
    for_loop (Z.to_nat (sizes_ this !!! I))
      (λ w j, destroy_at (ptr_add ptr T (Z.of_nat j)) T w) w.

Definition destroy_elements (this : multi_vector) (w : world val) : world val :=
  for_loop N (λ w I, destroy_elements_at I this w) w.

(** [~multi_vector()]. *)
Definition destructor (this : multi_vector) (w : world val) : world val :=
  if decide (block_ this = 0) then w
  else log (EvDelete (block_ this) block_align_) (destroy_elements this w).

(** *** Move construction, lines 78-91

    Returns the new container and the source as the constructor leaves it. *)
Definition move_ctor (other : multi_vector) : multi_vector * multi_vector :=
  let this :=
    MultiVector (replicate N 0) (replicate N 0) (replicate N 0)
                (block_ other) (block_size_ other) in
  let '(this, other) :=
    for_loop N
      (λ '(this, other) i,
         let this := set_data_ptr i (data_ptrs_ other !!! i) this in
         let this := set_size i (sizes_ other !!! i) this in
         let this := set_capacity i (capacities_ other !!! i) this in
         let other := set_data_ptr i 0 other in
         let other := set_size i 0 other in
         let other := set_capacity i 0 other in
         (this, other))
      (this, other) in
  (this, set_block_size 0 (set_block 0 other)).

(** *** The builder, lines 149-224 *)

Record builder := Builder {
  caps_ : list Z;
  defaults_ : list (option val)
}.

(** [builder()]: [caps_{}] is zero-filled and every optional is empty. *)
Definition builder_ctor : builder :=
  Builder (replicate N 0) (replicate N None).

Definition builder_capacity_T (T : cpp_type) (cap : Z) (b : builder) : builder :=
  Builder (<[idx_v T := cap]> (caps_ b)) (defaults_ b).
Definition builder_capacity_I (idx : nat) (cap : Z) (b : builder) : builder :=
  Builder (<[idx := cap]> (caps_ b)) (defaults_ b).
Definition builder_default_value_T (T : cpp_type) (value : val) (b : builder)
  : builder :=
  Builder (caps_ b) (<[idx_v T := Some value]> (defaults_ b)).
Definition builder_default_value_I (idx : nat) (value : val) (b : builder)
  : builder :=
  Builder (caps_ b) (<[idx := Some value]> (defaults_ b)).

Definition init_default_at (b : builder) (I : nat)
    (st : multi_vector * world val) : multi_vector * world val :=
  let '(mv, w) := st in
  match defaults_ b !!! I with
  | Some d =>
      let T := type_at I in
      let ptr := data_ptrs_ mv !!! I in
      let w' :=
        for_loop (Z.to_nat (caps_ b !!! I))
          (λ w j, placement_new (ptr_add ptr T (Z.of_nat j)) T d w) w in
      (set_size I (caps_ b !!! I) mv, w')
  | None => (mv, w)
  end.

Definition init_defaults (b : builder) (st : multi_vector * world val)
  : multi_vector * world val :=
  for_loop N (λ st I, init_default_at b I st) st.

(** The layout loop of [build], lines 203-209: the offsets and the final
    [off], the size of the block. *)
Definition layout (caps : list Z) : list Z * Z :=
  for_loop N
    (λ '(offsets, off) i,
       let off := align_up off (type_aligns_ !!! i) in
       (<[i:=off]> offsets,
        add_sz off (mul_sz (caps !!! i) (type_sizes_ !!! i))))
    (replicate N 0, 0).

(** [build], lines 201-223.  [alloc] is the answer of [::operator new]. *)
Definition build (b : builder) (alloc : new_outcome) (w : world val)
  : res multi_vector * world val :=
  let mv := default_ctor in
  let '(offsets, off) := layout (caps_ b) in
  match alloc with
  | OutOfMemory => (Throw bad_alloc, w)
  | Allocated block =>
      let w := log (EvNew off block_align_ block) w in
      let mv := set_block block mv in
      if decide (block = 0) then (Ok mv, w)
      else
        let mv :=
          for_loop N
            (λ mv i,
               set_capacity i (caps_ b !!! i)
                 (set_data_ptr i (add_sz block (offsets !!! i)) mv))
            mv in
        let mv := set_block_size off mv in
        let '(mv, w) := init_defaults b (mv, w) in
        (Ok mv, w)
  end.
End MultiVector.
Arguments builder : clear implicits.

(** ** Vocabulary of the properties *)

Section Properties.
Context {val : Type}.
Variable Ts : list cpp_type.

(** The arrays of a container of this pack have [N] entries of [size_t]. *)
Definition well_typed (mv : multi_vector) : Prop :=
  length (data_ptrs_ mv) = N Ts ∧
  length (sizes_ mv) = N Ts ∧
  length (capacities_ mv) = N Ts ∧
  Forall is_size_t (data_ptrs_ mv) ∧
  Forall is_size_t (sizes_ mv) ∧
  Forall is_size_t (capacities_ mv).

#[global] Instance well_typed_dec mv : Decision (well_typed mv).
Proof. unfold well_typed. apply _. Defined.

(** The invariant of the data model: [size[i] <= capacity[i]]. *)
Definition size_le_capacity (mv : multi_vector) : Prop :=
  ∀ i : nat, (i < N Ts)%nat → size_I i mv <= capacity_I i mv.

Definition well_typed_builder (b : builder val) : Prop :=
  length (caps_ b) = N Ts ∧
  length (defaults_ b) = N Ts ∧
  Forall is_size_t (caps_ b).

#[global] Instance well_typed_builder_dec b : Decision (well_typed_builder b).
Proof. unfold well_typed_builder. apply _. Defined.

(** Builders as the interface makes them: [builder()] followed by any
    calls of [capacity] and [default_value], by type or by index. *)
Inductive builder_reachable : builder val → Prop :=
| br_ctor : builder_reachable (builder_ctor Ts)
| br_capacity_T T cap b :
    T ∈ Ts → is_size_t cap → builder_reachable b →
    builder_reachable (builder_capacity_T Ts T cap b)
| br_capacity_I idx cap b :
    (idx < N Ts)%nat → is_size_t cap → builder_reachable b →
    builder_reachable (builder_capacity_I idx cap b)
| br_default_value_T T (v : val) b :
    T ∈ Ts → builder_reachable b →
    builder_reachable (builder_default_value_T Ts T v b)
| br_default_value_I idx (v : val) b :
    (idx < N Ts)%nat → builder_reachable b →
    builder_reachable (builder_default_value_I idx v b).

(** Containers as the interface makes them: default construction, [build],
    [push_back] (whatever its outcome), and both sides of a move.  The
    accessors are [const] and add nothing. *)
Inductive reachable : multi_vector → Prop :=
| reach_default : reachable (default_ctor Ts)
| reach_build b alloc w mv w' :
    builder_reachable b →
    build Ts b alloc w = (Ok mv, w') →
    reachable mv
| reach_push_back_T T (v : val) mv w r mv' w' :
    T ∈ Ts → reachable mv →
    push_back_T Ts T v mv w = (r, (mv', w')) →
    reachable mv'
| reach_push_back_I idx (v : val) mv w r mv' w' :
    (idx < N Ts)%nat → reachable mv →
    push_back_I Ts idx v mv w = (r, (mv', w')) →
    reachable mv'
| reach_move_to mv :
    reachable mv → reachable (move_ctor Ts mv).1
| reach_move_from mv :
    reachable mv → reachable (move_ctor Ts mv).2.

(** Address of element [j] of the array of type [I]: [data<I>() + j]. *)
Definition elem_addr (mv : multi_vector) (I : nat) (j : nat) : Z :=
  ptr_add (data_I I mv) (type_at Ts I) (Z.of_nat j).

(** No two slots of the reserved arrays share a byte. *)
Definition slots_disjoint (mv : multi_vector) : Prop :=
  ∀ (I j I' j' : nat), (I < N Ts)%nat → (I' < N Ts)%nat →
    Z.of_nat j < capacity_I I mv → Z.of_nat j' < capacity_I I' mv →
    (I, j) ≠ (I', j') →
    elem_addr mv I j + type_size (type_at Ts I) <= elem_addr mv I' j'
    ∨ elem_addr mv I' j' + type_size (type_at Ts I') <= elem_addr mv I j.

(** What reading [data<I>()[0 .. size<I>())] gives. *)
Definition read_array (mv : multi_vector) (w : world val) (I : nat)
  : list (option val) :=
  (λ j, load w (elem_addr mv I j) (type_at Ts I))
    <$> seq 0 (Z.to_nat (size_I I mv)).

(** The two outcomes of a [push_back] into slot [i], of type [T]: at
    capacity it throws and leaves the container and the world as they
    were; below capacity it returns, the size of slot [i] is one more, the
    other members are as they were, and [value] has been copy-constructed
    at [data(i) + size(i)]. *)
Definition push_back_outcome (i : nat) (T : cpp_type) (value : val)
    (mv : multi_vector) (w : world val)
    (out : res () * (multi_vector * world val)) : Prop :=
  (size_I i mv = capacity_I i mv ∧ out = (Throw length_error, (mv, w)))
  ∨ (size_I i mv < capacity_I i mv ∧
     ∃ mv' w',
       out = (Ok (), (mv', w')) ∧
       size_I i mv' = size_I i mv + 1 ∧
       (∀ i', (i' < N Ts)%nat → i' ≠ i → size_I i' mv' = size_I i' mv) ∧
       data_ptrs_ mv' = data_ptrs_ mv ∧
       capacities_ mv' = capacities_ mv ∧
       block_ mv' = block_ mv ∧
       block_size_ mv' = block_size_ mv ∧
       load w' (ptr_add (data_I i mv) T (size_I i mv)) T = Some value ∧
       trace w'
       = trace w ++ [EvConstruct T (ptr_add (data_I i mv) T (size_I i mv)) value]).

(** A run of [push_back<idx>] calls that all succeed. *)
Fixpoint push_all (ops : list (nat * val)) (mv : multi_vector) (w : world val)
  : option (multi_vector * world val) :=
  match ops with
  | [] => Some (mv, w)
  | (idx, v) :: ops' =>
      match push_back_I Ts idx v mv w with
      | (Ok _, (mv', w')) => push_all ops' mv' w'
      | (Throw _, _) => None
      end
  end.

(** The values a run pushed into the array of type [I], in order. *)
Definition pushed (ops : list (nat * val)) (I : nat) : list val :=
  snd <$> filter (λ op, op.1 = I) ops.

(** The values [build] fills the array of type [I] with. *)
Definition default_fill (b : builder val) (I : nat) : list val :=
  match defaults_ b !!! I with
  | Some d => replicate (Z.to_nat (caps_ b !!! I)) d
  | None => []
  end.



(** The events of the default fill of [build], for the types that have a
    default: one copy construction per slot, indices increasing. *)
Definition fill_events_at (b : builder val) (mv : multi_vector) (I : nat)
  : list (event val) :=
  match defaults_ b !!! I with
  | Some d =>
      (λ j, EvConstruct (type_at Ts I) (elem_addr mv I j) d)
        <$> seq 0 (Z.to_nat (caps_ b !!! I))
  | None => []
  end.

(** *** The layout in unbounded integers

    The byte offset one past the arrays of the types before [k], and the
    offset of the array of type [k], as the layout contract defines them:
    each offset is the previous end rounded up to the alignment. *)
Definition round_up (v a : Z) : Z := (v + a - 1) / a * a.

Fixpoint exact_end (caps : list Z) (k : nat) : Z :=
  match k with
  | O => 0
  | S k' =>
      round_up (exact_end caps k') (type_aligns_ Ts !!! k')
      + caps !!! k' * type_sizes_ Ts !!! k'
  end.

Definition exact_offset (caps : list Z) (k : nat) : Z :=
  round_up (exact_end caps k) (type_aligns_ Ts !!! k).

(** The value of [off] after [k] iterations of the layout loop. *)
Fixpoint layout_end (caps : list Z) (k : nat) : Z :=
  match k with
  | O => 0
  | S k' =>
      add_sz (align_up (layout_end caps k') (type_aligns_ Ts !!! k'))
             (mul_sz (caps !!! k') (type_sizes_ Ts !!! k'))
  end.

(** The block [build] asked for holds the whole layout: no step of the
    [size_t] computation wrapped, and the block lies in the address space. *)
Definition block_fits (caps : list Z) (block : Z) : Prop :=
  0 < block ∧ block + exact_end caps (N Ts) <= size_t_mod.

#[global] Instance block_fits_dec caps block : Decision (block_fits caps block).
Proof. unfold block_fits. apply _. Defined.

(** *** The containers that share one block

    The containers made from one [build] by moves, with the world they
    live in.  A step is a [push_back] on one of them or a move
    construction from one of them. *)
Inductive family_step
  : list multi_vector * world val → list multi_vector * world val → Prop :=
| fs_push_back k idx (v : val) cs w mv r mv' w' :
    cs !! k = Some mv → (idx < N Ts)%nat →
    push_back_I Ts idx v mv w = (r, (mv', w')) →
    family_step (cs, w) (<[k:=mv']> cs, w')
| fs_move k cs w mv :
    cs !! k = Some mv →
    family_step (cs, w)
      (<[k:=(move_ctor Ts mv).2]> cs ++ [(move_ctor Ts mv).1], w).

Inductive family_steps
  : list multi_vector * world val → list multi_vector * world val → Prop :=
| fss_refl c : family_steps c c
| fss_step c1 c2 c3 :
    family_steps c1 c2 → family_step c2 c3 → family_steps c1 c3.


Definition count_events (f : event val → bool) (evs : list (event val)) : nat :=
  length (filter (λ e, f e = true) evs).

(** Constructor and destructor calls on elements with a non-trivial
    destructor (the calls a type like [Tracked] counts). *)
Definition tracked_construct (e : event val) : bool :=
  is_construct e && tracked e.
Definition tracked_destroy (e : event val) : bool :=
  is_destroy e && tracked e.

(** The number of live elements with a non-trivial destructor. *)
Definition live_tracked (mv : multi_vector) : nat :=
  sum_list
    ((λ I, if trivially_destructible (type_at Ts I) then 0%nat
           else Z.to_nat (size_I I mv)) <$> seq 0 (N Ts)).

(** The invariant of a family since its [build]: one container owns the
    block [blk] and the live elements, every other one is empty; the
    events since then ([evs]) hold one tracked construction per live
    tracked element, and no destruction or release. *)
Definition family_inv (blk : Z) (evs0 : list (event val))
    (c : list multi_vector * world val) : Prop :=
  ∃ (k : nat) (owner : multi_vector) (evs : list (event val)),
    c.1 !! k = Some owner ∧
    (∀ k' mv, k' ≠ k → c.1 !! k' = Some mv → mv = default_ctor Ts) ∧
    well_typed owner ∧ size_le_capacity owner ∧
    block_ owner = blk ∧
    (blk = 0 → owner = default_ctor Ts) ∧
    trace c.2 = evs0 ++ evs ∧
    count_events tracked_construct evs = live_tracked owner ∧
    count_events tracked_destroy evs = 0%nat ∧
    count_events is_delete evs = 0%nat.
End Properties.

(** ** Fixtures: the packs and values of the test suite *)

Definition t_int : cpp_type := CppType "int" 4 4 true.
Definition t_double : cpp_type := CppType "double" 8 8 true.
Definition t_string : cpp_type := CppType "std::string" 32 8 false.
Definition t_Tracked : cpp_type := CppType "Tracked" 4 4 false.
Definition t_char : cpp_type := CppType "char" 1 1 true.
Definition t_float : cpp_type := CppType "float" 4 4 true.

Inductive value :=
| Int (n : Z)
| Str (s : string).

(** [using MV = multi_vector<int, double, std::string>]. *)
Definition MV : list cpp_type := [t_int; t_double; t_string].

Definition w0 : world value := World [] [].

(** [BuildAndPushBackAndAccess]: capacities 3, 2, 4, answered by a block at
    4096. *)
Definition test_builder : builder value :=
  builder_capacity_T MV t_string 4
    (builder_capacity_T MV t_double 2
       (builder_capacity_T MV t_int 3 (builder_ctor MV))).

Definition test_mv : multi_vector :=
  MultiVector [4096; 4112; 4128] [0; 0; 0] [3; 2; 4] 4096 160.

Definition test_w : world value := World [] [EvNew 160 8 4096].

Definition test_pushes : list (nat * value) :=
  [(0%nat, Int 10); (0%nat, Int 20); (2%nat, Str "hello"); (2%nat, Str "world")].

(** [test_mv] after [test_pushes]. *)
Definition pushed_mv : multi_vector :=
  MultiVector [4096; 4112; 4128] [2; 0; 2] [3; 2; 4] 4096 160.

Definition pushed_w : world value :=
  World
    [Object 4160 t_string (Str "world"); Object 4128 t_string (Str "hello");
     Object 4100 t_int (Int 20); Object 4096 t_int (Int 10)]
    [EvNew 160 8 4096;
     EvConstruct t_int 4096 (Int 10); EvConstruct t_int 4100 (Int 20);
     EvConstruct t_string 4128 (Str "hello");
     EvConstruct t_string 4160 (Str "world")].

(** [CapacityExceededThrows]: capacities 1, 0, 1. *)
Definition tight_builder : builder value :=
  builder_capacity_T MV t_string 1
    (builder_capacity_T MV t_double 0
       (builder_capacity_T MV t_int 1 (builder_ctor MV))).

Definition tight_mv : multi_vector :=
  MultiVector [4096; 4104; 4104] [0; 0; 0] [1; 0; 1] 4096 40.

(** [DefaultValue]: capacities 3, 2, 4 with defaults for [int] and
    [std::string]. *)
Definition default_builder : builder value :=
  builder_default_value_T MV t_string (Str "default")
    (builder_default_value_T MV t_int (Int 42) test_builder).

(** A pack whose middle array is so large that the layout wraps around:
    [multi_vector<int, char, float>] with capacities 2, 2^64 - 8, 2.  The
    loop of [build] computes the offsets 0, 8, 0 and a block of 8 bytes, so
    the [int] and the [float] array share their bytes. *)
Definition OV : list cpp_type := [t_int; t_char; t_float].

Definition wrap_caps : builder value :=
  builder_capacity_I 2 2
    (builder_capacity_I 1 (2 ^ 64 - 8)
       (builder_capacity_I 0 2 (builder_ctor OV))).

Definition wrap_builder : builder value :=
  builder_default_value_I 2 (Int 7) (builder_default_value_I 0 (Int 42) wrap_caps).

(** What [build] returns for [wrap_caps]. *)
Definition wrap_mv : multi_vector :=
  MultiVector [4096; 4104; 4096] [0; 0; 0] [2; 2 ^ 64 - 8; 2] 4096 8.

(** What [build] returns for [wrap_builder]. *)
Definition wrap_filled_mv : multi_vector :=
  MultiVector [4096; 4104; 4096] [2; 0; 2] [2; 2 ^ 64 - 8; 2] 4096 8.

(** [wrap_mv] after [push_back<0>(10)] and [push_back<2>(7)]. *)
Definition wrap_pushes : list (nat * value) := [(0%nat, Int 10); (2%nat, Int 7)].

Definition wrap_pushed_mv : multi_vector :=
  MultiVector [4096; 4104; 4096] [1; 0; 1] [2; 2 ^ 64 - 8; 2] 4096 8.

Definition wrap_pushed_w : world value :=
  World [Object 4096 t_float (Int 7)]
        [EvNew 8 4 4096; EvConstruct t_int 4096 (Int 10);
         EvConstruct t_float 4096 (Int 7)].

(** [ProperDestructionOnMove]: [multi_vector<Tracked>] with capacity 3, two
    elements pushed, then move-constructed from. *)
Definition TR : list cpp_type := [t_Tracked].

Definition tracked_builder : builder value :=
  builder_capacity_T TR t_Tracked 3 (builder_ctor TR).

Definition tracked_mv0 : multi_vector := MultiVector [4096] [0] [3] 4096 12.

Definition tracked_w0 : world value := World [] [EvNew 12 4 4096].

Definition tracked_mv : multi_vector := MultiVector [4096] [2] [3] 4096 12.

Definition tracked_w : world value :=
  World
    [Object 4100 t_Tracked (Int 200); Object 4096 t_Tracked (Int 100)]
    [EvNew 12 4 4096;
     EvConstruct t_Tracked 4096 (Int 100); EvConstruct t_Tracked 4100 (Int 200)].

Definition tracked_pushes : list (nat * value) :=
  [(0%nat, Int 100); (0%nat, Int 200)].

(** ** Vocabulary of the teardown of a family on a layout that fits *)

Section Liveness.
Context {val : Type}.
Variable Ts : list cpp_type.




End Liveness.









(** ** Vocabulary of the further properties *)

Section Configuration.
Context {val : Type}.
Variable Ts : list cpp_type.

(** One call on a builder: [capacity] or [default_value], by type or by
    index (lines 153-179). *)
Inductive builder_call :=
| CallCapacity_T (T : cpp_type) (cap : Z)
| CallCapacity_I (idx : nat) (cap : Z)
| CallDefault_T (T : cpp_type) (value : val)
| CallDefault_I (idx : nat) (value : val).

Definition run_call (b : builder val) (c : builder_call) : builder val :=
  match c with
  | CallCapacity_T T cap => builder_capacity_T Ts T cap b
  | CallCapacity_I idx cap => builder_capacity_I idx cap b
  | CallDefault_T T value => builder_default_value_T Ts T value b
  | CallDefault_I idx value => builder_default_value_I idx value b
  end.

(** [builder().c1(...).c2(...) ...]: the calls chained on a fresh builder. *)
Definition configure (calls : list builder_call) : builder val :=
  foldl run_call (builder_ctor Ts) calls.

(** The slot a call addresses. *)
Definition call_slot (c : builder_call) : nat :=
  match c with
  | CallCapacity_T T _ | CallDefault_T T _ => idx_v Ts T
  | CallCapacity_I idx _ | CallDefault_I idx _ => idx
  end.

(** A call the compiler accepts: the type is in the pack, the index is in
    range, the capacity is a [size_t]. *)
Definition call_ok (c : builder_call) : Prop :=
  match c with
  | CallCapacity_T T cap => T ∈ Ts ∧ is_size_t cap
  | CallCapacity_I idx cap => (idx < N Ts)%nat ∧ is_size_t cap
  | CallDefault_T T _ => T ∈ Ts
  | CallDefault_I idx _ => (idx < N Ts)%nat
  end.

#[global] Instance call_ok_dec c : Decision (call_ok c).
Proof. destruct c; simpl; apply _. Defined.

(** The capacity of the last [capacity] call for slot [i]; 0 without one. *)
Definition last_capacity (calls : list builder_call) (i : nat) : Z :=
  foldl (λ acc c,
           match c with
           | CallCapacity_T _ cap | CallCapacity_I _ cap =>
               if decide (call_slot c = i) then cap else acc
           | _ => acc
           end) 0 calls.

(** The value of the last [default_value] call for slot [i], if any. *)
Definition last_default (calls : list builder_call) (i : nat) : option val :=
  foldl (λ acc c,
           match c with
           | CallDefault_T _ v | CallDefault_I _ v =>
               if decide (call_slot c = i) then Some v else acc
           | _ => acc
           end) None calls.

(** A run of [push_back<idx>] calls whose exceptions the caller catches:
    every call is made, whatever the outcome of the ones before. *)
Fixpoint push_each (ops : list (nat * val)) (mv : multi_vector) (w : world val)
  : multi_vector * world val :=
  match ops with
  | [] => (mv, w)
  | (idx, v) :: ops' =>
      let '(_, (mv', w')) := push_back_I Ts idx v mv w in
      push_each ops' mv' w'
  end.

(** The bytes of the arrays of the types before [k], and the most padding
    the alignment of those types can ask for. *)
Fixpoint payload_bytes (caps : list Z) (k : nat) : Z :=
  match k with
  | O => 0
  | S k' => payload_bytes caps k' + caps !!! k' * type_sizes_ Ts !!! k'
  end.

Fixpoint padding_bound (k : nat) : Z :=
  match k with
  | O => 0
  | S k' => padding_bound k' + (type_aligns_ Ts !!! k' - 1)
  end.

(** The live slot of an element with a non-trivial destructor. *)
Definition tracked_slot (mv : multi_vector) (p : Z) (T : cpp_type) : Prop :=
  ∃ (I j : nat), (I < N Ts)%nat ∧ (j < Z.to_nat (size_I I mv))%nat ∧
    trivially_destructible (type_at Ts I) = false ∧
    p = elem_addr Ts mv I j ∧ T = type_at Ts I.
End Configuration.
Arguments builder_call : clear implicits.

(** [DefaultValue], as the chain of calls of the test. *)
Definition default_calls : list (builder_call value) :=
  [CallCapacity_T t_int 3; CallCapacity_T t_double 2; CallCapacity_T t_string 4;
   CallDefault_T t_int (Int 42); CallDefault_T t_string (Str "default")].

(** The same elements as [test_pushes], interleaved differently. *)
Definition test_pushes' : list (nat * value) :=
  [(2%nat, Str "hello"); (0%nat, Int 10); (2%nat, Str "world"); (0%nat, Int 20)].

(** A run that pushes a fourth [int] into the capacity of three. *)
Definition overfull_pushes : list (nat * value) :=
  [(0%nat, Int 1); (0%nat, Int 2); (2%nat, Str "a");
   (0%nat, Int 3); (0%nat, Int 4); (2%nat, Str "b")].

(** A pack in the order of decreasing alignment. *)
Definition SORTED : list cpp_type := [t_double; t_int; t_char].

(** Closed decidable side conditions, by evaluation. *)
Ltac by_compute := apply (bool_decide_unpack _); vm_compute; exact I.


(** * Proofs *)

(** ** [size_t] arithmetic *)

Lemma size_t_mod_eq : size_t_mod = 18446744073709551616.
Proof. reflexivity. Qed.

Lemma wrap_range z : is_size_t (wrap z).
Proof. unfold is_size_t, wrap. rewrite size_t_mod_eq. apply Z.mod_pos_bound. lia. Qed.

Lemma wrap_small z : is_size_t z → wrap z = z.
Proof. unfold is_size_t, wrap. intros. by apply Z.mod_small. Qed.

Lemma wrap_land z : wrap z = Z.land z (Z.ones 64).
Proof. unfold wrap. by rewrite Z.land_ones. Qed.

Lemma land_wrap_r x y : is_size_t x → Z.land x (wrap y) = Z.land x y.
Proof.
  intros Hx. rewrite wrap_land, (Z.land_comm y), Z.land_assoc.
  by rewrite <- wrap_land, (wrap_small x).
Qed.

(** ** Loops *)

Lemma for_loop_S {S : Type} n (body : S → nat → S) init :
  for_loop (Datatypes.S n) body init = body (for_loop n body init) n.
Proof. unfold for_loop. by rewrite seq_S, foldl_snoc. Qed.

(** Loop invariants: [P k s] holds of the state [s] before iteration [k]. *)
Lemma for_loop_ind {S : Type} (P : nat → S → Prop) n (body : S → nat → S) init :
  P 0%nat init →
  (∀ k s, (k < n)%nat → P k s → P (Datatypes.S k) (body s k)) →
  P n (for_loop n body init).
Proof.
  intros H0 Hstep.
  assert (∀ k, (k ≤ n)%nat → P k (for_loop k body init)) as H; [|by apply H].
  induction k as [|k IH]; intros Hk; [done|].
  rewrite for_loop_S. apply Hstep; [lia|]. apply IH. lia.
Qed.

Lemma for_loop_inv {S : Type} (P : nat → S → Prop) (Q : S → Prop) n
    (body : S → nat → S) init :
  P 0%nat init →
  (∀ k s, (k < n)%nat → P k s → P (Datatypes.S k) (body s k)) →
  (∀ s, P n s → Q s) →
  Q (for_loop n body init).
Proof. intros H0 Hstep Hend. by apply Hend, for_loop_ind. Qed.

(** ** [align_up] *)

Lemma align_up_0 a : align_up 0 a = 0.
Proof.
  unfold align_up. case_decide; [done|].
  unfold add_sz, not_sz. rewrite Z.add_0_l.
  rewrite (wrap_small (sub_sz a 1)) by apply wrap_range.
  rewrite land_wrap_r by apply wrap_range.
  apply Z.land_lnot_diag.
Qed.

Lemma round_up_bounds v a : 0 < a → v <= round_up v a < v + a.
Proof.
  intros Ha. unfold round_up.
  pose proof (Z.div_mod (v + a - 1) a) as Hdm.
  pose proof (Z.mod_pos_bound (v + a - 1) a Ha). lia.
Qed.

Lemma round_up_divide v a : (a | round_up v a).
Proof. unfold round_up. by apply Z.divide_factor_r. Qed.

(** On a power of two, and when [value + alignment - 1] does not wrap,
    [align_up] rounds up to the next multiple. *)
Lemma align_up_pow2 v e :
  0 <= e < 64 → 0 <= v → v + 2 ^ e - 1 < size_t_mod →
  align_up v (2 ^ e) = round_up v (2 ^ e).
Proof.
  intros He Hv Hlt.
  assert (0 < 2 ^ e) as Hpos by (apply Z.pow_pos_nonneg; lia).
  unfold align_up. case_decide; [lia|].
  unfold add_sz, not_sz, sub_sz.
  assert (is_size_t (2 ^ e - 1)) as Hm by (unfold is_size_t; lia).
  rewrite (wrap_small (2 ^ e - 1)) by done.
  rewrite (wrap_small (v + _)) by (unfold is_size_t; lia).
  rewrite land_wrap_r by (unfold is_size_t; lia).
  replace (2 ^ e - 1) with (Z.ones e) by (rewrite Z.ones_equiv; lia).
  rewrite <- Z.ldiff_land, Z.ldiff_ones_r by lia.
  rewrite Z.shiftr_div_pow2, Z.shiftl_mul_pow2 by lia.
  unfold round_up. rewrite Z.ones_equiv. do 2 f_equal. lia.
Qed.


Section LayoutProofs.
Variable Ts : list cpp_type.

Lemma type_aligns_lookup i :
  (i < N Ts)%nat → type_aligns_ Ts !!! i = type_align (type_at Ts i).
Proof.
  intros. unfold type_aligns_, type_at.
  by rewrite (@list_lookup_total_fmap _ _ _ cpp_type_inhabited).
Qed.

Lemma type_sizes_lookup i :
  (i < N Ts)%nat → type_sizes_ Ts !!! i = type_size (type_at Ts i).
Proof.
  intros. unfold type_sizes_, type_at.
  by rewrite (@list_lookup_total_fmap _ _ _ cpp_type_inhabited).
Qed.

(** The form in which the proofs use [wf_type]. *)
Lemma type_at_wf i :
  Forall wf_type Ts → (i < N Ts)%nat →
  0 < type_size (type_at Ts i) < size_t_mod
  ∧ ∃ e : Z, 0 <= e < 64 ∧ type_align (type_at Ts i) = 2 ^ e.
Proof.
  intros Hwf Hi.
  destruct (proj1 (Forall_lookup_total wf_type Ts) Hwf i Hi) as (Hsz & Hal & Hpow).
  unfold type_at. split; [done|]. exists (Z.log2 (type_align (Ts !!! i))).
  split; [|done]. split; [apply Z.log2_nonneg|].
  apply Z.log2_lt_pow2; [lia|]. change (2 ^ 64) with size_t_mod. lia.
Qed.

(** The layout loop, iteration by iteration. *)
Lemma layout_loop caps :
  (layout Ts caps).2 = layout_end Ts caps (N Ts) ∧
  length (layout Ts caps).1 = N Ts ∧
  ∀ i, (i < N Ts)%nat →
    (layout Ts caps).1 !!! i
    = align_up (layout_end Ts caps i) (type_aligns_ Ts !!! i).
Proof.
  unfold layout.
  apply (for_loop_ind (λ k (st : list Z * Z),
    st.2 = layout_end Ts caps k ∧ length st.1 = N Ts ∧
    ∀ i, (i < k)%nat →
      st.1 !!! i = align_up (layout_end Ts caps i) (type_aligns_ Ts !!! i))).
  - simpl. split_and!; [done|by rewrite length_replicate|intros; lia].
  - intros k [offs off] Hk (Hoff & Hlen & Hprev). simpl in *. subst off.
    split_and!; [done|by rewrite length_insert|].
    intros i Hi. destruct (decide (i = k)) as [->|Hne].
    + by rewrite list_lookup_total_insert_eq by lia.
    + rewrite list_lookup_total_insert_ne by done. apply Hprev. lia.
Qed.

(** *** The layout without wrap-around *)

Section Exact.
Variable caps : list Z.
Hypothesis Hwf : Forall wf_type Ts.
Hypothesis Hcaps : Forall is_size_t caps.
Hypothesis Hlen : length caps = N Ts.

Lemma caps_nonneg i : (i < N Ts)%nat → 0 <= caps !!! i.
Proof.
  intros Hi. apply (Forall_lookup_total is_size_t caps); [done|lia].
Qed.

Lemma exact_end_step k :
  (k < N Ts)%nat →
  exact_end Ts caps k <= exact_offset Ts caps k
  ∧ exact_offset Ts caps k <= exact_end Ts caps (S k).
Proof.
  intros Hk. unfold exact_offset. simpl.
  destruct (type_at_wf k Hwf Hk) as [Hsz (e & He & Hal)].
  rewrite type_aligns_lookup, type_sizes_lookup by done.
  assert (0 < type_align (type_at Ts k)) as Hpos
    by (rewrite Hal; apply Z.pow_pos_nonneg; lia).
  pose proof (round_up_bounds (exact_end Ts caps k) _ Hpos).
  pose proof (caps_nonneg k Hk). nia.
Qed.

Lemma exact_end_mono k k' :
  (k ≤ k')%nat → (k' ≤ N Ts)%nat → exact_end Ts caps k <= exact_end Ts caps k'.
Proof.
  induction 1 as [|k' Hle IH]; intros Hk'; [lia|].
  pose proof (exact_end_step k' ltac:(lia)). specialize (IH ltac:(lia)). lia.
Qed.

Lemma exact_end_nonneg k : (k ≤ N Ts)%nat → 0 <= exact_end Ts caps k.
Proof. intros. by apply (exact_end_mono 0 k); [lia|]. Qed.

Hypothesis Hfits : exact_end Ts caps (N Ts) < size_t_mod.

Lemma align_up_exact k :
  (k < N Ts)%nat →
  align_up (exact_end Ts caps k) (type_aligns_ Ts !!! k) = exact_offset Ts caps k.
Proof.
  intros Hk. unfold exact_offset.
  destruct (type_at_wf k Hwf Hk) as [Hsz (e & He & Hal)].
  rewrite type_aligns_lookup, Hal by done.
  apply align_up_pow2; [done|by apply exact_end_nonneg; lia|].
  pose proof (exact_end_step k Hk) as [_ Hup].
  pose proof (exact_end_mono (S k) (N Ts) ltac:(lia) ltac:(lia)) as Hmono.
  unfold exact_offset in Hup. rewrite type_aligns_lookup, Hal in Hup by done.
  assert (0 < 2 ^ e) as Hpos by (apply Z.pow_pos_nonneg; lia).
  pose proof (round_up_bounds (exact_end Ts caps k) _ Hpos) as Hb.
  destruct (round_up_divide (exact_end Ts caps k) (2 ^ e)) as [q Hq].
  assert (size_t_mod = 2 ^ (64 - e) * 2 ^ e) as Hmod.
  { unfold size_t_mod. rewrite <- Z.pow_add_r by lia. f_equal. lia. }
  assert (0 < 2 ^ (64 - e)) by (apply Z.pow_pos_nonneg; lia).
  pose proof (caps_nonneg k Hk).
  simpl in Hmono.
  rewrite type_aligns_lookup, type_sizes_lookup, Hal in Hmono by done.
  set (a := 2 ^ e) in *. set (M := 2 ^ (64 - e)) in *.
  set (v := exact_end Ts caps k) in *.
  assert (round_up v a < size_t_mod) as Hlt by nia.
  rewrite Hq, Hmod in Hlt.
  assert (q < M) by nia.
  assert ((q + 1) * a <= M * a) by nia.
  lia.
Qed.

Lemma layout_end_exact k :
  (k ≤ N Ts)%nat → layout_end Ts caps k = exact_end Ts caps k.
Proof.
  induction k as [|k IH]; intros Hk; [done|].
  simpl. rewrite IH, align_up_exact by lia.
  pose proof (exact_end_step k ltac:(lia)) as [Hlo Hhi].
  pose proof (exact_end_nonneg k ltac:(lia)).
  pose proof (exact_end_mono (S k) (N Ts) ltac:(lia) ltac:(lia)) as Hmono.
  simpl in Hhi, Hmono. fold (exact_offset Ts caps k) in Hhi, Hmono |- *.
  pose proof (caps_nonneg k ltac:(lia)).
  destruct (type_at_wf k Hwf ltac:(lia)) as [Hsz _].
  rewrite type_sizes_lookup in * by lia.
  unfold add_sz, mul_sz.
  rewrite (wrap_small (_ * _)) by (unfold is_size_t; nia).
  apply wrap_small. unfold is_size_t. lia.
Qed.

Lemma layout_offset_exact i :
  (i < N Ts)%nat → (layout Ts caps).1 !!! i = exact_offset Ts caps i.
Proof.
  intros Hi. destruct (layout_loop caps) as (_ & _ & Hoffs).
  rewrite Hoffs, layout_end_exact, align_up_exact by lia. done.
Qed.
End Exact.
End LayoutProofs.


(** ** The heap *)

Section HeapProofs.
Context {val : Type}.
Implicit Types (w : world val) (v : val) (T : cpp_type).

Lemma load_placement_new_same w p T v :
  load (placement_new p T v w) p T = Some v.
Proof.
  unfold load, placement_new. simpl.
  by rewrite filter_cons_True by done.
Qed.

(** Constructing an object leaves every object in place whose bytes it does
    not touch. *)
Lemma load_placement_new_disjoint w p T v p' T' :
  0 < type_size T → 0 < type_size T' →
  p' + type_size T' <= p ∨ p + type_size T <= p' →
  load (placement_new p T v w) p' T' = load w p' T'.
Proof.
  intros HT HT' Hdisj. unfold load, placement_new. simpl.
  rewrite filter_cons_False by (unfold is_at; simpl; intros [-> ->]; lia).
  rewrite list_filter_filter. do 2 f_equal.
  apply list_filter_iff. intros o. unfold is_at, overlaps.
  split; [by intros [? _]|]. intros [<- <-]. split; [done|]. lia.
Qed.

Lemma trace_placement_new w p T v :
  trace (placement_new p T v w) = trace w ++ [EvConstruct T p v].
Proof. done. Qed.

End HeapProofs.

(** ** Arrays updated index by index *)

(** One array of the move constructor's loop: after [k] iterations the first
    [k] entries of the source sit in the destination and are zero in the
    source. *)
Lemma move_loop_step (src t o : list Z) (k n : nat) :
  length src = n → (k < n)%nat →
  (length t = n ∧ length o = n ∧
   ∀ i, ((i < k)%nat → t !! i = src !! i ∧ o !! i = Some 0) ∧
        ((k ≤ i)%nat → o !! i = src !! i)) →
  (length (<[k:=o !!! k]> t) = n ∧ length (<[k:=0]> o) = n ∧
   ∀ i, ((i < S k)%nat → <[k:=o !!! k]> t !! i = src !! i ∧ <[k:=0]> o !! i = Some 0) ∧
        ((S k ≤ i)%nat → <[k:=0]> o !! i = src !! i)).
Proof.
  intros Hsrc Hk (Ht & Ho & Hinv).
  rewrite !length_insert. split_and!; [done..|].
  intros i. split.
  - intros Hi. destruct (decide (i = k)) as [->|Hne].
    + rewrite !list_lookup_insert_eq by lia.
      destruct (Hinv k) as [_ Hge]. specialize (Hge ltac:(lia)).
      rewrite <- Hge. split; [|done].
      symmetry. apply list_lookup_lookup_total_lt. lia.
    + rewrite !list_lookup_insert_ne by done. apply Hinv. lia.
  - intros Hi. rewrite list_lookup_insert_ne by lia. apply Hinv. lia.
Qed.

Lemma move_loop_done (src t o : list Z) (n : nat) :
  length src = n →
  (length t = n ∧ length o = n ∧
   ∀ i, ((i < n)%nat → t !! i = src !! i ∧ o !! i = Some 0) ∧
        ((n ≤ i)%nat → o !! i = src !! i)) →
  t = src ∧ o = replicate n 0.
Proof.
  intros Hsrc (Ht & Ho & Hinv). split; apply list_eq; intros i.
  - destruct (decide (i < n)%nat); [by apply Hinv|].
    rewrite !lookup_ge_None_2; [done|lia..].
  - destruct (decide (i < n)%nat).
    + rewrite lookup_replicate_2 by done. by apply Hinv.
    + rewrite !lookup_ge_None_2; [done|rewrite length_replicate; lia|lia].
Qed.

Section ContainerProofs.
Context {val : Type}.
Variable Ts : list cpp_type.
Implicit Types (mv : multi_vector) (w : world val) (v : val).

Lemma default_ctor_well_typed : well_typed Ts (default_ctor Ts).
Proof.
  unfold well_typed, default_ctor. simpl. rewrite !length_replicate.
  split_and!; try done; apply Forall_replicate; unfold is_size_t;
    rewrite size_t_mod_eq; lia.
Qed.

(** The move constructor hands over every member and leaves the source as
    a default-constructed container. *)
Lemma move_ctor_spec mv :
  well_typed Ts mv → move_ctor Ts mv = (mv, default_ctor Ts).
Proof.
  intros (Hd & Hs & Hc & _). unfold move_ctor.
  set (loop := for_loop _ _ _).
  assert (block_ loop.1 = block_ mv ∧ block_size_ loop.1 = block_size_ mv ∧
    (length (data_ptrs_ loop.1) = N Ts ∧ length (data_ptrs_ loop.2) = N Ts ∧
     ∀ i, ((i < N Ts)%nat → data_ptrs_ loop.1 !! i = data_ptrs_ mv !! i
                             ∧ data_ptrs_ loop.2 !! i = Some 0) ∧
          ((N Ts ≤ i)%nat → data_ptrs_ loop.2 !! i = data_ptrs_ mv !! i)) ∧
    (length (sizes_ loop.1) = N Ts ∧ length (sizes_ loop.2) = N Ts ∧
     ∀ i, ((i < N Ts)%nat → sizes_ loop.1 !! i = sizes_ mv !! i
                             ∧ sizes_ loop.2 !! i = Some 0) ∧
          ((N Ts ≤ i)%nat → sizes_ loop.2 !! i = sizes_ mv !! i)) ∧
    (length (capacities_ loop.1) = N Ts ∧ length (capacities_ loop.2) = N Ts ∧
     ∀ i, ((i < N Ts)%nat → capacities_ loop.1 !! i = capacities_ mv !! i
                             ∧ capacities_ loop.2 !! i = Some 0) ∧
          ((N Ts ≤ i)%nat → capacities_ loop.2 !! i = capacities_ mv !! i)))
    as (Hb & Hbs & HD & HS & HC).
  { unfold loop.
    apply (for_loop_ind (λ k (st : multi_vector * multi_vector),
      block_ st.1 = block_ mv ∧ block_size_ st.1 = block_size_ mv ∧
      (length (data_ptrs_ st.1) = N Ts ∧ length (data_ptrs_ st.2) = N Ts ∧
       ∀ i, ((i < k)%nat → data_ptrs_ st.1 !! i = data_ptrs_ mv !! i
                            ∧ data_ptrs_ st.2 !! i = Some 0) ∧
            ((k ≤ i)%nat → data_ptrs_ st.2 !! i = data_ptrs_ mv !! i)) ∧
      (length (sizes_ st.1) = N Ts ∧ length (sizes_ st.2) = N Ts ∧
       ∀ i, ((i < k)%nat → sizes_ st.1 !! i = sizes_ mv !! i
                            ∧ sizes_ st.2 !! i = Some 0) ∧
            ((k ≤ i)%nat → sizes_ st.2 !! i = sizes_ mv !! i)) ∧
      (length (capacities_ st.1) = N Ts ∧ length (capacities_ st.2) = N Ts ∧
       ∀ i, ((i < k)%nat → capacities_ st.1 !! i = capacities_ mv !! i
                            ∧ capacities_ st.2 !! i = Some 0) ∧
            ((k ≤ i)%nat → capacities_ st.2 !! i = capacities_ mv !! i)))).
    - simpl. rewrite !length_replicate.
      split_and!; try done; intros i; (split; [lia|done]).
    - intros k [t o] Hk (? & ? & HD & HS & HC). simpl in *.
      refine (conj _ (conj _ (conj _ (conj _ _)))); [done|done|..];
        by apply move_loop_step. }
  destruct loop as [t o]. simpl in *.
  apply move_loop_done in HD as [HD1 HD2]; [|done].
  apply move_loop_done in HS as [HS1 HS2]; [|done].
  apply move_loop_done in HC as [HC1 HC2]; [|done].
  destruct t, o, mv. simpl in *. unfold default_ctor, set_block_size, set_block.
  simpl. by subst.
Qed.
End ContainerProofs.


Section BuildProofs.
Context {val : Type}.
Variable Ts : list cpp_type.
Implicit Types (mv : multi_vector) (w : world val) (v : val) (b : builder val).

(** The loop of lines 214-217. *)
Lemma build_arrays_loop (p c : nat → Z) mv0 :
  length (data_ptrs_ mv0) = N Ts → length (capacities_ mv0) = N Ts →
  let mv1 :=
    for_loop (N Ts)
      (λ mv i, set_capacity i (c i) (set_data_ptr i (p i) mv)) mv0 in
  sizes_ mv1 = sizes_ mv0 ∧ block_ mv1 = block_ mv0 ∧
  block_size_ mv1 = block_size_ mv0 ∧
  length (data_ptrs_ mv1) = N Ts ∧ length (capacities_ mv1) = N Ts ∧
  ∀ i, (i < N Ts)%nat → data_ptrs_ mv1 !!! i = p i ∧ capacities_ mv1 !!! i = c i.
Proof.
  intros Hd Hc mv1. unfold mv1.
  apply (for_loop_ind (λ k mv,
    sizes_ mv = sizes_ mv0 ∧ block_ mv = block_ mv0 ∧
    block_size_ mv = block_size_ mv0 ∧
    length (data_ptrs_ mv) = N Ts ∧ length (capacities_ mv) = N Ts ∧
    ∀ i, (i < k)%nat → data_ptrs_ mv !!! i = p i ∧ capacities_ mv !!! i = c i)).
  - split_and!; try done. intros; lia.
  - intros k mv Hk (? & ? & ? & Hld & Hlc & Hprev). simpl.
    rewrite !length_insert. split_and!; try done.
    intros i Hi. destruct (decide (i = k)) as [->|Hne].
    + by rewrite !list_lookup_total_insert_eq by lia.
    + rewrite !list_lookup_total_insert_ne by done. apply Hprev. lia.
Qed.

(** The fill loop of lines 193-195 constructs the slots in increasing
    order. *)
Lemma fill_loop_trace (n : nat) ptr T (d : val) w :
  trace (for_loop n (λ w j, placement_new (ptr_add ptr T (Z.of_nat j)) T d w) w)
  = trace w ++ ((λ j : nat, EvConstruct T (ptr_add ptr T (Z.of_nat j)) d) <$> seq 0 n).
Proof.
  apply (for_loop_ind (λ k w',
    trace w' = trace w
      ++ ((λ j : nat, EvConstruct T (ptr_add ptr T (Z.of_nat j)) d) <$> seq 0 k))).
  - simpl. by rewrite app_nil_r.
  - intros k w' _ Hw'. rewrite trace_placement_new, Hw', seq_S, fmap_app.
    by rewrite <- app_assoc.
Qed.

Lemma fill_events_at_data b mv mv' I :
  data_ptrs_ mv = data_ptrs_ mv' →
  fill_events_at Ts b mv I = fill_events_at Ts b mv' I.
Proof. intros H. unfold fill_events_at, elem_addr, data_I. by rewrite H. Qed.

Lemma init_default_at_trace b I mv w :
  trace (init_default_at Ts b I (mv, w)).2 = trace w ++ fill_events_at Ts b mv I.
Proof.
  unfold init_default_at, fill_events_at.
  destruct (defaults_ b !!! I); simpl; [|by rewrite app_nil_r].
  apply fill_loop_trace.
Qed.

Lemma init_default_at_mv b I mv w :
  (init_default_at Ts b I (mv, w)).1
  = match defaults_ b !!! I with
    | Some _ => set_size I (caps_ b !!! I) mv
    | None => mv
    end.
Proof. unfold init_default_at. by destruct (defaults_ b !!! I). Qed.

(** [init_defaults]: the bookkeeping and the trace. *)
Lemma init_defaults_spec b mv1 w1 :
  length (sizes_ mv1) = N Ts →
  let st := init_defaults Ts b (mv1, w1) in
  data_ptrs_ st.1 = data_ptrs_ mv1 ∧ capacities_ st.1 = capacities_ mv1 ∧
  block_ st.1 = block_ mv1 ∧ block_size_ st.1 = block_size_ mv1 ∧
  length (sizes_ st.1) = N Ts ∧
  (∀ i, (i < N Ts)%nat →
     sizes_ st.1 !!! i
     = match defaults_ b !!! i with
       | Some _ => caps_ b !!! i
       | None => sizes_ mv1 !!! i
       end) ∧
  trace st.2 = trace w1 ++ concat (fill_events_at Ts b mv1 <$> seq 0 (N Ts)).
Proof.
  intros Hs st. unfold st, init_defaults.
  pose (P := (λ (k : nat) (st : multi_vector * world val),
    data_ptrs_ st.1 = data_ptrs_ mv1 ∧ capacities_ st.1 = capacities_ mv1 ∧
    block_ st.1 = block_ mv1 ∧ block_size_ st.1 = block_size_ mv1 ∧
    length (sizes_ st.1) = N Ts ∧
    (∀ i, (i < N Ts)%nat →
       sizes_ st.1 !!! i
       = if decide (i < k)%nat then
           match defaults_ b !!! i return Z with
           | Some _ => caps_ b !!! i
           | None => sizes_ mv1 !!! i
           end
         else sizes_ mv1 !!! i) ∧
    trace st.2 = trace w1 ++ concat (fill_events_at Ts b mv1 <$> seq 0 k))).
  apply (for_loop_inv P); unfold P; clear P.
  - simpl. rewrite app_nil_r. split_and!; try done.
  - intros k [mv w] Hk (Hd & Hc & Hb & Hbs & Hl & Hsz & Htr).
    cbn [fst snd] in *.
    rewrite init_default_at_trace, init_default_at_mv, Htr.
    rewrite seq_S, fmap_app, concat_app. simpl.
    rewrite app_nil_r, <- app_assoc, (fill_events_at_data b mv mv1) by done.
    destruct (defaults_ b !!! k) eqn:Hdef; simpl;
      rewrite ?length_insert; (split_and!; try done);
      intros i Hi; specialize (Hsz i Hi).
    + destruct (decide (i = k)) as [->|Hne].
      * rewrite list_lookup_total_insert_eq, Hdef by lia.
        by rewrite decide_True by lia.
      * rewrite list_lookup_total_insert_ne, Hsz by done.
        destruct (decide (i < k)%nat), (decide (i < S k)%nat); (done || lia).
    + rewrite Hsz.
      destruct (decide (i < k)%nat), (decide (i < S k)%nat); try (done || lia).
      assert (i = k) as -> by lia. by rewrite Hdef.
  - intros s (? & ? & ? & ? & ? & Hsz & ?). split_and!; try done.
    intros i Hi. rewrite (Hsz i Hi). by rewrite decide_True.
Qed.
End BuildProofs.


Section BuildSpec.
Context {val : Type}.
Variable Ts : list cpp_type.
Implicit Types (mv : multi_vector) (w : world val) (v : val) (b : builder val).

(** What [build] returns when [::operator new] answers a non-null block. *)
Lemma build_spec b block w :
  well_typed_builder Ts b → block ≠ 0 →
  ∃ mv w',
    build Ts b (Allocated block) w = (Ok mv, w') ∧
    block_ mv = block ∧
    block_size_ mv = (layout Ts (caps_ b)).2 ∧
    capacities_ mv = caps_ b ∧
    length (data_ptrs_ mv) = N Ts ∧
    (∀ i, (i < N Ts)%nat →
       data_ptrs_ mv !!! i = add_sz block ((layout Ts (caps_ b)).1 !!! i)) ∧
    length (sizes_ mv) = N Ts ∧
    (∀ i, (i < N Ts)%nat →
       sizes_ mv !!! i
       = match defaults_ b !!! i with Some _ => caps_ b !!! i | None => 0 end) ∧
    trace w' = trace w
      ++ EvNew (layout Ts (caps_ b)).2 (block_align_ Ts) block
         :: concat (fill_events_at Ts b mv <$> seq 0 (N Ts)).
Proof.
  intros (Hcl & Hdl & Hcs) Hblock. unfold build.
  destruct (layout Ts (caps_ b)) as [offs off] eqn:Hlay.
  rewrite decide_False by done.
  set (mv0 := set_block block (default_ctor Ts)).
  set (mv1 := for_loop _ _ mv0).
  destruct (build_arrays_loop Ts
              (λ i, add_sz block (offs !!! i)) (λ i, caps_ b !!! i) mv0)
    as (Hs1 & Hb1 & Hbs1 & Hld1 & Hlc1 & Harr);
    [by simpl; rewrite length_replicate..|].
  fold mv1 in Hs1, Hb1, Hbs1, Hld1, Hlc1, Harr.
  set (mv2 := set_block_size off mv1).
  destruct (init_defaults_spec Ts b mv2 (log (EvNew off (block_align_ Ts) block) w))
    as (Hd & Hc & Hb & Hbs & Hls & Hsz & Htr).
  { simpl. rewrite Hs1. simpl. by rewrite length_replicate. }
  destruct (init_defaults Ts b _) as [mv w'] eqn:Hinit. simpl in *.
  exists mv, w'. split; [done|].
  split_and!.
  - by rewrite Hb, Hb1.
  - done.
  - rewrite Hc. apply list_eq. intros i.
    destruct (decide (i < N Ts)%nat).
    + rewrite !list_lookup_lookup_total_lt by lia. f_equal. by apply Harr.
    + rewrite !lookup_ge_None_2; [done|lia..].
  - by rewrite Hd.
  - intros i Hi. rewrite Hd. by apply Harr.
  - done.
  - intros i Hi. rewrite (Hsz i Hi), Hs1. simpl.
    by rewrite lookup_total_replicate_2.
  - rewrite Htr, <- app_assoc. simpl. do 3 f_equal.
    apply list_fmap_ext. intros _ I _. by apply fill_events_at_data.
Qed.

(** [::operator new] never answers null; if it did, [build] would return
    the default-constructed container. *)
Lemma build_null b w :
  build Ts b (Allocated 0) w
  = (Ok (default_ctor Ts),
     log (EvNew (layout Ts (caps_ b)).2 (block_align_ Ts) 0) w).
Proof. unfold build. by destruct (layout Ts (caps_ b)). Qed.

Lemma build_out_of_memory b w :
  build Ts b OutOfMemory w = (Throw bad_alloc, w).
Proof. unfold build. by destruct (layout Ts (caps_ b)). Qed.
End BuildSpec.


(** ** Geometry of the block *)

Section Geometry.
Variable Ts : list cpp_type.
Variable caps : list Z.
Variable block : Z.
Variable mv : multi_vector.
Hypothesis Hwf : Forall wf_type Ts.
Hypothesis Hcaps : Forall is_size_t caps.
Hypothesis Hlen : length caps = N Ts.
Hypothesis Hfits : block_fits Ts caps block.
Hypothesis Hdata : ∀ i, (i < N Ts)%nat →
  data_ptrs_ mv !!! i = add_sz block ((layout Ts caps).1 !!! i).
Hypothesis Hcap : capacities_ mv = caps.

Lemma block_fits_end : exact_end Ts caps (N Ts) < size_t_mod.
Proof. destruct Hfits. lia. Qed.

(** Without wrap-around the address of a slot is linear in its index, and
    the slot lies between the offset of its array and the end of it. *)
Lemma elem_addr_exact I (j : nat) :
  (I < N Ts)%nat → Z.of_nat j < caps !!! I →
  elem_addr Ts mv I j
  = block + exact_offset Ts caps I + Z.of_nat j * type_size (type_at Ts I)
  ∧ elem_addr Ts mv I j + type_size (type_at Ts I)
    <= block + exact_end Ts caps (S I).
Proof.
  intros HI Hj. unfold elem_addr, ptr_add, data_I.
  rewrite Hdata, (layout_offset_exact Ts caps Hwf Hcaps Hlen block_fits_end) by done.
  destruct Hfits as [Hb Hend].
  pose proof (exact_end_step Ts caps Hwf Hcaps Hlen I HI) as [Hlo Hhi].
  pose proof (exact_end_nonneg Ts caps Hwf Hcaps Hlen I ltac:(lia)) as H0.
  pose proof (exact_end_mono Ts caps Hwf Hcaps Hlen (S I) (N Ts)
                ltac:(lia) ltac:(lia)) as Hmono.
  assert (exact_end Ts caps (S I)
          = exact_offset Ts caps I + caps !!! I * type_size (type_at Ts I)) as HS.
  { simpl. unfold exact_offset. by rewrite type_sizes_lookup. }
  destruct (type_at_wf Ts I Hwf HI) as [Hsz _].
  set (s := type_size (type_at Ts I)) in *.
  set (o := exact_offset Ts caps I) in *.
  set (c := caps !!! I) in *.
  assert (0 <= Z.of_nat j * s) by (apply Z.mul_nonneg_nonneg; lia).
  assert ((Z.of_nat j + 1) * s <= c * s)
    by (apply Z.mul_le_mono_nonneg_r; lia).
  unfold add_sz, mul_sz.
  rewrite (wrap_small (block + o)) by (unfold is_size_t; lia).
  rewrite (wrap_small (_ * s)) by (unfold is_size_t; lia).
  rewrite wrap_small by (unfold is_size_t; lia).
  lia.
Qed.

Lemma build_slots_disjoint : slots_disjoint Ts mv.
Proof.
  assert (∀ (I j I' j' : nat), (I < N Ts)%nat → (I' < N Ts)%nat →
    Z.of_nat j < caps !!! I → Z.of_nat j' < caps !!! I' →
    (I < I')%nat ∨ (I = I' ∧ (j < j')%nat) →
    elem_addr Ts mv I j + type_size (type_at Ts I) <= elem_addr Ts mv I' j')
    as Hord.
  { intros I j I' j' HI HI' Hj Hj' Hlt.
    destruct (elem_addr_exact I j HI Hj) as [Ha Hae].
    destruct (elem_addr_exact I' j' HI' Hj') as [Ha' _].
    destruct Hlt as [Hlt|[<- Hlt]].
    - pose proof (exact_end_mono Ts caps Hwf Hcaps Hlen (S I) I'
                    ltac:(lia) ltac:(lia)).
      pose proof (exact_end_step Ts caps Hwf Hcaps Hlen I' HI') as [? _].
      destruct (type_at_wf Ts I' Hwf HI') as [? _].
      assert (0 <= Z.of_nat j' * type_size (type_at Ts I'))
        by (apply Z.mul_nonneg_nonneg; lia).
      lia.
    - destruct (type_at_wf Ts I Hwf HI) as [? _].
      assert ((Z.of_nat j + 1) * type_size (type_at Ts I)
              <= Z.of_nat j' * type_size (type_at Ts I))
        by (apply Z.mul_le_mono_nonneg_r; lia).
      lia. }
  intros I j I' j' HI HI' Hj Hj' Hne. unfold capacity_I in *.
  rewrite Hcap in *.
  destruct (decide (I < I')%nat); [left; apply Hord; auto|].
  destruct (decide (I' < I)%nat); [right; apply Hord; auto|].
  assert (I = I') as <- by lia.
  destruct (decide (j < j')%nat); [left; apply Hord; auto|].
  right; apply Hord; auto. right. split; [done|].
  assert (j ≠ j') by congruence. lia.
Qed.
End Geometry.


(** ** Slots of a well laid out container *)

Section Slots.
Context {val : Type}.
Variable Ts : list cpp_type.
Hypothesis Hwf : Forall wf_type Ts.
Implicit Types (mv : multi_vector) (w : world val) (v d : val) (b : builder val).

Lemma elem_addr_data mv mv' I j :
  data_ptrs_ mv = data_ptrs_ mv' → elem_addr Ts mv I j = elem_addr Ts mv' I j.
Proof. intros H. unfold elem_addr, data_I. by rewrite H. Qed.

Lemma slots_disjoint_data mv mv' :
  data_ptrs_ mv = data_ptrs_ mv' → capacities_ mv = capacities_ mv' →
  slots_disjoint Ts mv → slots_disjoint Ts mv'.
Proof.
  intros Hd Hc Hdis I j I' j' HI HI' Hj Hj' Hne.
  rewrite <- !(elem_addr_data mv mv') by done.
  apply Hdis; try done; unfold capacity_I in *; by rewrite Hc.
Qed.

(** Constructing into one slot leaves every other slot as it was. *)
Lemma load_other_slot mv w v (I j I' j' : nat) :
  slots_disjoint Ts mv → (I < N Ts)%nat → (I' < N Ts)%nat →
  Z.of_nat j < capacity_I I mv → Z.of_nat j' < capacity_I I' mv →
  (I, j) ≠ (I', j') →
  load (placement_new (elem_addr Ts mv I j) (type_at Ts I) v w)
       (elem_addr Ts mv I' j') (type_at Ts I')
  = load w (elem_addr Ts mv I' j') (type_at Ts I').
Proof.
  intros Hdis HI HI' Hj Hj' Hne.
  destruct (type_at_wf Ts I Hwf HI) as [? _].
  destruct (type_at_wf Ts I' Hwf HI') as [? _].
  apply load_placement_new_disjoint; [lia..|].
  destruct (Hdis I j I' j') as [?|?]; auto.
Qed.

(** The fill loop on a well laid out array. *)
Lemma fill_loop_heap mv I d (n : nat) w :
  slots_disjoint Ts mv → (I < N Ts)%nat → Z.of_nat n <= capacity_I I mv →
  let w' :=
    for_loop n
      (λ w j, placement_new (ptr_add (data_ptrs_ mv !!! I) (type_at Ts I) (Z.of_nat j))
                (type_at Ts I) d w) w in
  (∀ j, (j < n)%nat → load w' (elem_addr Ts mv I j) (type_at Ts I) = Some d) ∧
  (∀ I' j', (I' < N Ts)%nat → Z.of_nat j' < capacity_I I' mv → I' ≠ I →
     load w' (elem_addr Ts mv I' j') (type_at Ts I')
     = load w (elem_addr Ts mv I' j') (type_at Ts I')).
Proof.
  intros Hdis HI Hn w'. unfold w'.
  apply (for_loop_inv (λ (k : nat) w',
    (∀ j, (j < k)%nat → load w' (elem_addr Ts mv I j) (type_at Ts I) = Some d) ∧
    (∀ I' j', (I' < N Ts)%nat → Z.of_nat j' < capacity_I I' mv → I' ≠ I →
       load w' (elem_addr Ts mv I' j') (type_at Ts I')
       = load w (elem_addr Ts mv I' j') (type_at Ts I')))).
  - split; [intros; lia|done].
  - intros k wk Hk [Hsame Hother].
    change (ptr_add (data_ptrs_ mv !!! I) (type_at Ts I) (Z.of_nat k))
      with (elem_addr Ts mv I k).
    split.
    + intros j Hj. destruct (decide (j = k)) as [->|Hne].
      * apply load_placement_new_same.
      * rewrite load_other_slot; [apply Hsame; lia|try done; try lia..].
        congruence.
    + intros I' j' HI' Hj' Hne.
      rewrite load_other_slot; [by apply Hother|try done; try lia..].
      congruence.
  - done.
Qed.

(** After [init_defaults] every slot of a type with a default holds a copy
    of the default. *)
Lemma init_defaults_heap b mv1 w1 :
  slots_disjoint Ts mv1 → capacities_ mv1 = caps_ b →
  Forall is_size_t (caps_ b) → length (caps_ b) = N Ts →
  ∀ I d (j : nat), (I < N Ts)%nat → defaults_ b !!! I = Some d →
    Z.of_nat j < caps_ b !!! I →
    load (init_defaults Ts b (mv1, w1)).2 (elem_addr Ts mv1 I j) (type_at Ts I)
    = Some d.
Proof.
  intros Hdis Hcap Hcs Hcl. unfold init_defaults.
  apply (for_loop_inv (λ (k : nat) (st : multi_vector * world val),
    data_ptrs_ st.1 = data_ptrs_ mv1 ∧
    ∀ I d (j : nat), (I < k)%nat → defaults_ b !!! I = Some d →
      Z.of_nat j < caps_ b !!! I →
      load st.2 (elem_addr Ts mv1 I j) (type_at Ts I) = Some d)).
  - split; [done|intros; lia].
  - intros k [mv w] Hk [Hd Hheap]. cbn [fst snd] in *.
    rewrite init_default_at_mv. split.
    { by destruct (defaults_ b !!! k). }
    intros I d j HI Hdef Hj.
    unfold init_default_at.
    destruct (defaults_ b !!! k) as [dk|] eqn:Hdk; cbn [snd].
    + rewrite Hd.
      destruct (fill_loop_heap mv1 k dk (Z.to_nat (caps_ b !!! k)) w Hdis Hk)
        as [Hsame Hother].
      { unfold capacity_I. rewrite Hcap.
        assert (is_size_t (caps_ b !!! k))
          by (apply (Forall_lookup_total is_size_t (caps_ b)); [done|lia]).
        unfold is_size_t in *. lia. }
      destruct (decide (I = k)) as [->|Hne].
      * assert (d = dk) as -> by congruence. apply Hsame. lia.
      * rewrite Hother; [apply Hheap; [lia|done..]|lia| |done].
        unfold capacity_I. by rewrite Hcap.
    + destruct (decide (I = k)) as [->|Hne]; [congruence|].
      apply Hheap; [lia|done..].
  - intros s [_ Hheap] I d j HI. by apply Hheap.
Qed.
End Slots.


(** ** [push_back] *)

Section PushBack.
Context {val : Type}.
Variable Ts : list cpp_type.
Implicit Types (mv : multi_vector) (w : world val) (v d : val) (b : builder val).

Lemma lookup_size_t (l : list Z) i :
  Forall is_size_t l → (i < length l)%nat → is_size_t (l !!! i).
Proof. intros Hl Hi. by apply (Forall_lookup_total is_size_t l). Qed.

Lemma push_back_I_throw idx v mv w :
  size_I idx mv >= capacity_I idx mv →
  push_back_I Ts idx v mv w = (Throw length_error, (mv, w)).
Proof. intros H. unfold push_back_I. by rewrite decide_True. Qed.

Lemma push_back_I_ok idx v mv w :
  well_typed Ts mv → (idx < N Ts)%nat →
  size_I idx mv < capacity_I idx mv →
  push_back_I Ts idx v mv w
  = (Ok (),
     (set_size idx (size_I idx mv + 1) mv,
      placement_new (elem_addr Ts mv idx (Z.to_nat (size_I idx mv)))
                    (type_at Ts idx) v w)).
Proof.
  intros (_ & Hls & Hlc & _ & Hs & Hc) Hidx Hlt.
  unfold push_back_I. rewrite decide_False by lia.
  pose proof (lookup_size_t (sizes_ mv) idx Hs ltac:(lia)) as Hsz.
  pose proof (lookup_size_t (capacities_ mv) idx Hc ltac:(lia)) as Hcz.
  unfold size_I, capacity_I, elem_addr, is_size_t in *.
  rewrite Z2Nat.id by lia.
  unfold add_sz at 1. rewrite wrap_small by (unfold is_size_t; lia). done.
Qed.

Lemma set_size_well_typed idx n mv :
  well_typed Ts mv → is_size_t n → well_typed Ts (set_size idx n mv).
Proof.
  intros (? & ? & ? & ? & ? & ?) Hn. unfold well_typed. simpl.
  rewrite length_insert. split_and!; try done. by apply Forall_insert.
Qed.

(** The outcome of [push_back<idx>] on a container that satisfies the
    invariant. *)
Lemma push_back_I_cases idx v mv w :
  well_typed Ts mv → size_le_capacity Ts mv → (idx < N Ts)%nat →
  (size_I idx mv = capacity_I idx mv ∧
   push_back_I Ts idx v mv w = (Throw length_error, (mv, w)))
  ∨ (size_I idx mv < capacity_I idx mv ∧
     push_back_I Ts idx v mv w
     = (Ok (),
        (set_size idx (size_I idx mv + 1) mv,
         placement_new (elem_addr Ts mv idx (Z.to_nat (size_I idx mv)))
                       (type_at Ts idx) v w))).
Proof.
  intros Hwt Hinv Hidx. specialize (Hinv idx Hidx).
  destruct (decide (size_I idx mv = capacity_I idx mv)) as [Heq|Hne].
  - left. split; [done|]. apply push_back_I_throw. lia.
  - right. split; [lia|]. apply push_back_I_ok; [done..|lia].
Qed.

Lemma push_back_I_preserves idx v mv w r mv' w' :
  well_typed Ts mv → size_le_capacity Ts mv → (idx < N Ts)%nat →
  push_back_I Ts idx v mv w = (r, (mv', w')) →
  well_typed Ts mv' ∧ size_le_capacity Ts mv' ∧
  data_ptrs_ mv' = data_ptrs_ mv ∧ capacities_ mv' = capacities_ mv ∧
  block_ mv' = block_ mv ∧ block_size_ mv' = block_size_ mv.
Proof.
  intros Hwt Hinv Hidx Hpush.
  destruct (push_back_I_cases idx v mv w Hwt Hinv Hidx) as [[_ H]|[Hlt H]];
    rewrite H in Hpush; simplify_eq; [done|].
  destruct Hwt as (Hld & Hls & Hlc & Hd & Hs & Hc).
  pose proof (lookup_size_t (sizes_ mv) idx Hs ltac:(lia)) as Hsz.
  pose proof (lookup_size_t (capacities_ mv) idx Hc ltac:(lia)) as Hcz.
  unfold size_I, capacity_I, is_size_t in *.
  split_and!; try done.
  - apply set_size_well_typed; [done|]. unfold is_size_t. lia.
  - intros i Hi. unfold size_I, capacity_I. simpl.
    destruct (decide (i = idx)) as [->|Hne].
    + rewrite list_lookup_total_insert_eq by lia. lia.
    + rewrite list_lookup_total_insert_ne by done. by apply Hinv.
Qed.

(** *** Reading back what was pushed *)

Hypothesis Hwf : Forall wf_type Ts.

Lemma read_array_push idx v mv w I :
  well_typed Ts mv → size_le_capacity Ts mv → slots_disjoint Ts mv →
  (idx < N Ts)%nat → (I < N Ts)%nat →
  size_I idx mv < capacity_I idx mv →
  read_array Ts (set_size idx (size_I idx mv + 1) mv)
    (placement_new (elem_addr Ts mv idx (Z.to_nat (size_I idx mv)))
                   (type_at Ts idx) v w) I
  = read_array Ts mv w I ++ (if decide (I = idx) then [Some v] else []).
Proof.
  intros Hwt Hinv Hdis Hidx HI Hlt.
  destruct Hwt as (Hld & Hls & Hlc & Hd & Hs & Hc).
  pose proof (lookup_size_t (sizes_ mv) idx Hs ltac:(lia)) as Hsz.
  pose proof (lookup_size_t (sizes_ mv) I Hs ltac:(lia)) as HszI.
  pose proof (Hinv I HI) as HleI.
  unfold read_array.
  assert (∀ j : nat, Z.of_nat j < size_I I mv → (I, j) ≠ (idx, Z.to_nat (size_I idx mv)) →
    load (placement_new (elem_addr Ts mv idx (Z.to_nat (size_I idx mv)))
                        (type_at Ts idx) v w)
         (elem_addr Ts (set_size idx (size_I idx mv + 1) mv) I j) (type_at Ts I)
    = load w (elem_addr Ts mv I j) (type_at Ts I)) as Hold.
  { intros j Hj Hne.
    rewrite (elem_addr_data Ts (set_size _ _ mv) mv) by done.
    apply load_other_slot; try done;
      first [congruence | unfold size_I, capacity_I, is_size_t in *; lia]. }
  unfold size_I, is_size_t in *.
  destruct (decide (I = idx)) as [->|Hne]; simpl.
  - rewrite list_lookup_total_insert_eq by lia.
    replace (Z.to_nat (sizes_ mv !!! idx + 1))
      with (S (Z.to_nat (sizes_ mv !!! idx))) by lia.
    rewrite seq_S, fmap_app. simpl. f_equal.
    + apply list_fmap_ext. intros i j [-> Hj]%lookup_seq.
      simpl. apply Hold; [lia|]. intros [=]. lia.
    + rewrite (elem_addr_data Ts (set_size _ _ mv) mv) by done.
      by rewrite load_placement_new_same.
  - rewrite list_lookup_total_insert_ne by done. rewrite app_nil_r.
    apply list_fmap_ext. intros i j [-> Hj]%lookup_seq.
    simpl. apply Hold; [lia|]. congruence.
Qed.

(** A run of successful pushes appends, array by array, what it pushed. *)
Lemma push_all_read ops : ∀ mv w mv' w' (contents : nat → list val),
  well_typed Ts mv → size_le_capacity Ts mv → slots_disjoint Ts mv →
  Forall (λ op : nat * val, (op.1 < N Ts)%nat) ops →
  (∀ I, (I < N Ts)%nat → read_array Ts mv w I = Some <$> contents I) →
  push_all Ts ops mv w = Some (mv', w') →
  ∀ I, (I < N Ts)%nat →
    read_array Ts mv' w' I = Some <$> (contents I ++ pushed ops I).
Proof.
  induction ops as [|[idx v] ops IH];
    intros mv w mv' w' contents Hwt Hinv Hdis Hops Hread Hrun I HI.
  - simpl in Hrun. simplify_eq. unfold pushed. simpl.
    rewrite app_nil_r. by apply Hread.
  - apply Forall_cons in Hops as [Hidx Hops]. simpl in Hidx, Hrun.
    destruct (push_back_I_cases idx v mv w Hwt Hinv Hidx) as [[_ H]|[Hlt H]];
      rewrite H in Hrun; [done|].
    destruct (push_back_I_preserves idx v mv w _ _ _ Hwt Hinv Hidx H)
      as (Hwt' & Hinv' & Hd' & Hc' & _).
    assert (∀ I', (I' < N Ts)%nat →
      read_array Ts (set_size idx (size_I idx mv + 1) mv)
        (placement_new (elem_addr Ts mv idx (Z.to_nat (size_I idx mv)))
                       (type_at Ts idx) v w) I'
      = Some <$> (contents I' ++ if decide (I' = idx) then [v] else []))
      as Hread'.
    { intros I' HI'. rewrite read_array_push, Hread, fmap_app by done.
      f_equal. by destruct (decide (I' = idx)). }
    rewrite (IH _ _ _ _ _ Hwt' Hinv'
               (slots_disjoint_data Ts _ _ (eq_sym Hd') (eq_sym Hc') Hdis)
               Hops Hread' Hrun I HI).
    f_equal. rewrite <- app_assoc. f_equal. unfold pushed.
    rewrite filter_cons. simpl.
    destruct (decide (idx = I)), (decide (I = idx)); (done || congruence).
Qed.
End PushBack.


(** ** Type selectors *)

Lemma index_of_lookup T Us : T ∈ Us → Us !! index_of T Us = Some T.
Proof.
  induction Us as [|U Us IH]; intros Hin; [by apply elem_of_nil in Hin|].
  simpl. destruct (decide (T = U)) as [->|Hne]; [done|].
  apply elem_of_cons in Hin as [?|Hin]; [done|]. by apply IH.
Qed.

(** In a pack of distinct types, the position of [T] is what [index_of]
    computes. *)
Lemma index_of_NoDup T Us i : NoDup Us → Us !! i = Some T → index_of T Us = i.
Proof.
  intros Hnd Hi.
  assert (T ∈ Us) as Hin by (by eapply list_elem_of_lookup_2).
  by apply (NoDup_lookup Us (index_of T Us) i T); [|apply index_of_lookup|].
Qed.

Section Reachable.
Context {val : Type}.
Variable Ts : list cpp_type.
Implicit Types (mv : multi_vector) (w : world val) (v d : val) (b : builder val).

Lemma idx_v_lt T : T ∈ Ts → (idx_v Ts T < N Ts)%nat.
Proof. intros Hin. eapply lookup_lt_Some, index_of_lookup, Hin. Qed.

Lemma type_at_idx_v T : T ∈ Ts → type_at Ts (idx_v Ts T) = T.
Proof.
  intros Hin. unfold type_at, idx_v.
  by rewrite (list_lookup_total_correct _ _ _ (index_of_lookup T Ts Hin)).
Qed.

(** The type-selector form is the index-selector form at [idx_v<T>]. *)
Lemma push_back_T_I T v mv w :
  T ∈ Ts → push_back_T Ts T v mv w = push_back_I Ts (idx_v Ts T) v mv w.
Proof.
  intros Hin. unfold push_back_T, push_back_I.
  unfold size_T, capacity_T, data_T, size_I, capacity_I, data_I.
  by rewrite (type_at_idx_v T Hin).
Qed.

Lemma builder_reachable_well_typed b :
  builder_reachable Ts b → well_typed_builder Ts b.
Proof.
  induction 1 as [|T cap b HT Hcap _ IH|idx cap b Hidx Hcap _ IH
                 |T v b HT _ IH|idx v b Hidx _ IH];
    unfold well_typed_builder in *; simpl.
  - rewrite !length_replicate. split_and!; try done.
    apply Forall_replicate. unfold is_size_t. rewrite size_t_mod_eq. lia.
  - destruct IH as (? & ? & ?). rewrite length_insert.
    split_and!; try done. by apply Forall_insert.
  - destruct IH as (? & ? & ?). rewrite length_insert.
    split_and!; try done. by apply Forall_insert.
  - destruct IH as (? & ? & ?). by rewrite length_insert.
  - destruct IH as (? & ? & ?). by rewrite length_insert.
Qed.

Lemma default_ctor_inv : size_le_capacity Ts (default_ctor Ts).
Proof.
  intros i Hi. unfold size_I, capacity_I, default_ctor. simpl.
  by rewrite !lookup_total_replicate_2.
Qed.

(** What [build] returns is well typed and satisfies the invariant. *)
Lemma build_well_typed b alloc w mv w' :
  well_typed_builder Ts b →
  build Ts b alloc w = (Ok mv, w') →
  well_typed Ts mv ∧ size_le_capacity Ts mv.
Proof.
  intros Hb Hbuild. destruct alloc as [block|].
  2:{ by rewrite build_out_of_memory in Hbuild. }
  destruct (decide (block = 0)) as [->|Hne].
  { rewrite build_null in Hbuild. simplify_eq.
    split; [apply default_ctor_well_typed|apply default_ctor_inv]. }
  destruct (build_spec Ts b block w Hb Hne)
    as (mv1 & w1 & Heq & _ & _ & Hcap & Hld & Hdata & Hls & Hsz & _).
  rewrite Heq in Hbuild. simplify_eq.
  destruct Hb as (Hcl & _ & Hcs).
  split.
  - unfold well_typed. rewrite Hcap. split_and!; try done.
    + apply (Forall_lookup_total is_size_t (data_ptrs_ mv)). intros i Hi.
      rewrite Hdata by lia.
      apply wrap_range.
    + apply (Forall_lookup_total is_size_t (sizes_ mv)). intros i Hi.
      rewrite Hsz by lia.
      destruct (defaults_ b !!! i).
      * apply lookup_size_t; [done|lia].
      * unfold is_size_t. rewrite size_t_mod_eq. lia.
  - intros i Hi. unfold size_I, capacity_I. rewrite Hsz, Hcap by done.
    pose proof (lookup_size_t (caps_ b) i Hcs ltac:(lia)) as Hc.
    unfold is_size_t in Hc. destruct (defaults_ b !!! i); lia.
Qed.

Lemma reachable_good mv :
  reachable (val := val) Ts mv → well_typed Ts mv ∧ size_le_capacity Ts mv.
Proof.
  induction 1 as [|b alloc w mv w' Hb Hbuild
                 |T v mv w r mv' w' HT _ [IH1 IH2] Hpush
                 |idx v mv w r mv' w' Hidx _ [IH1 IH2] Hpush
                 |mv _ [IH1 IH2]|mv _ [IH1 IH2]].
  - split; [apply default_ctor_well_typed|apply default_ctor_inv].
  - eapply build_well_typed; [|done]. by apply builder_reachable_well_typed.
  - rewrite push_back_T_I in Hpush by done.
    destruct (push_back_I_preserves Ts _ _ _ _ _ _ _ IH1 IH2
                (idx_v_lt T HT) Hpush) as (? & ? & _). done.
  - destruct (push_back_I_preserves Ts _ _ _ _ _ _ _ IH1 IH2 Hidx Hpush)
      as (? & ? & _). done.
  - by rewrite move_ctor_spec.
  - rewrite move_ctor_spec by done.
    split; [apply default_ctor_well_typed|apply default_ctor_inv].
Qed.

(** ** Teardown *)





Lemma destructor_no_block mv w : block_ mv = 0 → destructor Ts mv w = w.
Proof. intros H. unfold destructor. by rewrite decide_True. Qed.
End Reachable.


(** ** Counting events *)

Section Counting.
Context {val : Type}.
Implicit Types (f : event val → bool) (evs : list (event val)).

Lemma count_events_app f evs1 evs2 :
  count_events f (evs1 ++ evs2) = (count_events f evs1 + count_events f evs2)%nat.
Proof. unfold count_events. by rewrite filter_app, length_app. Qed.

Lemma count_events_cons f e evs :
  count_events f (e :: evs)
  = ((if f e then 1 else 0) + count_events f evs)%nat.
Proof.
  unfold count_events. rewrite filter_cons.
  destruct (f e); [by rewrite decide_True|by rewrite decide_False].
Qed.

Lemma count_events_concat {A} f (g : A → list (event val)) (l : list A) :
  count_events f (concat (g <$> l)) = sum_list ((λ x, count_events f (g x)) <$> l).
Proof.
  induction l as [|x l IH]; [done|].
  rewrite !fmap_cons. cbn [concat]. by rewrite count_events_app, IH.
Qed.

Lemma count_events_fmap_const {A} f (g : A → event val) (l : list A) (c : bool) :
  (∀ x, f (g x) = c) →
  count_events f (g <$> l) = if c then length l else 0%nat.
Proof.
  intros Hg. induction l as [|x l IH]; [by destruct c|].
  rewrite fmap_cons, count_events_cons, IH, Hg. by destruct c.
Qed.

End Counting.

Section Family.
Context {val : Type}.
Variable Ts : list cpp_type.
Implicit Types (mv : multi_vector) (w : world val) (v d : val) (b : builder val).


Lemma live_tracked_default : live_tracked Ts (default_ctor Ts) = 0%nat.
Proof.
  unfold live_tracked.
  assert (∀ l : list nat, Forall (λ I, (I < N Ts)%nat) l →
    sum_list ((λ I, if trivially_destructible (type_at Ts I) then 0%nat
                    else Z.to_nat (size_I I (default_ctor Ts))) <$> l) = 0%nat)
    as H.
  { intros l Hl. induction Hl as [|I l HI _ IH]; [done|].
    rewrite fmap_cons. cbn [sum_list_with id]. rewrite IH.
    unfold size_I, default_ctor. cbn [sizes_].
    rewrite lookup_total_replicate_2 by done.
    by destruct (trivially_destructible _). }
  apply H. apply Forall_forall. intros I HI%elem_of_seq. lia.
Qed.

End Family.


Lemma sum_list_fmap_ext {A} (f g : A → nat) (l : list A) :
  (∀ x, x ∈ l → f x = g x) → sum_list (f <$> l) = sum_list (g <$> l).
Proof.
  induction l as [|x l IH]; intros H; [done|].
  rewrite !fmap_cons. cbn [sum_list_with id].
  rewrite H by apply list_elem_of_here.
  rewrite IH; [done|]. intros y Hy. apply H. by apply list_elem_of_further.
Qed.

Lemma sum_list_fmap_zero {A} (f : A → nat) (l : list A) :
  (∀ x, x ∈ l → f x = 0%nat) → sum_list (f <$> l) = 0%nat.
Proof.
  intros H. rewrite (sum_list_fmap_ext f (λ _, 0%nat)) by done.
  clear H. induction l as [|x l IH]; [done|].
  rewrite fmap_cons. cbn [sum_list_with id]. by rewrite IH.
Qed.

Section FamilyInv.
Context {val : Type}.
Variable Ts : list cpp_type.
Implicit Types (mv : multi_vector) (w : world val) (v d : val) (b : builder val).

Lemma fill_events_count b mv I :
  count_events tracked_construct (fill_events_at Ts b mv I)
  = match defaults_ b !!! I with
    | Some _ =>
        if trivially_destructible (type_at Ts I) then 0%nat
        else Z.to_nat (caps_ b !!! I)
    | None => 0%nat
    end
  ∧ count_events tracked_destroy (fill_events_at Ts b mv I) = 0%nat
  ∧ count_events is_delete (fill_events_at Ts b mv I) = 0%nat.
Proof.
  unfold fill_events_at. destruct (defaults_ b !!! I) as [d|]; [|done].
  rewrite (count_events_fmap_const tracked_destroy _ _ false) by done.
  rewrite (count_events_fmap_const is_delete _ _ false) by done.
  split; [|done].
  destruct (trivially_destructible (type_at Ts I)) eqn:Htriv.
  - by rewrite (count_events_fmap_const tracked_construct _ _ false)
      by (intros; unfold tracked_construct; simpl; by rewrite Htriv).
  - rewrite (count_events_fmap_const tracked_construct _ _ true)
      by (intros; unfold tracked_construct; simpl; by rewrite Htriv).
    by rewrite length_seq.
Qed.

(** [build] starts a family. *)
Lemma family_inv_build b block w0 mv w1 :
  well_typed_builder Ts b →
  build Ts b (Allocated block) w0 = (Ok mv, w1) →
  family_inv Ts block (trace w0) ([mv], w1).
Proof.
  intros Hb Hbuild.
  destruct (build_well_typed Ts b _ w0 mv w1 Hb Hbuild) as [Hwt Hinv].
  destruct (decide (block = 0)) as [->|Hne].
  { rewrite build_null in Hbuild. simplify_eq.
    exists 0%nat, (default_ctor Ts), [EvNew (layout Ts (caps_ b)).2 (block_align_ Ts) 0].
    split_and!; try done.
    - intros [|k'] mv' Hk' Hl; [done|]. by simpl in Hl.
    - by rewrite live_tracked_default. }
  destruct (build_spec Ts b block w0 Hb Hne)
    as (mv1 & w1' & Heq & Hblk & _ & Hcap & Hld & Hdata & Hls & Hsz & Htr).
  rewrite Heq in Hbuild. simplify_eq.
  eexists 0%nat, mv, _. split_and!; try done.
  - intros [|k'] mv' Hk' Hl; [done|]. by simpl in Hl.
  - rewrite count_events_cons, count_events_concat. simpl.
    unfold live_tracked. apply sum_list_fmap_ext.
    intros I HI%elem_of_seq.
    destruct (fill_events_count b mv I) as (-> & _ & _).
    unfold size_I. rewrite Hsz by lia.
    by destruct (defaults_ b !!! I), (trivially_destructible _).
  - rewrite count_events_cons, count_events_concat. simpl.
    apply sum_list_fmap_zero. intros I _.
    by destruct (fill_events_count b mv I) as (_ & -> & _).
  - rewrite count_events_cons, count_events_concat. simpl.
    apply sum_list_fmap_zero. intros I _.
    by destruct (fill_events_count b mv I) as (_ & _ & ->).
Qed.

Lemma live_tracked_push idx mv :
  (idx < N Ts)%nat → length (sizes_ mv) = N Ts → 0 <= size_I idx mv →
  live_tracked Ts (set_size idx (size_I idx mv + 1) mv)
  = (live_tracked Ts mv
     + if trivially_destructible (type_at Ts idx) then 0 else 1)%nat.
Proof.
  intros Hidx Hlen Hsz. unfold live_tracked.
  assert (∀ (l : list nat), NoDup l →
    sum_list ((λ I, if trivially_destructible (type_at Ts I) then 0%nat
                    else Z.to_nat (size_I I (set_size idx (size_I idx mv + 1) mv)))
              <$> l)
    = (sum_list ((λ I, if trivially_destructible (type_at Ts I) then 0%nat
                       else Z.to_nat (size_I I mv)) <$> l)
       + if decide (idx ∈ l) then
           if trivially_destructible (type_at Ts idx) then 0 else 1
         else 0)%nat) as H.
  { induction 1 as [|I l Hnin Hnd IH]; [done|].
    rewrite !fmap_cons. cbn [sum_list_with id]. rewrite IH.
    unfold size_I at 1. simpl sizes_.
    destruct (decide (I = idx)) as [->|Hne].
    - rewrite list_lookup_total_insert_eq by lia.
      rewrite (decide_False (P := idx ∈ l)) by done.
      rewrite (decide_True (P := idx ∈ idx :: l)) by apply list_elem_of_here.
      destruct (trivially_destructible _); lia.
    - rewrite list_lookup_total_insert_ne by done. fold (size_I I mv).
      destruct (decide (idx ∈ l)).
      + rewrite (decide_True (P := idx ∈ I :: l))
          by (by apply list_elem_of_further). lia.
      + rewrite (decide_False (P := idx ∈ I :: l)); [lia|].
        intros [?|?]%elem_of_cons; done. }
  rewrite (H _ (NoDup_seq 0 (N Ts))).
  rewrite decide_True; [done|]. apply elem_of_seq. lia.
Qed.
End FamilyInv.



Section FamilySteps.
Context {val : Type}.
Variable Ts : list cpp_type.
Implicit Types (mv : multi_vector) (w : world val) (v d : val) (b : builder val).

Lemma push_back_I_default idx v w :
  (idx < N Ts)%nat →
  push_back_I Ts idx v (default_ctor Ts) w
  = (Throw length_error, (default_ctor Ts, w)).
Proof.
  intros Hidx. apply push_back_I_throw.
  unfold size_I, capacity_I, default_ctor. simpl.
  rewrite !lookup_total_replicate_2 by done. lia.
Qed.

Lemma family_inv_step blk (evs0 : list (event val)) c c' :
  family_inv Ts blk evs0 c → family_step Ts c c' → family_inv Ts blk evs0 c'.
Proof.
  intros (k & owner & evs & Hk & Hothers & Hwt & Hinv & Hblk & Hnull
          & Htr & Hc & Hd & Hdel) Hstep.
  destruct Hstep as [k0 idx v cs w mv r mv' w' Hk0 Hidx Hpush|k0 cs w mv Hk0];
    simpl in *.
  - (* push_back *)
    assert (mv' = mv ∧ w' = w ∨
            k0 = k ∧ size_I idx owner < capacity_I idx owner ∧
            mv' = set_size idx (size_I idx owner + 1) owner ∧
            w' = placement_new (elem_addr Ts owner idx (Z.to_nat (size_I idx owner)))
                               (type_at Ts idx) v w) as [[-> ->]|(-> & Hlt & -> & ->)].
    { destruct (decide (k0 = k)) as [->|Hne].
      - assert (mv = owner) as -> by congruence.
        destruct (push_back_I_cases Ts idx v owner w Hwt Hinv Hidx)
          as [[_ H]|[Hlt H]]; rewrite H in Hpush; simplify_eq; auto.
      - rewrite (Hothers k0 mv Hne Hk0), push_back_I_default in Hpush by done.
        rewrite (Hothers k0 mv Hne Hk0). simplify_eq. auto. }
    + rewrite list_insert_id by done.
      exists k, owner, evs. cbn [fst snd]. split_and!; done.
    + destruct (push_back_I_preserves Ts idx v owner w _ _ _ Hwt Hinv Hidx
                  (push_back_I_ok Ts idx v owner w Hwt Hidx Hlt))
        as (Hwt' & Hinv' & _ & _ & Hb' & _).
      exists k, (set_size idx (size_I idx owner + 1) owner),
        (evs ++ [EvConstruct (type_at Ts idx)
                   (elem_addr Ts owner idx (Z.to_nat (size_I idx owner))) v]).
      cbn [fst snd]. split_and!; try done.
      * apply list_lookup_insert_eq. by eapply lookup_lt_Some.
      * intros k' mv' Hne. rewrite list_lookup_insert_ne by done.
        by apply Hothers.
      * intros ->. rewrite Hnull in Hlt by done.
        unfold size_I, capacity_I, default_ctor in Hlt. simpl in Hlt.
        rewrite !lookup_total_replicate_2 in Hlt by done. lia.
      * simpl. by rewrite Htr, <- app_assoc.
      * destruct Hwt as (_ & Hls & _ & _ & Hs & _).
        pose proof (lookup_size_t (sizes_ owner) idx Hs ltac:(lia)) as Hsz.
        rewrite count_events_app, count_events_cons, Hc.
        rewrite live_tracked_push; [|done|done|apply Hsz].
        unfold tracked_construct, count_events. simpl.
        destruct (trivially_destructible _); simpl; lia.
      * rewrite count_events_app, count_events_cons, Hd.
        unfold count_events. simpl. lia.
      * rewrite count_events_app, count_events_cons, Hdel.
        unfold count_events. simpl. lia.
  - (* move construction *)
    pose proof (lookup_lt_Some _ _ _ Hk) as Hklt.
    pose proof (lookup_lt_Some _ _ _ Hk0) as Hk0lt.
    destruct (decide (k0 = k)) as [->|Hne].
    + assert (mv = owner) as -> by congruence.
      rewrite move_ctor_spec by done. simpl.
      exists (length cs), owner, evs. cbn [fst snd]. split_and!; try done.
      * rewrite lookup_app_r; rewrite length_insert; [|lia].
        by rewrite Nat.sub_diag.
      * intros k' mv' Hk' Hl.
        apply lookup_app_Some in Hl as [Hl|[Hge Hl]].
        -- destruct (decide (k' = k)) as [->|Hne'].
           ++ rewrite list_lookup_insert_eq in Hl by done. congruence.
           ++ rewrite list_lookup_insert_ne in Hl by done.
              by apply (Hothers k').
        -- rewrite length_insert in Hge, Hl.
           apply list_lookup_singleton_Some in Hl as [? _]. lia.
    + rewrite (Hothers k0 mv Hne Hk0).
      rewrite move_ctor_spec by apply default_ctor_well_typed. simpl.
      exists k, owner, evs. cbn [fst snd]. split_and!; try done.
      * rewrite lookup_app_l by (rewrite length_insert; lia).
        by rewrite list_lookup_insert_ne.
      * intros k' mv' Hk' Hl.
        apply lookup_app_Some in Hl as [Hl|[Hge Hl]].
        -- destruct (decide (k' = k0)) as [->|Hne'].
           ++ rewrite list_lookup_insert_eq in Hl by done. congruence.
           ++ rewrite list_lookup_insert_ne in Hl by done.
              by apply (Hothers k').
        -- apply list_lookup_singleton_Some in Hl as [_ ?]. done.
Qed.

Lemma family_inv_steps blk (evs0 : list (event val)) c c' :
  family_inv Ts blk evs0 c → family_steps Ts c c' → family_inv Ts blk evs0 c'.
Proof.
  intros Hinv Hsteps. induction Hsteps as [|c1 c2 c3 _ IH Hstep]; [done|].
  eapply family_inv_step; [|done]. by apply IH.
Qed.

End FamilySteps.


(** ** The alignment of the block *)

Lemma foldl_max_ge (l : list Z) a :
  a <= foldl Z.max a l ∧ ∀ x, x ∈ l → x <= foldl Z.max a l.
Proof.
  revert a. induction l as [|y l IH]; intros a; simpl.
  - split; [lia|]. intros x Hx. by apply elem_of_nil in Hx.
  - destruct (IH (Z.max a y)) as [H1 H2]. split; [lia|].
    intros x [->|Hx]%elem_of_cons; [lia|by apply H2].
Qed.

Lemma foldl_max_in (l : list Z) a :
  foldl Z.max a l = a ∨ foldl Z.max a l ∈ l.
Proof.
  revert a. induction l as [|y l IH]; intros a; simpl; [by left|].
  destruct (IH (Z.max a y)) as [H|H].
  - rewrite H. destruct (Z.max_spec a y) as [[_ ->]|[_ ->]].
    + right. apply list_elem_of_here.
    + by left.
  - right. by apply list_elem_of_further.
Qed.

Lemma max_of_ge (l : list Z) x : x ∈ l → x <= max_of l.
Proof.
  destruct l as [|a l]; [intros H; by apply elem_of_nil in H|].
  simpl. destruct (foldl_max_ge l a) as [H1 H2].
  intros [->|Hx]%elem_of_cons; [done|by apply H2].
Qed.

Lemma max_of_in (l : list Z) : l ≠ [] → max_of l ∈ l.
Proof.
  destruct l as [|a l]; [done|]. intros _. simpl.
  destruct (foldl_max_in l a) as [->|H];
    [apply list_elem_of_here|by apply list_elem_of_further].
Qed.

Section Auxiliary.
Context {val : Type}.
Variable Ts : list cpp_type.
Implicit Types (mv : multi_vector) (w : world val) (v d : val) (b : builder val).

Lemma block_align_ge T : T ∈ Ts → type_align T <= block_align_ Ts.
Proof.
  intros HT. apply max_of_ge. by apply list_elem_of_fmap_2.
Qed.

Lemma block_align_in : Ts ≠ [] → ∃ T, T ∈ Ts ∧ block_align_ Ts = type_align T.
Proof.
  intros Hne. unfold block_align_.
  assert (type_align <$> Ts ≠ []) as H by (by destruct Ts).
  apply max_of_in, list_elem_of_fmap in H as (T & HT & Hin). eauto.
Qed.

(** With every capacity zero the layout is empty. *)
Lemma layout_end_zero caps k :
  (∀ i, (i < N Ts)%nat → caps !!! i = 0) → (k ≤ N Ts)%nat →
  layout_end Ts caps k = 0.
Proof.
  intros Hz. induction k as [|k IH]; intros Hk; [done|].
  simpl. rewrite IH, align_up_0, Hz by lia. done.
Qed.

Lemma layout_zero caps i :
  (∀ i, (i < N Ts)%nat → caps !!! i = 0) → (i < N Ts)%nat →
  (layout Ts caps).1 !!! i = 0.
Proof.
  intros Hz Hi. destruct (layout_loop Ts caps) as (_ & _ & Hoffs).
  rewrite Hoffs, layout_end_zero by (done || lia). apply align_up_0.
Qed.


Lemma default_ctor_lookups i :
  (i < N Ts)%nat →
  size_I i (default_ctor Ts) = 0 ∧ capacity_I i (default_ctor Ts) = 0
  ∧ data_I i (default_ctor Ts) = 0.
Proof.
  intros Hi. unfold size_I, capacity_I, data_I, default_ctor. simpl.
  by rewrite !lookup_total_replicate_2.
Qed.
End Auxiliary.

(** ** The heap after teardown *)

Lemma filter_nil_Forall {A} (P : A → Prop) `{∀ x, Decision (P x)} (l : list A) :
  filter P l = [] ↔ Forall (λ x, ¬ P x) l.
Proof.
  induction l as [|x l IH]; [by rewrite filter_nil|].
  rewrite filter_cons, Forall_cons. destruct (decide (P x)); [|tauto].
  split; [done|tauto].
Qed.

Section HeapDestroy.
Context {val : Type}.
Implicit Types (w : world val) (v : val) (T : cpp_type).

Lemma load_None w p T :
  load w p T = None ↔ Forall (λ o, ¬ is_at p T o) (heap w).
Proof. unfold load. by rewrite fmap_None, head_None, filter_nil_Forall. Qed.

Lemma load_destroy_at_same w p T : load (destroy_at p T w) p T = None.
Proof.
  apply load_None. simpl. apply Forall_forall.
  by intros o [Ho _]%list_elem_of_filter.
Qed.

(** A destructor call brings no object to life. *)
Lemma load_destroy_at_None w p T p' T' :
  load w p T = None → load (destroy_at p' T' w) p T = None.
Proof.
  rewrite !load_None. simpl. rewrite !Forall_forall.
  intros H o [_ Ho]%list_elem_of_filter. by apply H.
Qed.
End HeapDestroy.

Section TeardownHeap.
Context {val : Type}.
Variable Ts : list cpp_type.
Implicit Types (mv : multi_vector) (w : world val).

Lemma destroy_elements_at_None I mv w p T :
  load w p T = None → load (destroy_elements_at Ts I mv w) p T = None.
Proof.
  intros H. unfold destroy_elements_at.
  destruct (trivially_destructible (type_at Ts I)); [done|].
  apply (for_loop_ind (λ (_ : nat) w', load w' p T = None)); [done|].
  intros k w' _ Hw'. by apply load_destroy_at_None.
Qed.

Lemma destroy_elements_at_heap I mv w (j : nat) :
  trivially_destructible (type_at Ts I) = false →
  (j < Z.to_nat (size_I I mv))%nat →
  load (destroy_elements_at Ts I mv w) (elem_addr Ts mv I j) (type_at Ts I) = None.
Proof.
  intros Htriv Hj. unfold destroy_elements_at. rewrite Htriv.
  revert j Hj.
  apply (for_loop_ind (λ (k : nat) w',
    ∀ j, (j < k)%nat → load w' (elem_addr Ts mv I j) (type_at Ts I) = None)).
  - intros; lia.
  - intros k w' _ Hprev j Hj. destruct (decide (j = k)) as [->|Hne].
    + apply load_destroy_at_same.
    + apply load_destroy_at_None, Hprev. lia.
Qed.

End TeardownHeap.

(** ** Outcomes of [push_back] and of [build] *)

Section PushBackOutcome.
Context {val : Type}.
Variable Ts : list cpp_type.

Lemma push_back_I_outcome idx (v : val) mv w :
  well_typed Ts mv → size_le_capacity Ts mv → (idx < N Ts)%nat →
  push_back_outcome Ts idx (type_at Ts idx) v mv w (push_back_I Ts idx v mv w).
Proof.
  intros Hwt Hinv Hidx.
  destruct (push_back_I_cases Ts idx v mv w Hwt Hinv Hidx) as [[Heq H]|[Hlt H]];
    rewrite H; [by left|right]. split; [done|].
  destruct Hwt as (Hld & Hls & Hlc & Hd & Hs & Hc).
  pose proof (lookup_size_t (sizes_ mv) idx Hs ltac:(lia)) as Hsz.
  eexists _, _. split; [done|]. unfold size_I, is_size_t in *. simpl.
  split_and!; try done.
  - by rewrite list_lookup_total_insert_eq by lia.
  - intros i' Hi' Hne. by rewrite list_lookup_total_insert_ne.
  - unfold elem_addr, data_I. rewrite Z2Nat.id by lia.
    apply load_placement_new_same.
  - unfold elem_addr, data_I. by rewrite Z2Nat.id by lia.
Qed.
End PushBackOutcome.

Section BuildHeap.
Context {val : Type}.
Variable Ts : list cpp_type.
Hypothesis Hwf : Forall wf_type Ts.
Implicit Types (mv : multi_vector) (w : world val) (v d : val) (b : builder val).

(** On a layout that fits its block, the container [build] returns has
    disjoint slots, and every slot of a type with a default holds a copy of
    the default. *)
Lemma build_heap b block w mv w' :
  well_typed_builder Ts b → block_fits Ts (caps_ b) block →
  build Ts b (Allocated block) w = (Ok mv, w') →
  slots_disjoint Ts mv ∧
  ∀ I d (j : nat), (I < N Ts)%nat → defaults_ b !!! I = Some d →
    Z.of_nat j < caps_ b !!! I →
    load w' (elem_addr Ts mv I j) (type_at Ts I) = Some d.
Proof.
  intros (Hcl & Hdl & Hcs) Hfits. unfold build.
  destruct (layout Ts (caps_ b)) as [offs off] eqn:Hlay.
  destruct Hfits as [Hpos Hend].
  rewrite decide_False by lia.
  set (mv0 := set_block block (default_ctor Ts)).
  set (mv1 := for_loop _ _ mv0).
  destruct (build_arrays_loop Ts
              (λ i, add_sz block (offs !!! i)) (λ i, caps_ b !!! i) mv0)
    as (Hs1 & Hb1 & Hbs1 & Hld1 & Hlc1 & Harr);
    [by simpl; rewrite length_replicate..|].
  fold mv1 in Hs1, Hb1, Hbs1, Hld1, Hlc1, Harr.
  set (mv2 := set_block_size off mv1).
  set (w1 := log (EvNew off (block_align_ Ts) block) w).
  assert (capacities_ mv2 = caps_ b) as Hcap2.
  { apply list_eq. intros i. simpl.
    destruct (decide (i < N Ts)%nat).
    - rewrite !list_lookup_lookup_total_lt by lia. f_equal. by apply Harr.
    - rewrite !lookup_ge_None_2; [done|lia..]. }
  assert (slots_disjoint Ts mv2) as Hdis.
  { apply (build_slots_disjoint Ts (caps_ b) block mv2 Hwf Hcs Hcl);
      [done| |done].
    intros i Hi. rewrite Hlay. simpl. by apply Harr. }
  destruct (init_defaults_spec Ts b mv2 w1) as (Hd & Hc & _).
  { simpl. rewrite Hs1. simpl. by rewrite length_replicate. }
  pose proof (init_defaults_heap Ts Hwf b mv2 w1 Hdis Hcap2 Hcs Hcl) as Hheap.
  destruct (init_defaults Ts b (mv2, w1)) as [mv3 w3]. simpl in *.
  intros [= <- <-]. split.
  - by apply (slots_disjoint_data Ts mv2).
  - intros I d j HI Hdef Hj.
    rewrite (elem_addr_data Ts mv3 mv2) by done. by apply Hheap.
Qed.

(** Reading back a freshly built container gives, type by type, the copies
    of the default. *)
Lemma build_read_default b block w mv w' :
  well_typed_builder Ts b → block_fits Ts (caps_ b) block →
  build Ts b (Allocated block) w = (Ok mv, w') →
  ∀ I, (I < N Ts)%nat → read_array Ts mv w' I = Some <$> default_fill b I.
Proof.
  intros Hb Hfits Heq I HI.
  destruct (build_heap b block w mv w' Hb Hfits Heq) as [_ Hheap].
  assert (block ≠ 0) as Hne by (destruct Hfits; lia).
  destruct (build_spec Ts b block w Hb Hne)
    as (mv1 & w1 & Heq1 & _ & _ & _ & _ & _ & _ & Hsz & _).
  rewrite Heq in Heq1. simplify_eq.
  unfold read_array, default_fill, size_I. rewrite Hsz by done.
  destruct (defaults_ b !!! I) as [d|] eqn:Hdef; [|done].
  apply list_eq. intros j.
  rewrite !list_lookup_fmap.
  destruct (decide (j < Z.to_nat (caps_ b !!! I))%nat) as [Hj|Hj].
  - rewrite lookup_seq_lt, lookup_replicate_2 by done. simpl.
    f_equal. apply Hheap; [done..|lia].
  - rewrite lookup_seq_ge by lia.
    by rewrite (proj1 (lookup_replicate_None _ d j)) by lia.
Qed.
End BuildHeap.

Section DataPointers.
Context {val : Type}.
Variable Ts : list cpp_type.
Implicit Types (mv : multi_vector) (w : world val) (v d : val) (b : builder val).

(** The base pointers of a built container on a layout that fits its block
    and does not end the address space: block plus exact offset, not null. *)
Lemma build_data_exact b block w mv w' i :
  Forall wf_type Ts → well_typed_builder Ts b →
  block_fits Ts (caps_ b) block →
  block + exact_end Ts (caps_ b) (N Ts) < size_t_mod →
  build Ts b (Allocated block) w = (Ok mv, w') → (i < N Ts)%nat →
  data_I i mv = block + exact_offset Ts (caps_ b) i ∧ data_I i mv ≠ 0.
Proof.
  intros Hwf Hb [Hpos Hfits] Hlt Heq Hi.
  destruct (build_spec Ts b block w Hb ltac:(lia))
    as (mv1 & w1 & Heq1 & _ & _ & _ & _ & Hdata & _).
  rewrite Heq in Heq1. simplify_eq.
  destruct Hb as (Hcl & _ & Hcs).
  unfold data_I. rewrite Hdata by done.
  rewrite (layout_offset_exact Ts (caps_ b) Hwf Hcs Hcl) by (done || lia).
  pose proof (exact_end_step Ts (caps_ b) Hwf Hcs Hcl i Hi) as [Hlo Hhi].
  pose proof (exact_end_nonneg Ts (caps_ b) Hwf Hcs Hcl i ltac:(lia)).
  pose proof (exact_end_mono Ts (caps_ b) Hwf Hcs Hcl (S i) (N Ts)
                ltac:(lia) ltac:(lia)).
  unfold add_sz. rewrite wrap_small by (unfold is_size_t; lia). lia.
Qed.

(** Built with capacity 0 for every type, every base pointer is the block
    and every [push_back] throws. *)
Lemma build_all_zero b block w mv w' i :
  well_typed_builder Ts b → is_size_t block → block ≠ 0 →
  (∀ i, (i < N Ts)%nat → caps_ b !!! i = 0) →
  build Ts b (Allocated block) w = (Ok mv, w') → (i < N Ts)%nat →
  data_I i mv = block ∧ size_I i mv = 0 ∧ capacity_I i mv = 0 ∧
  ∀ v w'', push_back_I Ts i v mv w'' = (Throw length_error, (mv, w'')).
Proof.
  intros Hb Hblock Hne Hz Heq Hi.
  destruct (build_spec Ts b block w Hb Hne)
    as (mv1 & w1 & Heq1 & _ & _ & Hcap & _ & Hdata & _ & Hsz & _).
  rewrite Heq1 in Heq. injection Heq as -> ->.
  assert (size_I i mv = 0) as Hs.
  { unfold size_I. rewrite Hsz, Hz by done. by destruct (defaults_ b !!! i). }
  assert (capacity_I i mv = 0) as Hc.
  { unfold capacity_I. by rewrite Hcap, Hz. }
  split_and!; try done.
  - unfold data_I. rewrite Hdata, layout_zero by done.
    unfold add_sz. rewrite Z.add_0_r. by apply wrap_small.
  - intros v w''. apply push_back_I_throw. lia.
Qed.
End DataPointers.

(** ** Liveness in a family on a layout that fits *)



Section LiveFamily.
Context {val : Type}.
Variable Ts : list cpp_type.
Hypothesis Hwf : Forall wf_type Ts.
Implicit Types (mv : multi_vector) (w : world val) (v d : val) (b : builder val).







End LiveFamily.

Section TeardownOwner.
Context {val : Type}.
Variable Ts : list cpp_type.
Implicit Types (mv : multi_vector) (w : world val).


End TeardownOwner.

Section DestroyEvents.
Context {val : Type}.
Variable Ts : list cpp_type.


End DestroyEvents.

(** * The claims *)

(** C1.  On a container made through the interface, [push_back], by type and
    by index, throws [std::length_error] exactly when the size of the slot
    equals its capacity, and then changes nothing; otherwise it returns,
    having copy-constructed the value at [data + size] and incremented that
    one size by one. *)
Theorem C1_push_back {val : Type} (Ts : list cpp_type) (T : cpp_type) (idx : nat)
    (value : val) (mv : multi_vector) (w : world val) :
  reachable (val := val) Ts mv → T ∈ Ts → (idx < N Ts)%nat →
  push_back_outcome Ts (idx_v Ts T) T value mv w (push_back_T Ts T value mv w)
  ∧ push_back_outcome Ts idx (type_at Ts idx) value mv w
      (push_back_I Ts idx value mv w).
Proof.
  intros Hr HT Hidx. destruct (reachable_good Ts mv Hr) as [Hwt Hinv]. split.
  - rewrite push_back_T_I by done.
    rewrite <- (type_at_idx_v Ts T HT) at 2.
    apply push_back_I_outcome; [done..|by apply idx_v_lt].
  - by apply push_back_I_outcome.
Qed.

Lemma C1_push_back_witness :
  reachable (val := value) MV test_mv ∧ t_int ∈ MV ∧ (0 < N MV)%nat ∧
  push_back_outcome MV (idx_v MV t_int) t_int (Int 10) test_mv test_w
    (push_back_T MV t_int (Int 10) test_mv test_w)
  ∧ push_back_outcome MV 0 (type_at MV 0) (Int 10) test_mv test_w
      (push_back_I MV 0 (Int 10) test_mv test_w).
Proof.
  assert (reachable (val := value) MV test_mv) as Hr.
  { apply (reach_build MV test_builder (Allocated 4096) w0 test_mv test_w);
      [|reflexivity].
    repeat first [apply br_ctor | apply br_capacity_T]; by_compute. }
  assert (t_int ∈ MV) as HT by by_compute.
  assert (0 < N MV)%nat as Hidx by by_compute.
  refine (conj Hr (conj HT (conj Hidx _))).
  exact (C1_push_back MV t_int 0 (Int 10) test_mv test_w Hr HT Hidx).
Defined.

(** C2, amended.  [build] returns a container in which the size of every
    type is its capacity if a default was recorded and 0 otherwise; with a
    non-null block the capacities are the requested ones and the default
    fill is one copy construction per slot, types in declared order and
    indices increasing.  When the layout fits the block without wrap-around,
    reading back the slots of each type gives the copies of its default. *)
Theorem C2_build_default_fill {val : Type} (Ts : list cpp_type)
    (b : builder val) (block : Z) (w : world val) :
  well_typed_builder Ts b →
  ∃ mv w',
    build Ts b (Allocated block) w = (Ok mv, w') ∧
    (∀ I, (I < N Ts)%nat →
       size_I I mv
       = match defaults_ b !!! I with Some _ => capacity_I I mv | None => 0 end) ∧
    (block ≠ 0 →
       (∀ I, (I < N Ts)%nat → capacity_I I mv = caps_ b !!! I) ∧
       trace w' = trace w
         ++ EvNew (layout Ts (caps_ b)).2 (block_align_ Ts) block
            :: concat (fill_events_at Ts b mv <$> seq 0 (N Ts))) ∧
    (Forall wf_type Ts → block_fits Ts (caps_ b) block →
       ∀ I, (I < N Ts)%nat → read_array Ts mv w' I = Some <$> default_fill b I).
Proof.
  intros Hb. destruct (decide (block = 0)) as [->|Hne].
  - eexists _, _. split; [apply build_null|]. split_and!.
    + intros I HI. destruct (default_ctor_lookups Ts I HI) as (-> & -> & _).
      by destruct (defaults_ b !!! I).
    + done.
    + intros _ [? _]. lia.
  - destruct (build_spec Ts b block w Hb Hne)
      as (mv & w' & Heq & _ & _ & Hcap & _ & _ & _ & Hsz & Htr).
    exists mv, w'. split; [done|]. split_and!.
    + intros I HI. unfold size_I, capacity_I. by rewrite Hsz, Hcap.
    + intros _. split; [|done]. intros I HI. unfold capacity_I. by rewrite Hcap.
    + intros Hwf Hfits. by apply (build_read_default Ts Hwf b block w).
Qed.

Lemma C2_build_default_fill_witness :
  well_typed_builder MV default_builder ∧
  Forall wf_type MV ∧
  block_fits MV (caps_ default_builder) 4096 ∧
  ∃ mv w',
    build MV default_builder (Allocated 4096) w0 = (Ok mv, w') ∧
    (∀ I, (I < N MV)%nat →
       size_I I mv
       = match defaults_ default_builder !!! I with
         | Some _ => capacity_I I mv
         | None => 0
         end) ∧
    ((∀ I, (I < N MV)%nat → capacity_I I mv = caps_ default_builder !!! I) ∧
     trace w' = trace w0
       ++ EvNew (layout MV (caps_ default_builder)).2 (block_align_ MV) 4096
          :: concat (fill_events_at MV default_builder mv <$> seq 0 (N MV))) ∧
    (∀ I, (I < N MV)%nat →
       read_array MV mv w' I = Some <$> default_fill default_builder I).
Proof.
  assert (well_typed_builder MV default_builder) as Hb by by_compute.
  assert (Forall wf_type MV) as Hwf by by_compute.
  assert (block_fits MV (caps_ default_builder) 4096) as Hfits by by_compute.
  assert (4096 ≠ 0) as Hne by lia.
  refine (conj Hb (conj Hwf (conj Hfits _))).
  destruct (C2_build_default_fill MV default_builder 4096 w0 Hb)
    as (mv & w' & Heq & Hsz & Htr & Hread).
  exists mv, w'.
  exact (conj Heq (conj Hsz (conj (Htr Hne) (Hread Hwf Hfits)))).
Defined.

(** C2 as stated fails when the layout wraps around: with capacities
    2, 2^64 - 8, 2 for [int, char, float] the block has 8 bytes, the [int]
    and the [float] array both start at the block, and after [build] the
    two [int] slots no longer hold the recorded default 42. *)
Lemma C2_counterexample :
  well_typed_builder OV wrap_builder ∧
  Forall wf_type OV ∧
  ¬ block_fits OV (caps_ wrap_builder) 4096 ∧
  defaults_ wrap_builder !!! 0%nat = Some (Int 42) ∧
  (build OV wrap_builder (Allocated 4096) w0).1 = Ok wrap_filled_mv ∧
  size_I 0 wrap_filled_mv = 2 ∧ capacity_I 0 wrap_filled_mv = 2 ∧
  default_fill wrap_builder 0 = [Int 42; Int 42] ∧
  read_array OV wrap_filled_mv (build OV wrap_builder (Allocated 4096) w0).2 0
  = [None; None].
Proof.
  split; [by_compute|]. split; [by_compute|]. split; [by_compute|].
  by vm_compute.
Qed.

(** C3.  Move construction hands every member of the source over to the new
    container unchanged (block address and size, and the size, capacity and
    base pointer of every type), touches no element, and leaves the source
    as a default-constructed container: null block, and size 0, capacity 0
    and null base pointer for every type. *)
Theorem C3_move_transfer {val : Type} (Ts : list cpp_type) (src : multi_vector) :
  well_typed Ts src →
  let dst := (move_ctor Ts src).1 in
  let src' := (move_ctor Ts src).2 in
  dst = src ∧
  (∀ (w : world val) i, read_array Ts dst w i = read_array Ts src w i) ∧
  src' = default_ctor Ts ∧
  block_ src' = 0 ∧ block_size_ src' = 0 ∧
  ∀ i, (i < N Ts)%nat →
    size_I i src' = 0 ∧ capacity_I i src' = 0 ∧ data_I i src' = 0.
Proof.
  intros Hwt. rewrite move_ctor_spec by done. simpl.
  split_and!; try done. apply default_ctor_lookups.
Qed.

Lemma C3_move_transfer_witness :
  well_typed MV pushed_mv ∧
  (move_ctor MV pushed_mv).1 = pushed_mv ∧
  (∀ (w : world value) i,
     read_array MV (move_ctor MV pushed_mv).1 w i = read_array MV pushed_mv w i) ∧
  (move_ctor MV pushed_mv).2 = default_ctor MV ∧
  block_ (move_ctor MV pushed_mv).2 = 0 ∧
  block_size_ (move_ctor MV pushed_mv).2 = 0 ∧
  ∀ i, (i < N MV)%nat →
    size_I i (move_ctor MV pushed_mv).2 = 0
    ∧ capacity_I i (move_ctor MV pushed_mv).2 = 0
    ∧ data_I i (move_ctor MV pushed_mv).2 = 0.
Proof.
  assert (well_typed MV pushed_mv) as Hwt by by_compute.
  split; [exact Hwt|].
  exact (C3_move_transfer (val := value) MV pushed_mv Hwt).
Defined.




(** C5, amended.  The layout loop of [build], in [size_t] arithmetic: the first
    offset is 0 (aligned for any type), every later offset is [align_up] of
    the previous offset plus the previous capacity times the previous
    [sizeof], and the size of the block is the last offset plus the last
    array.  [build] asks [::operator new] for that size with the largest
    [alignof] of the pack.  When the layout does not wrap around, each
    offset is the exact rounding up of the previous end to a multiple of the
    alignment of its type. *)
Theorem C5_layout {val : Type} (Ts : list cpp_type) (caps : list Z) :
  (0 < N Ts)%nat →
  let offsets := (layout Ts caps).1 in
  (offsets !!! 0%nat = 0 ∧ (type_align (type_at Ts 0) | offsets !!! 0%nat)) ∧
  (∀ i, (0 < i < N Ts)%nat →
     offsets !!! i
     = align_up
         (add_sz (offsets !!! (i - 1)%nat)
                 (mul_sz (caps !!! (i - 1)%nat) (type_size (type_at Ts (i - 1)))))
         (type_align (type_at Ts i))) ∧
  (layout Ts caps).2
  = add_sz (offsets !!! (N Ts - 1)%nat)
           (mul_sz (caps !!! (N Ts - 1)%nat) (type_size (type_at Ts (N Ts - 1)))) ∧
  (∀ (b : builder val) block (w : world val),
     well_typed_builder Ts b →
     ∃ mv w' rest,
       build Ts b (Allocated block) w = (Ok mv, w') ∧
       trace w'
       = trace w ++ EvNew (layout Ts (caps_ b)).2 (block_align_ Ts) block :: rest) ∧
  (∀ T, T ∈ Ts → type_align T <= block_align_ Ts) ∧
  (∃ T, T ∈ Ts ∧ block_align_ Ts = type_align T) ∧
  (Forall wf_type Ts → Forall is_size_t caps → length caps = N Ts →
   exact_end Ts caps (N Ts) < size_t_mod →
   ∀ i, (i < N Ts)%nat →
     (type_align (type_at Ts i) | offsets !!! i) ∧
     ((0 < i)%nat →
      offsets !!! i
      = round_up
          (offsets !!! (i - 1)%nat
           + caps !!! (i - 1)%nat * type_size (type_at Ts (i - 1)))
          (type_align (type_at Ts i)))).
Proof.
  intros HN offsets. unfold offsets.
  destruct (layout_loop Ts caps) as (Hoff & Hlen & Hoffs).
  assert (∀ k, (k < N Ts)%nat →
    layout_end Ts caps (S k)
    = add_sz ((layout Ts caps).1 !!! k)
             (mul_sz (caps !!! k) (type_size (type_at Ts k)))) as Hend.
  { intros k Hk. simpl. by rewrite Hoffs, type_sizes_lookup. }
  split_and!.
  - rewrite Hoffs by done. apply align_up_0.
  - rewrite Hoffs by done. simpl. rewrite align_up_0. apply Z.divide_0_r.
  - intros i Hi. rewrite Hoffs by lia.
    replace i with (S (i - 1)) at 1 by lia.
    rewrite Hend, type_aligns_lookup by lia. done.
  - rewrite Hoff. replace (N Ts) with (S (N Ts - 1)) at 1 by lia.
    apply Hend. lia.
  - intros b block w Hb. destruct (decide (block = 0)) as [->|Hne].
    + eexists _, _, []. split; [apply build_null|done].
    + destruct (build_spec Ts b block w Hb Hne)
        as (mv & w' & Heq & _ & _ & _ & _ & _ & _ & _ & Htr).
      by eexists mv, w', _.
  - apply block_align_ge.
  - apply block_align_in. intros ->. simpl in HN. lia.
  - intros Hwf Hcaps Hcl Hfits i Hi.
    rewrite (layout_offset_exact Ts caps Hwf Hcaps Hcl Hfits) by done.
    split.
    + unfold exact_offset. rewrite type_aligns_lookup by done.
      apply round_up_divide.
    + intros Hpos.
      rewrite (layout_offset_exact Ts caps Hwf Hcaps Hcl Hfits) by lia.
      unfold exact_offset at 1. replace i with (S (i - 1)) at 1 by lia.
      simpl. unfold exact_offset.
      rewrite !type_aligns_lookup, type_sizes_lookup by lia. done.
Qed.

Lemma C5_layout_witness :
  (0 < N MV)%nat ∧
  Forall wf_type MV ∧ Forall is_size_t [3; 2; 4] ∧ length [3; 2; 4] = N MV ∧
  exact_end MV [3; 2; 4] (N MV) < size_t_mod ∧
  (layout MV [3; 2; 4]).1 = [0; 16; 32] ∧ (layout MV [3; 2; 4]).2 = 160 ∧
  block_align_ MV = 8 ∧
  ((layout MV [3; 2; 4]).1 !!! 0%nat = 0
   ∧ (type_align (type_at MV 0) | (layout MV [3; 2; 4]).1 !!! 0%nat)) ∧
  (∀ i, (0 < i < N MV)%nat →
     (layout MV [3; 2; 4]).1 !!! i
     = align_up
         (add_sz ((layout MV [3; 2; 4]).1 !!! (i - 1)%nat)
                 (mul_sz ([3; 2; 4] !!! (i - 1)%nat)
                         (type_size (type_at MV (i - 1)))))
         (type_align (type_at MV i))) ∧
  (∀ i, (i < N MV)%nat →
     (type_align (type_at MV i) | (layout MV [3; 2; 4]).1 !!! i) ∧
     ((0 < i)%nat →
      (layout MV [3; 2; 4]).1 !!! i
      = round_up
          ((layout MV [3; 2; 4]).1 !!! (i - 1)%nat
           + [3; 2; 4] !!! (i - 1)%nat * type_size (type_at MV (i - 1)))
          (type_align (type_at MV i)))).
Proof.
  assert (0 < N MV)%nat as HN by by_compute.
  assert (Forall wf_type MV) as Hwf by by_compute.
  assert (Forall is_size_t [3; 2; 4]) as Hcaps by by_compute.
  assert (length [3; 2; 4] = N MV) as Hlen by reflexivity.
  assert (exact_end MV [3; 2; 4] (N MV) < size_t_mod) as Hfits by by_compute.
  destruct (C5_layout (val := value) MV [3; 2; 4] HN)
    as (H0 & Hrec & _ & _ & _ & _ & Hexact).
  refine (conj HN (conj Hwf (conj Hcaps (conj Hlen (conj Hfits
            (conj eq_refl (conj eq_refl (conj eq_refl (conj H0 (conj Hrec _)))))))))).
  exact (Hexact Hwf Hcaps Hlen Hfits).
Defined.

(** C5 as stated fails when the layout wraps around: for [int, char, float]
    with capacities 2, 2^64 - 8, 2 the loop computes the offsets 0, 8, 0,
    but the end of the [char] array, 8 + (2^64 - 8), rounded up to the
    alignment 4 of [float] is 2^64, not the offset 0 of the [float] array. *)
Lemma C5_counterexample :
  Forall wf_type OV ∧ Forall is_size_t [2; 2 ^ 64 - 8; 2] ∧
  length [2; 2 ^ 64 - 8; 2] = N OV ∧
  layout OV [2; 2 ^ 64 - 8; 2] = ([0; 8; 0], 8) ∧
  round_up
    ((layout OV [2; 2 ^ 64 - 8; 2]).1 !!! 1%nat
     + [2; 2 ^ 64 - 8; 2] !!! 1%nat * type_size (type_at OV 1))
    (type_align (type_at OV 2))
  = 2 ^ 64 ∧
  (layout OV [2; 2 ^ 64 - 8; 2]).1 !!! 2%nat = 0 ∧
  (layout OV [2; 2 ^ 64 - 8; 2]).1 !!! 2%nat
  ≠ round_up
      ((layout OV [2; 2 ^ 64 - 8; 2]).1 !!! 1%nat
       + [2; 2 ^ 64 - 8; 2] !!! 1%nat * type_size (type_at OV 1))
      (type_align (type_at OV 2)).
Proof.
  split; [by_compute|]. split; [by_compute|]. by vm_compute.
Qed.

(** C6, amended.  [data] returns the recorded base pointer of the type's
    array, by type as by index.  It is null in an empty container (default
    constructed, or moved from).  In a built container it is the block plus
    the offset of the type's array, whatever the capacity of the type, and
    not null when the layout fits; with capacity 0 for every type it is the
    address of the block itself, sizes and capacities are 0 and every
    [push_back] throws. *)
Theorem C6_data {val : Type} (Ts : list cpp_type) :
  (∀ T mv, data_T Ts T mv = data_I (idx_v Ts T) mv) ∧
  (∀ i, (i < N Ts)%nat → data_I i (default_ctor Ts) = 0) ∧
  (∀ src i, well_typed Ts src → (i < N Ts)%nat →
     data_I i (move_ctor Ts src).2 = 0) ∧
  (∀ (b : builder val) block (w : world val),
     well_typed_builder Ts b → block ≠ 0 →
     ∃ mv w',
       build Ts b (Allocated block) w = (Ok mv, w') ∧
       ∀ i, (i < N Ts)%nat →
         data_I i mv = add_sz block ((layout Ts (caps_ b)).1 !!! i) ∧
         (Forall wf_type Ts → block_fits Ts (caps_ b) block →
          block + exact_end Ts (caps_ b) (N Ts) < size_t_mod →
          data_I i mv = block + exact_offset Ts (caps_ b) i ∧ data_I i mv ≠ 0) ∧
         (is_size_t block → (∀ i, (i < N Ts)%nat → caps_ b !!! i = 0) →
          data_I i mv = block ∧ size_I i mv = 0 ∧ capacity_I i mv = 0 ∧
          ∀ (v : val) w'',
            push_back_I Ts i v mv w'' = (Throw length_error, (mv, w'')))).
Proof.
  split_and!.
  - done.
  - intros i Hi. by destruct (default_ctor_lookups Ts i Hi) as (_ & _ & ->).
  - intros src i Hwt Hi. rewrite move_ctor_spec by done. simpl.
    by destruct (default_ctor_lookups Ts i Hi) as (_ & _ & ->).
  - intros b block w Hb Hne.
    destruct (build_spec Ts b block w Hb Hne)
      as (mv & w' & Heq & _ & _ & _ & _ & Hdata & _).
    exists mv, w'. split; [done|]. intros i Hi. split_and!.
    + unfold data_I. by apply Hdata.
    + intros Hwf Hfits Hlt. by apply (build_data_exact Ts b block w mv w').
    + intros Hblock Hz. by apply (build_all_zero Ts b block w mv w').
Qed.

Lemma C6_data_witness :
  well_typed_builder MV tight_builder ∧ 4096 ≠ 0 ∧ Forall wf_type MV ∧
  block_fits MV (caps_ tight_builder) 4096 ∧
  4096 + exact_end MV (caps_ tight_builder) (N MV) < size_t_mod ∧
  (∃ mv w',
     build MV tight_builder (Allocated 4096) w0 = (Ok mv, w') ∧
     ∀ i, (i < N MV)%nat →
       data_I i mv = add_sz 4096 ((layout MV (caps_ tight_builder)).1 !!! i) ∧
       data_I i mv = 4096 + exact_offset MV (caps_ tight_builder) i ∧
       data_I i mv ≠ 0) ∧
  well_typed_builder MV (builder_ctor (val := value) MV) ∧ is_size_t 4096 ∧
  (∀ i, (i < N MV)%nat → caps_ (builder_ctor (val := value) MV) !!! i = 0) ∧
  (∃ mv w',
     build MV (builder_ctor MV) (Allocated 4096) w0 = (Ok mv, w') ∧
     ∀ i, (i < N MV)%nat →
       data_I i mv = 4096 ∧ size_I i mv = 0 ∧ capacity_I i mv = 0 ∧
       ∀ (v : value) w'',
         push_back_I MV i v mv w'' = (Throw length_error, (mv, w''))).
Proof.
  assert (well_typed_builder MV tight_builder) as Hb by by_compute.
  assert (4096 ≠ 0) as Hne by lia.
  assert (Forall wf_type MV) as Hwf by by_compute.
  assert (block_fits MV (caps_ tight_builder) 4096) as Hfits by by_compute.
  assert (4096 + exact_end MV (caps_ tight_builder) (N MV) < size_t_mod) as Hlt
    by by_compute.
  assert (well_typed_builder MV (builder_ctor (val := value) MV)) as Hb0
    by by_compute.
  assert (is_size_t 4096) as Hblock by by_compute.
  assert (∀ i, (i < N MV)%nat → caps_ (builder_ctor (val := value) MV) !!! i = 0)
    as Hz.
  { intros [|[|[|i]]] Hi; try reflexivity. unfold N, MV in Hi. simpl in Hi. lia. }
  destruct (C6_data (val := value) MV) as (_ & _ & _ & Hbuild).
  refine (conj Hb (conj Hne (conj Hwf (conj Hfits (conj Hlt
            (conj _ (conj Hb0 (conj Hblock (conj Hz _))))))))).
  - destruct (Hbuild tight_builder 4096 w0 Hb Hne) as (mv & w' & Heq & Hdata).
    exists mv, w'. split; [exact Heq|].
    intros i Hi. destruct (Hdata i Hi) as (H1 & H2 & _).
    exact (conj H1 (H2 Hwf Hfits Hlt)).
  - destruct (Hbuild (builder_ctor MV) 4096 w0 Hb0 Hne) as (mv & w' & Heq & Hdata).
    exists mv, w'. split; [exact Heq|].
    intros i Hi. destruct (Hdata i Hi) as (_ & _ & H3).
    exact (H3 Hblock Hz).
Defined.

(** C6 as stated fails for a type of capacity 0 in a container that has a
    block: in [CapacityExceededThrows] the capacity of [double] is 0, and
    [data<double>()] is the block plus 8. *)
Lemma C6_counterexample :
  well_typed_builder MV tight_builder ∧
  build MV tight_builder (Allocated 4096) w0
  = (Ok tight_mv, World [] [EvNew 40 8 4096]) ∧
  capacity_T MV t_double tight_mv = 0 ∧
  data_T MV t_double tight_mv = 4104 ∧
  data_T MV t_double tight_mv ≠ 0.
Proof. split; [by_compute|]. by vm_compute. Qed.

(** C7.  Every container made through the interface (default construction,
    [build], [push_back] whatever its outcome, both sides of a move)
    satisfies [size[i] <= capacity[i]] for every type. *)
Theorem C7_size_le_capacity {val : Type} (Ts : list cpp_type) (mv : multi_vector) :
  reachable (val := val) Ts mv →
  ∀ i, (i < N Ts)%nat → size_I i mv <= capacity_I i mv.
Proof. intros Hr. by destruct (reachable_good Ts mv Hr) as [_ Hinv]. Qed.

Lemma C7_size_le_capacity_witness :
  reachable (val := value) MV pushed_mv ∧
  ∀ i, (i < N MV)%nat → size_I i pushed_mv <= capacity_I i pushed_mv.
Proof.
  assert (reachable (val := value) MV test_mv) as Hr0.
  { apply (reach_build MV test_builder (Allocated 4096) w0 test_mv test_w);
      [|reflexivity].
    repeat first [apply br_ctor | apply br_capacity_T]; by_compute. }
  assert (reachable (val := value) MV (set_size 0 1 test_mv)) as Hr1.
  { eapply reach_push_back_T with (T := t_int) (v := Int 10) (mv := test_mv) (w := w0);
      [by_compute|exact Hr0|reflexivity]. }
  assert (reachable (val := value) MV (set_size 0 2 (set_size 0 1 test_mv))) as Hr2.
  { eapply reach_push_back_T with (T := t_int) (v := Int 20) (w := w0);
      [by_compute|exact Hr1|reflexivity]. }
  assert (reachable (val := value) MV
            (set_size 2 1 (set_size 0 2 (set_size 0 1 test_mv)))) as Hr3.
  { eapply reach_push_back_I with (idx := 2%nat) (v := Str "hello") (w := w0);
      [by_compute|exact Hr2|reflexivity]. }
  assert (reachable (val := value) MV pushed_mv) as Hr.
  { eapply reach_push_back_I with (idx := 2%nat) (v := Str "world") (w := w0);
      [by_compute|exact Hr3|reflexivity]. }
  split; [exact Hr|].
  exact (C7_size_le_capacity MV pushed_mv Hr).
Defined.

(** C8.  In a pack of distinct types, for the type [T] at position [i] the
    type-selector and the index-selector form of every operation are the
    same function: the accessors return the same value, [push_back] has the
    same outcome and leaves the same state from any container and world,
    and the builder's setters record the same thing. *)
Theorem C8_selectors_agree {val : Type} (Ts : list cpp_type) (T : cpp_type)
    (i : nat) :
  NoDup Ts → Ts !! i = Some T →
  idx_v Ts T = i ∧ type_at Ts i = T ∧
  (∀ mv, size_T Ts T mv = size_I i mv
         ∧ capacity_T Ts T mv = capacity_I i mv
         ∧ data_T Ts T mv = data_I i mv) ∧
  (∀ (v : val) mv w, push_back_T Ts T v mv w = push_back_I Ts i v mv w) ∧
  (∀ cap (b : builder val),
     builder_capacity_T Ts T cap b = builder_capacity_I i cap b) ∧
  (∀ (v : val) b,
     builder_default_value_T Ts T v b = builder_default_value_I i v b).
Proof.
  intros Hnd Hi.
  assert (idx_v Ts T = i) as Hidx by (by apply index_of_NoDup).
  assert (T ∈ Ts) as HT by (by eapply list_elem_of_lookup_2).
  split_and!; try done.
  - by rewrite <- Hidx, type_at_idx_v.
  - intros mv. unfold size_T, capacity_T, data_T. by rewrite Hidx.
  - intros v mv w. by rewrite push_back_T_I, Hidx.
  - intros cap b. unfold builder_capacity_T. by rewrite Hidx.
  - intros v b. unfold builder_default_value_T. by rewrite Hidx.
Qed.

Lemma C8_selectors_agree_witness :
  NoDup MV ∧ MV !! 2%nat = Some t_string ∧
  idx_v MV t_string = 2%nat ∧ type_at MV 2 = t_string ∧
  (∀ mv, size_T MV t_string mv = size_I 2 mv
         ∧ capacity_T MV t_string mv = capacity_I 2 mv
         ∧ data_T MV t_string mv = data_I 2 mv) ∧
  (∀ (v : value) mv w, push_back_T MV t_string v mv w = push_back_I MV 2 v mv w) ∧
  (∀ cap (b : builder value),
     builder_capacity_T MV t_string cap b = builder_capacity_I 2 cap b) ∧
  (∀ (v : value) b,
     builder_default_value_T MV t_string v b = builder_default_value_I 2 v b).
Proof.
  assert (NoDup MV) as Hnd by by_compute.
  assert (MV !! 2%nat = Some t_string) as Hi by reflexivity.
  refine (conj Hnd (conj Hi _)).
  exact (C8_selectors_agree (val := value) MV t_string 2 Hnd Hi).
Defined.

(** C9, amended.  On a container built on a layout that fits its block
    without wrap-around, after any run of successful [push_back] calls
    across the types, reading the slots below the size of each type gives
    the copies of its default that [build] placed, followed by the values
    pushed for that type, in the order of the calls. *)
Theorem C9_read_back {val : Type} (Ts : list cpp_type) (b : builder val)
    (block : Z) (w : world val) (mv0 : multi_vector) (w1 : world val)
    (ops : list (nat * val)) (mv : multi_vector) (w' : world val) :
  Forall wf_type Ts → well_typed_builder Ts b →
  block_fits Ts (caps_ b) block →
  build Ts b (Allocated block) w = (Ok mv0, w1) →
  Forall (λ op : nat * val, (op.1 < N Ts)%nat) ops →
  push_all Ts ops mv0 w1 = Some (mv, w') →
  ∀ I, (I < N Ts)%nat →
    read_array Ts mv w' I = Some <$> (default_fill b I ++ pushed ops I)
    ∧ Z.to_nat (size_I I mv) = length (default_fill b I ++ pushed ops I).
Proof.
  intros Hwf Hb Hfits Hbuild Hops Hrun I HI.
  destruct (build_well_typed Ts b _ w mv0 w1 Hb Hbuild) as [Hwt Hinv].
  destruct (build_heap Ts Hwf b block w mv0 w1 Hb Hfits Hbuild) as [Hdis _].
  pose proof (push_all_read Ts Hwf ops mv0 w1 mv w' (default_fill b)
                Hwt Hinv Hdis Hops
                (build_read_default Ts Hwf b block w mv0 w1 Hb Hfits Hbuild)
                Hrun I HI) as Hread.
  split; [done|].
  apply (f_equal length) in Hread. unfold read_array in Hread.
  by rewrite !length_fmap, length_seq in Hread.
Qed.

Lemma C9_read_back_witness :
  Forall wf_type MV ∧ well_typed_builder MV test_builder ∧
  block_fits MV (caps_ test_builder) 4096 ∧
  build MV test_builder (Allocated 4096) w0 = (Ok test_mv, test_w) ∧
  Forall (λ op : nat * value, (op.1 < N MV)%nat) test_pushes ∧
  push_all MV test_pushes test_mv test_w = Some (pushed_mv, pushed_w) ∧
  ∀ I, (I < N MV)%nat →
    read_array MV pushed_mv pushed_w I
    = Some <$> (default_fill test_builder I ++ pushed test_pushes I)
    ∧ Z.to_nat (size_I I pushed_mv)
      = length (default_fill test_builder I ++ pushed test_pushes I).
Proof.
  assert (Forall wf_type MV) as Hwf by by_compute.
  assert (well_typed_builder MV test_builder) as Hb by by_compute.
  assert (block_fits MV (caps_ test_builder) 4096) as Hfits by by_compute.
  assert (build MV test_builder (Allocated 4096) w0 = (Ok test_mv, test_w))
    as Hbuild by reflexivity.
  assert (Forall (λ op : nat * value, (op.1 < N MV)%nat) test_pushes) as Hops
    by by_compute.
  assert (push_all MV test_pushes test_mv test_w = Some (pushed_mv, pushed_w))
    as Hrun by reflexivity.
  refine (conj Hwf (conj Hb (conj Hfits (conj Hbuild (conj Hops (conj Hrun _)))))).
  exact (C9_read_back MV test_builder 4096 w0 test_mv test_w test_pushes
           pushed_mv pushed_w Hwf Hb Hfits Hbuild Hops Hrun).
Defined.

(** C9 as stated fails when the layout wraps around: on the container built
    for [int, char, float] with capacities 2, 2^64 - 8, 2, pushing the
    [int] 10 and then the [float] 7 both succeed, and the second
    construction reuses the bytes of the first: the [int] slot 0 no longer
    holds 10. *)
Lemma C9_counterexample :
  well_typed_builder OV wrap_caps ∧
  Forall wf_type OV ∧
  ¬ block_fits OV (caps_ wrap_caps) 4096 ∧
  build OV wrap_caps (Allocated 4096) w0 = (Ok wrap_mv, World [] [EvNew 8 4 4096]) ∧
  push_all OV wrap_pushes wrap_mv (World [] [EvNew 8 4 4096])
  = Some (wrap_pushed_mv, wrap_pushed_w) ∧
  size_I 0 wrap_pushed_mv = 1 ∧
  pushed wrap_pushes 0 = [Int 10] ∧
  read_array OV wrap_pushed_mv wrap_pushed_w 0 = [None].
Proof.
  split; [by_compute|]. split; [by_compute|]. split; [by_compute|].
  by vm_compute.
Qed.

(** C10.  The source of a move stays usable: for every type its size and
    capacity are 0 and its base pointer is null, by index and by type; every
    [push_back] on it throws [std::length_error] and leaves it and the world
    unchanged; its destructor does nothing. *)
Theorem C10_moved_from {val : Type} (Ts : list cpp_type) (src : multi_vector) :
  well_typed Ts src →
  let husk := (move_ctor Ts src).2 in
  (∀ i, (i < N Ts)%nat →
     size_I i husk = 0 ∧ capacity_I i husk = 0 ∧ data_I i husk = 0 ∧
     ∀ (v : val) w, push_back_I Ts i v husk w = (Throw length_error, (husk, w))) ∧
  (∀ T, T ∈ Ts →
     size_T Ts T husk = 0 ∧ capacity_T Ts T husk = 0 ∧ data_T Ts T husk = 0 ∧
     ∀ (v : val) w, push_back_T Ts T v husk w = (Throw length_error, (husk, w))) ∧
  (∀ w : world val, destructor Ts husk w = w).
Proof.
  intros Hwt. rewrite move_ctor_spec by done. simpl. split_and!.
  - intros i Hi. destruct (default_ctor_lookups Ts i Hi) as (-> & -> & ->).
    split_and!; try done. intros v w. by apply push_back_I_default.
  - intros T HT. unfold size_T, capacity_T, data_T.
    destruct (default_ctor_lookups Ts _ (idx_v_lt Ts T HT)) as (Hs & Hc & Hd).
    unfold size_I, capacity_I, data_I in *. rewrite Hs, Hc, Hd.
    split_and!; try done. intros v w.
    rewrite push_back_T_I by done. apply push_back_I_default. by apply idx_v_lt.
  - intros w. by apply destructor_no_block.
Qed.

Lemma C10_moved_from_witness :
  well_typed MV pushed_mv ∧
  (∀ i, (i < N MV)%nat →
     size_I i (move_ctor MV pushed_mv).2 = 0
     ∧ capacity_I i (move_ctor MV pushed_mv).2 = 0
     ∧ data_I i (move_ctor MV pushed_mv).2 = 0
     ∧ ∀ (v : value) w,
         push_back_I MV i v (move_ctor MV pushed_mv).2 w
         = (Throw length_error, ((move_ctor MV pushed_mv).2, w))) ∧
  (∀ T, T ∈ MV →
     size_T MV T (move_ctor MV pushed_mv).2 = 0
     ∧ capacity_T MV T (move_ctor MV pushed_mv).2 = 0
     ∧ data_T MV T (move_ctor MV pushed_mv).2 = 0
     ∧ ∀ (v : value) w,
         push_back_T MV T v (move_ctor MV pushed_mv).2 w
         = (Throw length_error, ((move_ctor MV pushed_mv).2, w))) ∧
  (∀ w : world value, destructor MV (move_ctor MV pushed_mv).2 w = w).
Proof.
  assert (well_typed MV pushed_mv) as Hwt by by_compute.
  split; [exact Hwt|].
  exact (C10_moved_from (val := value) MV pushed_mv Hwt).
Defined.

(** * Further properties of the code *)

(** ** [align_up] and [index_of] *)

Lemma round_up_least v a m : 0 < a → (a | m) → v <= m → round_up v a <= m.
Proof.
  intros Ha [k ->] Hv. unfold round_up.
  apply Z.mul_le_mono_nonneg_r; [lia|].
  apply Z.lt_succ_r, Z.div_lt_upper_bound; lia.
Qed.

Lemma round_up_aligned v a : 0 < a → (a | v) → round_up v a = v.
Proof.
  intros Ha [k ->]. unfold round_up.
  replace (k * a + a - 1) with (a - 1 + k * a) by lia.
  rewrite Z.div_add, Z.div_small by lia. lia.
Qed.

(** X1.  On a power-of-two alignment, and when [value + alignment - 1] does
    not wrap around, [align_up] returns the least multiple of the alignment
    that is not below the value: it moves the value up by less than one
    alignment, leaves an aligned value where it is, and applying it again
    changes nothing. *)
Theorem X1_align_up_rounds (v e : Z) :
  0 <= e < 64 → 0 <= v → v + 2 ^ e - 1 < size_t_mod →
  let r := align_up v (2 ^ e) in
  (2 ^ e | r) ∧ v <= r < v + 2 ^ e ∧
  (∀ m, (2 ^ e | m) → v <= m → r <= m) ∧
  ((2 ^ e | v) → r = v) ∧
  align_up r (2 ^ e) = r.
Proof.
  intros He Hv Hlt r. unfold r.
  assert (0 < 2 ^ e) as Hpos by (apply Z.pow_pos_nonneg; lia).
  rewrite align_up_pow2 by done.
  pose proof (round_up_bounds v (2 ^ e) Hpos) as Hb.
  pose proof (round_up_divide v (2 ^ e)) as Hd.
  split_and!; try done; try lia.
  - intros m Hm Hvm. by apply round_up_least.
  - intros Hv'. by apply round_up_aligned.
  - destruct Hd as [q Hq].
    assert (size_t_mod = 2 ^ (64 - e) * 2 ^ e) as Hmod.
    { unfold size_t_mod. rewrite <- Z.pow_add_r by lia. f_equal. lia. }
    assert (0 < 2 ^ (64 - e)) by (apply Z.pow_pos_nonneg; lia).
    assert (round_up v (2 ^ e) + 2 ^ e - 1 < size_t_mod) as Hlt'.
    { set (a := 2 ^ e) in *. set (M := 2 ^ (64 - e)) in *.
      assert (q < M) by nia.
      assert ((q + 1) * a <= M * a) by nia. lia. }
    rewrite align_up_pow2 by lia.
    apply round_up_aligned; [done|]. by exists q.
Qed.

Lemma X1_align_up_rounds_witness :
  0 <= 3 < 64 ∧ 0 <= 13 ∧ 13 + 2 ^ 3 - 1 < size_t_mod ∧
  align_up 13 (2 ^ 3) = 16 ∧
  (2 ^ 3 | align_up 13 (2 ^ 3)) ∧
  13 <= align_up 13 (2 ^ 3) < 13 + 2 ^ 3 ∧
  (∀ m, (2 ^ 3 | m) → 13 <= m → align_up 13 (2 ^ 3) <= m) ∧
  ((2 ^ 3 | 13) → align_up 13 (2 ^ 3) = 13) ∧
  align_up (align_up 13 (2 ^ 3)) (2 ^ 3) = align_up 13 (2 ^ 3).
Proof.
  assert (0 <= 3 < 64) as He by lia.
  assert (0 <= 13) as Hv by lia.
  assert (13 + 2 ^ 3 - 1 < size_t_mod) as Hlt by by_compute.
  refine (conj He (conj Hv (conj Hlt (conj eq_refl _)))).
  exact (X1_align_up_rounds 13 3 He Hv Hlt).
Defined.

Lemma index_of_first T Us j : (j < index_of T Us)%nat → Us !! j ≠ Some T.
Proof.
  revert j. induction Us as [|U Us IH]; intros j Hj; [simpl in Hj; lia|].
  simpl in Hj. destruct (decide (T = U)) as [->|Hne]; [lia|].
  destruct j as [|j]; simpl; [congruence|]. apply IH. lia.
Qed.

(** X2.  For a type of the pack, [index_of] is the position of its first
    occurrence: the type is there, and at no earlier position.  [type_at]
    undoes [idx_v], and in a pack of distinct types [idx_v] undoes
    [type_at]. *)
Theorem X2_index_of_first_occurrence (Ts : list cpp_type) (T : cpp_type) :
  T ∈ Ts →
  (idx_v Ts T < N Ts)%nat ∧
  Ts !! idx_v Ts T = Some T ∧
  (∀ j, (j < idx_v Ts T)%nat → Ts !! j ≠ Some T) ∧
  type_at Ts (idx_v Ts T) = T ∧
  (NoDup Ts → ∀ i, (i < N Ts)%nat → idx_v Ts (type_at Ts i) = i).
Proof.
  intros HT. split_and!.
  - by apply idx_v_lt.
  - by apply index_of_lookup.
  - intros j. apply index_of_first.
  - by apply type_at_idx_v.
  - intros Hnd i Hi. apply index_of_NoDup; [done|].
    unfold type_at. by apply list_lookup_lookup_total_lt.
Qed.

Lemma X2_index_of_first_occurrence_witness :
  t_int ∈ [t_int; t_double; t_int] ∧
  idx_v [t_int; t_double; t_int] t_int = 0%nat ∧
  (idx_v [t_int; t_double; t_int] t_int < N [t_int; t_double; t_int])%nat ∧
  [t_int; t_double; t_int] !! idx_v [t_int; t_double; t_int] t_int = Some t_int ∧
  (∀ j, (j < idx_v [t_int; t_double; t_int] t_int)%nat →
     [t_int; t_double; t_int] !! j ≠ Some t_int) ∧
  type_at [t_int; t_double; t_int] (idx_v [t_int; t_double; t_int] t_int) = t_int.
Proof.
  assert (t_int ∈ [t_int; t_double; t_int]) as HT by by_compute.
  destruct (X2_index_of_first_occurrence [t_int; t_double; t_int] t_int HT)
    as (H1 & H2 & H3 & H4 & _).
  exact (conj HT (conj eq_refl (conj H1 (conj H2 (conj H3 H4))))).
Defined.

(** ** The builder's calls and the default-constructed container *)

Section ConfigureProofs.
Context {val : Type}.
Variable Ts : list cpp_type.
Implicit Types (b : builder val) (c : builder_call val).

Lemma call_slot_lt c : call_ok Ts c → (call_slot Ts c < N Ts)%nat.
Proof. destruct c; simpl; try tauto; intros; apply idx_v_lt; tauto. Qed.

Lemma run_call_slot b c :
  run_call Ts b c
  = match c with
    | CallCapacity_T _ cap | CallCapacity_I _ cap =>
        builder_capacity_I (call_slot Ts c) cap b
    | CallDefault_T _ v | CallDefault_I _ v =>
        builder_default_value_I (call_slot Ts c) v b
    end.
Proof. by destruct c. Qed.

(** What a chain of calls leaves in the builder. *)
Lemma configure_spec (calls : list (builder_call val)) :
  Forall (call_ok Ts) calls →
  well_typed_builder Ts (configure Ts calls) ∧
  ∀ i, (i < N Ts)%nat →
    caps_ (configure Ts calls) !!! i = last_capacity Ts calls i ∧
    defaults_ (configure Ts calls) !!! i = last_default Ts calls i.
Proof.
  induction calls as [|c calls IH] using rev_ind; intros Hok.
  - split.
    + unfold well_typed_builder, configure. simpl. rewrite !length_replicate.
      split_and!; try done. apply Forall_replicate. by_compute.
    + intros i Hi. unfold configure, last_capacity, last_default. simpl.
      by rewrite !lookup_total_replicate_2.
  - apply Forall_app in Hok as [Hok Hc]. rewrite Forall_singleton in Hc.
    destruct (IH Hok) as ((Hcl & Hdl & Hcs) & Hlook).
    pose proof (call_slot_lt c Hc) as Hslot.
    unfold configure in *. rewrite foldl_snoc, run_call_slot.
    split.
    + destruct c; simpl in *; unfold well_typed_builder; simpl;
        rewrite ?length_insert; split_and!; try done;
        apply Forall_insert; tauto.
    + intros i Hi. destruct (Hlook i Hi) as [Hcap Hdef].
      unfold last_capacity, last_default in *. rewrite !foldl_snoc.
      destruct c; simpl in *; rewrite ?list_lookup_total_insert;
        rewrite <- ?Hcap, <- ?Hdef; split; try done;
        repeat case_decide; try done; exfalso; intuition lia.
Qed.
End ConfigureProofs.

(** X3.  A chain of [capacity] and [default_value] calls on a fresh builder,
    by type or by index in any mix, records for every slot the capacity of
    the last [capacity] call for it (0 without one) and the value of the
    last [default_value] call for it; [build] then gives each type that
    capacity, and that capacity as its size when a default was recorded. *)
Theorem X3_builder_last_call_wins {val : Type} (Ts : list cpp_type)
    (calls : list (builder_call val)) :
  Forall (call_ok Ts) calls →
  well_typed_builder Ts (configure Ts calls) ∧
  (∀ i, (i < N Ts)%nat →
     caps_ (configure Ts calls) !!! i = last_capacity Ts calls i ∧
     defaults_ (configure Ts calls) !!! i = last_default Ts calls i) ∧
  (∀ block (w : world val), block ≠ 0 →
     ∃ mv w',
       build Ts (configure Ts calls) (Allocated block) w = (Ok mv, w') ∧
       ∀ i, (i < N Ts)%nat →
         capacity_I i mv = last_capacity Ts calls i ∧
         size_I i mv
         = match last_default Ts calls i with
           | Some _ => last_capacity Ts calls i
           | None => 0
           end).
Proof.
  intros Hok. destruct (configure_spec Ts calls Hok) as [Hb Hlook].
  split_and!; try done.
  intros block w Hne.
  destruct (build_spec Ts (configure Ts calls) block w Hb Hne)
    as (mv & w' & Heq & _ & _ & Hcap & _ & _ & _ & Hsz & _).
  exists mv, w'. split; [done|]. intros i Hi.
  destruct (Hlook i Hi) as [Hc Hd].
  unfold capacity_I, size_I. by rewrite Hcap, Hsz, Hc, Hd.
Qed.

Lemma X3_builder_last_call_wins_witness :
  Forall (call_ok MV) default_calls ∧
  configure MV default_calls = default_builder ∧
  well_typed_builder MV (configure MV default_calls) ∧
  (∀ i, (i < N MV)%nat →
     caps_ (configure MV default_calls) !!! i = last_capacity MV default_calls i ∧
     defaults_ (configure MV default_calls) !!! i
     = last_default MV default_calls i) ∧
  ∃ mv w',
    build MV (configure MV default_calls) (Allocated 4096) w0 = (Ok mv, w') ∧
    ∀ i, (i < N MV)%nat →
      capacity_I i mv = last_capacity MV default_calls i ∧
      size_I i mv
      = match last_default MV default_calls i with
        | Some _ => last_capacity MV default_calls i
        | None => 0
        end.
Proof.
  assert (Forall (call_ok MV) default_calls) as Hok by by_compute.
  assert (4096 ≠ 0) as Hne by lia.
  destruct (X3_builder_last_call_wins MV default_calls Hok) as (Hb & Hlook & Hbuild).
  exact (conj Hok (conj eq_refl (conj Hb (conj Hlook (Hbuild 4096 w0 Hne))))).
Defined.

(** X4.  A default-constructed container has no storage: for every type the
    size and the capacity are 0 and the base pointer is null, by index and
    by type; every [push_back] throws [std::length_error] and changes
    nothing; its destructor does nothing; and a container move-constructed
    from it is again such a container. *)
Theorem X4_default_constructed {val : Type} (Ts : list cpp_type) :
  (∀ i, (i < N Ts)%nat →
     size_I i (default_ctor Ts) = 0 ∧ capacity_I i (default_ctor Ts) = 0 ∧
     data_I i (default_ctor Ts) = 0 ∧
     ∀ (v : val) w,
       push_back_I Ts i v (default_ctor Ts) w
       = (Throw length_error, (default_ctor Ts, w))) ∧
  (∀ T, T ∈ Ts →
     size_T Ts T (default_ctor Ts) = 0 ∧ capacity_T Ts T (default_ctor Ts) = 0 ∧
     data_T Ts T (default_ctor Ts) = 0 ∧
     ∀ (v : val) w,
       push_back_T Ts T v (default_ctor Ts) w
       = (Throw length_error, (default_ctor Ts, w))) ∧
  (∀ w : world val, destructor Ts (default_ctor Ts) w = w) ∧
  move_ctor Ts (default_ctor Ts) = (default_ctor Ts, default_ctor Ts) ∧
  reachable (val := val) Ts (default_ctor Ts).
Proof.
  split_and!.
  - intros i Hi. destruct (default_ctor_lookups Ts i Hi) as (-> & -> & ->).
    split_and!; try done. intros v w. by apply push_back_I_default.
  - intros T HT. unfold size_T, capacity_T, data_T.
    destruct (default_ctor_lookups Ts _ (idx_v_lt Ts T HT)) as (Hs & Hc & Hd).
    unfold size_I, capacity_I, data_I in *. rewrite Hs, Hc, Hd.
    split_and!; try done. intros v w.
    rewrite push_back_T_I by done. apply push_back_I_default. by apply idx_v_lt.
  - intros w. by apply destructor_no_block.
  - apply move_ctor_spec, default_ctor_well_typed.
  - apply reach_default.
Qed.

Lemma X4_default_constructed_witness :
  (2 < N MV)%nat ∧ t_double ∈ MV ∧
  (size_I 2 (default_ctor MV) = 0 ∧ capacity_I 2 (default_ctor MV) = 0 ∧
   data_I 2 (default_ctor MV) = 0 ∧
   ∀ (v : value) w,
     push_back_I MV 2 v (default_ctor MV) w
     = (Throw length_error, (default_ctor MV, w))) ∧
  (size_T MV t_double (default_ctor MV) = 0 ∧
   capacity_T MV t_double (default_ctor MV) = 0 ∧
   data_T MV t_double (default_ctor MV) = 0 ∧
   ∀ (v : value) w,
     push_back_T MV t_double v (default_ctor MV) w
     = (Throw length_error, (default_ctor MV, w))).
Proof.
  assert (2 < N MV)%nat as Hi by by_compute.
  assert (t_double ∈ MV) as HT by by_compute.
  destruct (X4_default_constructed (val := value) MV) as (HI & HTs & _).
  exact (conj Hi (conj HT (conj (HI 2%nat Hi) (HTs t_double HT)))).
Defined.

(** ** Runs of [push_back] calls, failures included *)

Section PushRuns.
Context {val : Type}.
Variable Ts : list cpp_type.
Implicit Types (mv : multi_vector) (w : world val) (v d : val) (b : builder val).
Implicit Types (ops : list (nat * val)).

Lemma pushed_cons idx v ops I :
  pushed ((idx, v) :: ops) I = (if decide (I = idx) then [v] else []) ++ pushed ops I.
Proof.
  unfold pushed. rewrite filter_cons. simpl.
  destruct (decide (idx = I)), (decide (I = idx)); (done || congruence).
Qed.

Lemma size_I_set_size idx n mv I :
  (idx < length (sizes_ mv))%nat →
  size_I I (set_size idx n mv) = if decide (I = idx) then n else size_I I mv.
Proof.
  intros Hidx. unfold size_I. simpl. destruct (decide (I = idx)) as [->|Hne].
  - by rewrite list_lookup_total_insert_eq.
  - by rewrite list_lookup_total_insert_ne.
Qed.

(** A run of [push_back<idx>] calls, each one caught when it throws: the
    pointers, the capacities and the block stay, and every size grows by
    the number of values pushed into its array, up to the capacity. *)
Lemma push_each_sizes ops : ∀ mv w,
  well_typed Ts mv → size_le_capacity Ts mv →
  Forall (λ op : nat * val, (op.1 < N Ts)%nat) ops →
  well_typed Ts (push_each Ts ops mv w).1 ∧
  size_le_capacity Ts (push_each Ts ops mv w).1 ∧
  data_ptrs_ (push_each Ts ops mv w).1 = data_ptrs_ mv ∧
  capacities_ (push_each Ts ops mv w).1 = capacities_ mv ∧
  block_ (push_each Ts ops mv w).1 = block_ mv ∧
  block_size_ (push_each Ts ops mv w).1 = block_size_ mv ∧
  ∀ I, (I < N Ts)%nat →
    size_I I (push_each Ts ops mv w).1
    = Z.min (capacity_I I mv) (size_I I mv + Z.of_nat (length (pushed ops I))).
Proof.
  induction ops as [|[idx v] ops IH]; intros mv w Hwt Hinv Hops.
  - simpl. split_and!; try done. intros I HI. specialize (Hinv I HI).
    unfold pushed. simpl. lia.
  - apply Forall_cons in Hops as [Hidx Hops]. simpl in Hidx.
    cbn [push_each].
    destruct (push_back_I_cases Ts idx v mv w Hwt Hinv Hidx) as [[Heq H]|[Hlt H]];
      rewrite H.
    + destruct (IH mv w Hwt Hinv Hops) as (? & ? & ? & ? & ? & ? & Hsz).
      split_and!; try done. intros I HI. rewrite (Hsz I HI), pushed_cons.
      specialize (Hinv I HI). rewrite length_app.
      destruct (decide (I = idx)) as [->|_]; simpl; lia.
    + destruct (push_back_I_preserves Ts idx v mv w _ _ _ Hwt Hinv Hidx H)
        as (Hwt' & Hinv' & Hd' & Hc' & Hb' & Hbs').
      destruct (IH _ (placement_new (elem_addr Ts mv idx (Z.to_nat (size_I idx mv)))
                        (type_at Ts idx) v w) Hwt' Hinv' Hops)
        as (? & ? & Hd & Hc & Hb & Hbs & Hsz).
      split_and!; try done; try congruence.
      intros I HI. rewrite (Hsz I HI), pushed_cons, length_app.
      unfold capacity_I at 1. rewrite Hc'. fold (capacity_I I mv).
      rewrite size_I_set_size by (destruct Hwt as (_ & -> & _); done).
      specialize (Hinv I HI).
      destruct (decide (I = idx)) as [->|_]; simpl; lia.
Qed.

(** A run in which no call throws is the run with every call caught, and
    there is one exactly when the values pushed into each array fit into
    what is left of its capacity. *)
Lemma push_all_push_each ops : ∀ mv w,
  well_typed Ts mv → size_le_capacity Ts mv →
  Forall (λ op : nat * val, (op.1 < N Ts)%nat) ops →
  (is_Some (push_all Ts ops mv w) ↔
   ∀ I, (I < N Ts)%nat →
     size_I I mv + Z.of_nat (length (pushed ops I)) <= capacity_I I mv) ∧
  (∀ r, push_all Ts ops mv w = Some r → r = push_each Ts ops mv w).
Proof.
  induction ops as [|[idx v] ops IH]; intros mv w Hwt Hinv Hops.
  - simpl. split; [|by intros r [= <-]]. split; [|by eauto].
    intros _ I HI. specialize (Hinv I HI). unfold pushed. simpl. lia.
  - apply Forall_cons in Hops as [Hidx Hops]. simpl in Hidx.
    cbn [push_each push_all].
    destruct (push_back_I_cases Ts idx v mv w Hwt Hinv Hidx) as [[Heq H]|[Hlt H]];
      rewrite H.
    + split; [|done]. split; [by intros [? ?]|].
      intros Hfit. specialize (Hfit idx Hidx). rewrite pushed_cons in Hfit.
      rewrite decide_True, length_app in Hfit by done. simpl in Hfit. lia.
    + destruct (push_back_I_preserves Ts idx v mv w _ _ _ Hwt Hinv Hidx H)
        as (Hwt' & Hinv' & Hd' & Hc' & Hb' & Hbs').
      destruct (IH _ (placement_new (elem_addr Ts mv idx (Z.to_nat (size_I idx mv)))
                        (type_at Ts idx) v w) Hwt' Hinv' Hops) as [Hiff Heq].
      split; [|done]. rewrite Hiff.
      apply forall_proper. intros I. apply forall_proper. intros HI.
      rewrite pushed_cons, length_app.
      unfold capacity_I at 1. rewrite Hc'. fold (capacity_I I mv).
      rewrite size_I_set_size by (destruct Hwt as (_ & -> & _); done).
      destruct (decide (I = idx)) as [->|_]; simpl; lia.
Qed.

Hypothesis Hwf : Forall wf_type Ts.

(** On disjoint slots, a run appends to each array the values pushed into
    it, as many as there was room for, and leaves the elements that were
    there as they were. *)
Lemma push_each_read ops : ∀ mv w,
  well_typed Ts mv → size_le_capacity Ts mv → slots_disjoint Ts mv →
  Forall (λ op : nat * val, (op.1 < N Ts)%nat) ops →
  ∀ I, (I < N Ts)%nat →
    read_array Ts (push_each Ts ops mv w).1 (push_each Ts ops mv w).2 I
    = read_array Ts mv w I
      ++ (Some <$> take (Z.to_nat (capacity_I I mv - size_I I mv)) (pushed ops I)).
Proof.
  induction ops as [|[idx v] ops IH]; intros mv w Hwt Hinv Hdis Hops I HI.
  - simpl. unfold pushed. simpl. by rewrite take_nil, app_nil_r.
  - apply Forall_cons in Hops as [Hidx Hops]. simpl in Hidx.
    cbn [push_each].
    destruct (push_back_I_cases Ts idx v mv w Hwt Hinv Hidx) as [[Heq H]|[Hlt H]];
      rewrite H.
    + rewrite (IH mv w Hwt Hinv Hdis Hops I HI), pushed_cons.
      destruct (decide (I = idx)) as [->|_]; [|done].
      replace (Z.to_nat (capacity_I idx mv - size_I idx mv)) with 0%nat by lia.
      done.
    + destruct (push_back_I_preserves Ts idx v mv w _ _ _ Hwt Hinv Hidx H)
        as (Hwt' & Hinv' & Hd' & Hc' & Hb' & Hbs').
      rewrite (IH _ _ Hwt' Hinv'
                 (slots_disjoint_data Ts _ _ (eq_sym Hd') (eq_sym Hc') Hdis)
                 Hops I HI).
      rewrite read_array_push, pushed_cons, <- app_assoc by done. f_equal.
      unfold capacity_I at 1. rewrite Hc'. fold (capacity_I I mv).
      rewrite size_I_set_size by (destruct Hwt as (_ & -> & _); done).
      destruct (decide (I = idx)) as [->|_]; [|done].
      replace (Z.to_nat (capacity_I idx mv - size_I idx mv))
        with (S (Z.to_nat (capacity_I idx mv - (size_I idx mv + 1)))) by lia.
      done.
Qed.
End PushRuns.

Lemma multi_vector_eq (mv mv' : multi_vector) :
  data_ptrs_ mv = data_ptrs_ mv' → sizes_ mv = sizes_ mv' →
  capacities_ mv = capacities_ mv' → block_ mv = block_ mv' →
  block_size_ mv = block_size_ mv' → mv = mv'.
Proof. destruct mv, mv'. simpl. by intros -> -> -> -> ->. Qed.

(** X5.  On a container made through the interface, after any sequence of
    [push_back] calls, each caught when it throws, the base pointers, the
    capacities and the block are what they were, and the size of every
    array is its old size plus the number of values pushed into it, capped
    at its capacity.  No call of the sequence throws exactly when, for
    every type, the values pushed into its array fit into what was left of
    the capacity. *)
Theorem X5_push_run_sizes {val : Type} (Ts : list cpp_type)
    (ops : list (nat * val)) (mv : multi_vector) (w : world val) :
  reachable (val := val) Ts mv →
  Forall (λ op : nat * val, (op.1 < N Ts)%nat) ops →
  let mv' := (push_each Ts ops mv w).1 in
  data_ptrs_ mv' = data_ptrs_ mv ∧ capacities_ mv' = capacities_ mv ∧
  block_ mv' = block_ mv ∧ block_size_ mv' = block_size_ mv ∧
  (∀ I, (I < N Ts)%nat →
     size_I I mv'
     = Z.min (capacity_I I mv) (size_I I mv + Z.of_nat (length (pushed ops I)))) ∧
  (is_Some (push_all Ts ops mv w) ↔
   ∀ I, (I < N Ts)%nat →
     size_I I mv + Z.of_nat (length (pushed ops I)) <= capacity_I I mv) ∧
  (∀ r, push_all Ts ops mv w = Some r → r = push_each Ts ops mv w).
Proof.
  intros Hr Hops mv'. destruct (reachable_good Ts mv Hr) as [Hwt Hinv].
  destruct (push_each_sizes Ts ops mv w Hwt Hinv Hops)
    as (_ & _ & Hd & Hc & Hb & Hbs & Hsz).
  destruct (push_all_push_each Ts ops mv w Hwt Hinv Hops) as [Hiff Heq].
  by split_and!.
Qed.

Lemma X5_push_run_sizes_witness :
  reachable (val := value) MV test_mv ∧
  Forall (λ op : nat * value, (op.1 < N MV)%nat) overfull_pushes ∧
  (push_each MV overfull_pushes test_mv test_w).1
  = MultiVector [4096; 4112; 4128] [3; 0; 2] [3; 2; 4] 4096 160 ∧
  push_all MV overfull_pushes test_mv test_w = None ∧
  let mv' := (push_each MV overfull_pushes test_mv test_w).1 in
  data_ptrs_ mv' = data_ptrs_ test_mv ∧ capacities_ mv' = capacities_ test_mv ∧
  block_ mv' = block_ test_mv ∧ block_size_ mv' = block_size_ test_mv ∧
  (∀ I, (I < N MV)%nat →
     size_I I mv'
     = Z.min (capacity_I I test_mv)
         (size_I I test_mv + Z.of_nat (length (pushed overfull_pushes I)))) ∧
  (is_Some (push_all MV overfull_pushes test_mv test_w) ↔
   ∀ I, (I < N MV)%nat →
     size_I I test_mv + Z.of_nat (length (pushed overfull_pushes I))
     <= capacity_I I test_mv) ∧
  (∀ r, push_all MV overfull_pushes test_mv test_w = Some r →
        r = push_each MV overfull_pushes test_mv test_w).
Proof.
  assert (reachable (val := value) MV test_mv) as Hr.
  { apply (reach_build MV test_builder (Allocated 4096) w0 test_mv test_w);
      [|reflexivity].
    repeat first [apply br_ctor | apply br_capacity_T]; by_compute. }
  assert (Forall (λ op : nat * value, (op.1 < N MV)%nat) overfull_pushes) as Hops
    by by_compute.
  refine (conj Hr (conj Hops (conj eq_refl (conj eq_refl _)))).
  exact (X5_push_run_sizes MV overfull_pushes test_mv test_w Hr Hops).
Defined.

(** X6.  On a container built on a layout that fits its block, after any
    sequence of [push_back] calls, each caught when it throws, the array of
    every type holds the copies of its default followed by the values
    pushed into it, in the order of the calls, cut off at the capacity:
    a push never overwrites or reorders an element, and the values whose
    call threw are the ones past the capacity. *)
Theorem X6_push_run_contents {val : Type} (Ts : list cpp_type) (b : builder val)
    (block : Z) (w : world val) (mv0 : multi_vector) (w1 : world val)
    (ops : list (nat * val)) :
  Forall wf_type Ts → well_typed_builder Ts b →
  block_fits Ts (caps_ b) block →
  build Ts b (Allocated block) w = (Ok mv0, w1) →
  Forall (λ op : nat * val, (op.1 < N Ts)%nat) ops →
  ∀ I, (I < N Ts)%nat →
    read_array Ts (push_each Ts ops mv0 w1).1 (push_each Ts ops mv0 w1).2 I
    = Some <$> take (Z.to_nat (caps_ b !!! I)) (default_fill b I ++ pushed ops I).
Proof.
  intros Hwf Hb Hfits Hbuild Hops I HI.
  destruct (build_well_typed Ts b _ w mv0 w1 Hb Hbuild) as [Hwt Hinv].
  destruct (build_heap Ts Hwf b block w mv0 w1 Hb Hfits Hbuild) as [Hdis _].
  rewrite (push_each_read Ts Hwf ops mv0 w1 Hwt Hinv Hdis Hops I HI).
  rewrite (build_read_default Ts Hwf b block w mv0 w1 Hb Hfits Hbuild I HI).
  assert (block ≠ 0) as Hne by (destruct Hfits; lia).
  destruct (build_spec Ts b block w Hb Hne)
    as (mv1 & w2 & Heq1 & _ & _ & Hcap & _ & _ & _ & Hsz & _).
  rewrite Hbuild in Heq1. injection Heq1 as <- <-.
  unfold capacity_I, size_I, default_fill. rewrite Hcap, Hsz by done.
  rewrite <- fmap_app. f_equal.
  destruct (defaults_ b !!! I) as [d|].
  - rewrite Z.sub_diag. change (Z.to_nat 0) with 0%nat.
    rewrite take_0, app_nil_r.
    rewrite take_app_le by (rewrite length_replicate; lia).
    by rewrite take_ge by (rewrite length_replicate; lia).
  - by rewrite Z.sub_0_r.
Qed.

Lemma X6_push_run_contents_witness :
  Forall wf_type MV ∧ well_typed_builder MV test_builder ∧
  block_fits MV (caps_ test_builder) 4096 ∧
  build MV test_builder (Allocated 4096) w0 = (Ok test_mv, test_w) ∧
  Forall (λ op : nat * value, (op.1 < N MV)%nat) overfull_pushes ∧
  (take (Z.to_nat (caps_ test_builder !!! 0%nat))
     (default_fill test_builder 0 ++ pushed overfull_pushes 0)
   = [Int 1; Int 2; Int 3]) ∧
  ∀ I, (I < N MV)%nat →
    read_array MV (push_each MV overfull_pushes test_mv test_w).1
      (push_each MV overfull_pushes test_mv test_w).2 I
    = Some <$> take (Z.to_nat (caps_ test_builder !!! I))
                 (default_fill test_builder I ++ pushed overfull_pushes I).
Proof.
  assert (Forall wf_type MV) as Hwf by by_compute.
  assert (well_typed_builder MV test_builder) as Hb by by_compute.
  assert (block_fits MV (caps_ test_builder) 4096) as Hfits by by_compute.
  assert (build MV test_builder (Allocated 4096) w0 = (Ok test_mv, test_w))
    as Hbuild by reflexivity.
  assert (Forall (λ op : nat * value, (op.1 < N MV)%nat) overfull_pushes) as Hops
    by by_compute.
  refine (conj Hwf (conj Hb (conj Hfits (conj Hbuild (conj Hops (conj eq_refl _)))))).
  exact (X6_push_run_contents MV test_builder 4096 w0 test_mv test_w
           overfull_pushes Hwf Hb Hfits Hbuild Hops).
Defined.

(** X7.  The arrays are independent of each other: two sequences of
    [push_back] calls that push the same values in the same order into
    every single array, however the calls for different types are
    interleaved, leave the same container, and reading any array gives
    the same elements. *)
Theorem X7_push_order_irrelevant {val : Type} (Ts : list cpp_type)
    (b : builder val) (block : Z) (w : world val) (mv0 : multi_vector)
    (w1 : world val) (ops ops' : list (nat * val)) :
  Forall wf_type Ts → well_typed_builder Ts b →
  block_fits Ts (caps_ b) block →
  build Ts b (Allocated block) w = (Ok mv0, w1) →
  Forall (λ op : nat * val, (op.1 < N Ts)%nat) ops →
  Forall (λ op : nat * val, (op.1 < N Ts)%nat) ops' →
  (∀ I, (I < N Ts)%nat → pushed ops I = pushed ops' I) →
  (push_each Ts ops mv0 w1).1 = (push_each Ts ops' mv0 w1).1 ∧
  (is_Some (push_all Ts ops mv0 w1) ↔ is_Some (push_all Ts ops' mv0 w1)) ∧
  ∀ I, (I < N Ts)%nat →
    read_array Ts (push_each Ts ops mv0 w1).1 (push_each Ts ops mv0 w1).2 I
    = read_array Ts (push_each Ts ops' mv0 w1).1 (push_each Ts ops' mv0 w1).2 I.
Proof.
  intros Hwf Hb Hfits Hbuild Hops Hops' Hsame.
  destruct (build_well_typed Ts b _ w mv0 w1 Hb Hbuild) as [Hwt Hinv].
  destruct (build_heap Ts Hwf b block w mv0 w1 Hb Hfits Hbuild) as [Hdis _].
  destruct (push_each_sizes Ts ops mv0 w1 Hwt Hinv Hops)
    as ((_ & Hl & _) & _ & Hd & Hc & Hbk & Hbs & Hsz).
  destruct (push_each_sizes Ts ops' mv0 w1 Hwt Hinv Hops')
    as ((_ & Hl' & _) & _ & Hd' & Hc' & Hbk' & Hbs' & Hsz').
  split_and!.
  - apply multi_vector_eq; try congruence.
    apply list_eq. intros i. destruct (decide (i < N Ts)%nat) as [Hi|Hi].
    + rewrite !list_lookup_lookup_total_lt by lia. f_equal.
      pose proof (Hsz i Hi) as H1. pose proof (Hsz' i Hi) as H2.
      unfold size_I in H1, H2. by rewrite H1, H2, (Hsame i Hi).
    + rewrite !lookup_ge_None_2; [done|lia..].
  - destruct (push_all_push_each Ts ops mv0 w1 Hwt Hinv Hops) as [-> _].
    destruct (push_all_push_each Ts ops' mv0 w1 Hwt Hinv Hops') as [-> _].
    apply forall_proper. intros I. apply forall_proper. intros HI.
    by rewrite (Hsame I HI).
  - intros I HI.
    rewrite (push_each_read Ts Hwf ops mv0 w1 Hwt Hinv Hdis Hops I HI).
    rewrite (push_each_read Ts Hwf ops' mv0 w1 Hwt Hinv Hdis Hops' I HI).
    by rewrite (Hsame I HI).
Qed.

Lemma X7_push_order_irrelevant_witness :
  Forall wf_type MV ∧ well_typed_builder MV test_builder ∧
  block_fits MV (caps_ test_builder) 4096 ∧
  build MV test_builder (Allocated 4096) w0 = (Ok test_mv, test_w) ∧
  Forall (λ op : nat * value, (op.1 < N MV)%nat) test_pushes ∧
  Forall (λ op : nat * value, (op.1 < N MV)%nat) test_pushes' ∧
  (∀ I, (I < N MV)%nat → pushed test_pushes I = pushed test_pushes' I) ∧
  test_pushes ≠ test_pushes' ∧
  (push_each MV test_pushes test_mv test_w).1
  = (push_each MV test_pushes' test_mv test_w).1 ∧
  (is_Some (push_all MV test_pushes test_mv test_w)
   ↔ is_Some (push_all MV test_pushes' test_mv test_w)) ∧
  ∀ I, (I < N MV)%nat →
    read_array MV (push_each MV test_pushes test_mv test_w).1
      (push_each MV test_pushes test_mv test_w).2 I
    = read_array MV (push_each MV test_pushes' test_mv test_w).1
        (push_each MV test_pushes' test_mv test_w).2 I.
Proof.
  assert (Forall wf_type MV) as Hwf by by_compute.
  assert (well_typed_builder MV test_builder) as Hb by by_compute.
  assert (block_fits MV (caps_ test_builder) 4096) as Hfits by by_compute.
  assert (build MV test_builder (Allocated 4096) w0 = (Ok test_mv, test_w))
    as Hbuild by reflexivity.
  assert (Forall (λ op : nat * value, (op.1 < N MV)%nat) test_pushes) as Hops
    by by_compute.
  assert (Forall (λ op : nat * value, (op.1 < N MV)%nat) test_pushes') as Hops'
    by by_compute.
  assert (∀ I, (I < N MV)%nat → pushed test_pushes I = pushed test_pushes' I)
    as Hsame.
  { intros [|[|[|I]]] HI; [reflexivity..|]. simpl in HI. lia. }
  assert (test_pushes ≠ test_pushes') as Hne by discriminate.
  refine (conj Hwf (conj Hb (conj Hfits (conj Hbuild (conj Hops (conj Hops'
            (conj Hsame (conj Hne _)))))))).
  exact (X7_push_order_irrelevant MV test_builder 4096 w0 test_mv test_w
           test_pushes test_pushes' Hwf Hb Hfits Hbuild Hops Hops' Hsame).
Defined.

(** ** More on the geometry of the block *)

Lemma pow2_le_divide (e e' : Z) : 0 <= e → 0 <= e' → 2 ^ e <= 2 ^ e' → (2 ^ e | 2 ^ e').
Proof.
  intros He He' Hle.
  assert (e <= e') by (apply (Z.pow_le_mono_r_iff 2); lia).
  exists (2 ^ (e' - e)). rewrite <- Z.pow_add_r by lia. f_equal. lia.
Qed.

Section Packing.
Variable Ts : list cpp_type.
Variable caps : list Z.
Hypothesis Hwf : Forall wf_type Ts.

Lemma type_at_elem i : (i < N Ts)%nat → type_at Ts i ∈ Ts.
Proof. intros Hi. apply list_elem_of_lookup_total_2. exact Hi. Qed.

Lemma type_align_pos i : (i < N Ts)%nat → 0 < type_align (type_at Ts i).
Proof.
  intros Hi. destruct (type_at_wf Ts i Hwf Hi) as [_ (e & He & ->)].
  apply Z.pow_pos_nonneg; lia.
Qed.

(** Every alignment of the pack divides the alignment of the block. *)
Lemma type_align_divides_block_align i :
  (i < N Ts)%nat → (type_align (type_at Ts i) | block_align_ Ts).
Proof.
  intros Hi.
  pose proof (block_align_ge Ts _ (type_at_elem i Hi)) as Hle.
  destruct (block_align_in Ts) as (T & HT & Heq).
  { intros ->. simpl in Hi. lia. }
  apply (proj1 (Forall_forall _ _) Hwf) in HT as (_ & Hpos & Hpow).
  destruct (type_at_wf Ts i Hwf Hi) as [_ (e & He & Hal)].
  rewrite Heq, Hpow, Hal in *.
  apply pow2_le_divide; [lia|apply Z.log2_nonneg|done].
Qed.

(** The layout holds the elements, and at most [alignof - 1] bytes of
    padding in front of each array. *)
Lemma exact_end_payload k :
  (k ≤ N Ts)%nat →
  payload_bytes Ts caps k <= exact_end Ts caps k
  <= payload_bytes Ts caps k + padding_bound Ts k.
Proof.
  induction k as [|k IH]; intros Hk; [simpl; lia|].
  specialize (IH ltac:(lia)). simpl.
  pose proof (round_up_bounds (exact_end Ts caps k) (type_aligns_ Ts !!! k)) as Hr.
  rewrite type_aligns_lookup in * by lia.
  specialize (Hr (type_align_pos k ltac:(lia))). lia.
Qed.

Hypothesis Hmult : Forall (λ T, (type_align T | type_size T)) Ts.
Hypothesis Hdecr : ∀ i j, (i ≤ j)%nat → (j < N Ts)%nat →
  type_align (type_at Ts j) <= type_align (type_at Ts i).

(** In the order of decreasing alignment no array needs padding. *)
Lemma exact_end_packed k :
  (k ≤ N Ts)%nat →
  exact_end Ts caps k = payload_bytes Ts caps k ∧
  ∀ i, (k ≤ i)%nat → (i < N Ts)%nat →
    (type_align (type_at Ts i) | payload_bytes Ts caps k).
Proof.
  induction k as [|k IH]; intros Hk.
  - simpl. split; [done|]. intros. apply Z.divide_0_r.
  - destruct (IH ltac:(lia)) as [Heq Hdiv]. simpl. split.
    + rewrite Heq, type_aligns_lookup by lia.
      rewrite round_up_aligned; [done|apply type_align_pos; lia|apply Hdiv; lia].
    + intros i Hki Hi. apply Z.divide_add_r; [apply Hdiv; lia|].
      apply Z.divide_mul_r. rewrite type_sizes_lookup by lia.
      assert ((type_align (type_at Ts k) | type_size (type_at Ts k))) as Hks.
      { apply (proj1 (Forall_forall _ _) Hmult), type_at_elem. lia. }
      etrans; [|exact Hks].
      destruct (type_at_wf Ts i Hwf Hi) as [_ (e & He & Hal)].
      destruct (type_at_wf Ts k Hwf ltac:(lia)) as [_ (e' & He' & Hal')].
      specialize (Hdecr k i ltac:(lia) Hi).
      rewrite Hal, Hal' in *. apply pow2_le_divide; lia.
Qed.
End Packing.

(** X8.  In a container built on a layout that fits its block, the block
    has exactly the size of the layout, the array of every type lies
    inside the block, the arrays follow each other in the order of the
    pack without sharing a byte, and when the block is aligned to the
    largest alignment of the pack, as it was asked for, every base pointer
    is aligned for its type. *)
Theorem X8_build_geometry {val : Type} (Ts : list cpp_type) (b : builder val)
    (block : Z) (w : world val) (mv : multi_vector) (w' : world val) :
  Forall wf_type Ts → well_typed_builder Ts b →
  block_fits Ts (caps_ b) block →
  block + exact_end Ts (caps_ b) (N Ts) < size_t_mod →
  build Ts b (Allocated block) w = (Ok mv, w') →
  block_ mv = block ∧
  block_size_ mv = exact_end Ts (caps_ b) (N Ts) ∧
  (∀ i, (i < N Ts)%nat →
     block_ mv <= data_I i mv ∧
     data_I i mv + capacity_I i mv * type_size (type_at Ts i)
     <= block_ mv + block_size_ mv) ∧
  (∀ i j, (i < j)%nat → (j < N Ts)%nat →
     data_I i mv + capacity_I i mv * type_size (type_at Ts i) <= data_I j mv) ∧
  ((block_align_ Ts | block) →
   ∀ i, (i < N Ts)%nat → (type_align (type_at Ts i) | data_I i mv)).
Proof.
  intros Hwf Hb Hfits Hlt Hbuild.
  assert (block ≠ 0) as Hne by (destruct Hfits; lia).
  destruct (build_spec Ts b block w Hb Hne)
    as (mv1 & w1 & Heq1 & Hblk & Hbs & Hcap & _).
  rewrite Hbuild in Heq1. injection Heq1 as <- <-.
  pose proof Hb as (Hcl & _ & Hcs).
  assert (exact_end Ts (caps_ b) (N Ts) < size_t_mod) as Hend
    by (destruct Hfits; lia).
  assert (∀ i, (i < N Ts)%nat →
            data_I i mv = block + exact_offset Ts (caps_ b) i) as Hdata.
  { intros i Hi.
    by destruct (build_data_exact Ts b block w mv w' i Hwf Hb Hfits Hlt Hbuild Hi). }
  assert (∀ i, (i < N Ts)%nat →
            exact_offset Ts (caps_ b) i + capacity_I i mv * type_size (type_at Ts i)
            = exact_end Ts (caps_ b) (S i)) as Hnext.
  { intros i Hi. unfold capacity_I. rewrite Hcap. simpl. unfold exact_offset.
    by rewrite type_sizes_lookup. }
  split_and!.
  - done.
  - destruct (layout_loop Ts (caps_ b)) as (Htot & _).
    rewrite Hbs, Htot. by apply layout_end_exact.
  - intros i Hi. rewrite Hdata, Hblk, Hbs by done.
    destruct (layout_loop Ts (caps_ b)) as (-> & _).
    rewrite (layout_end_exact Ts (caps_ b) Hwf Hcs Hcl Hend) by done.
    pose proof (exact_end_step Ts (caps_ b) Hwf Hcs Hcl i Hi) as [Hlo Hhi].
    pose proof (exact_end_nonneg Ts (caps_ b) Hwf Hcs Hcl i ltac:(lia)).
    pose proof (exact_end_mono Ts (caps_ b) Hwf Hcs Hcl (S i) (N Ts)
                  ltac:(lia) ltac:(lia)).
    specialize (Hnext i Hi). lia.
  - intros i j Hij Hj. rewrite !Hdata by lia.
    pose proof (exact_end_mono Ts (caps_ b) Hwf Hcs Hcl (S i) j
                  ltac:(lia) ltac:(lia)).
    pose proof (exact_end_step Ts (caps_ b) Hwf Hcs Hcl j Hj) as [Hlo _].
    specialize (Hnext i ltac:(lia)). lia.
  - intros Hblock i Hi. rewrite Hdata by done.
    apply Z.divide_add_r.
    + etrans; [by apply type_align_divides_block_align|done].
    + unfold exact_offset. rewrite type_aligns_lookup by done.
      apply round_up_divide.
Qed.

Lemma X8_build_geometry_witness :
  Forall wf_type MV ∧ well_typed_builder MV test_builder ∧
  block_fits MV (caps_ test_builder) 4096 ∧
  4096 + exact_end MV (caps_ test_builder) (N MV) < size_t_mod ∧
  build MV test_builder (Allocated 4096) w0 = (Ok test_mv, test_w) ∧
  (block_align_ MV | 4096) ∧
  block_ test_mv = 4096 ∧
  block_size_ test_mv = exact_end MV (caps_ test_builder) (N MV) ∧
  (∀ i, (i < N MV)%nat →
     block_ test_mv <= data_I i test_mv ∧
     data_I i test_mv + capacity_I i test_mv * type_size (type_at MV i)
     <= block_ test_mv + block_size_ test_mv) ∧
  (∀ i j, (i < j)%nat → (j < N MV)%nat →
     data_I i test_mv + capacity_I i test_mv * type_size (type_at MV i)
     <= data_I j test_mv) ∧
  ∀ i, (i < N MV)%nat → (type_align (type_at MV i) | data_I i test_mv).
Proof.
  assert (Forall wf_type MV) as Hwf by by_compute.
  assert (well_typed_builder MV test_builder) as Hb by by_compute.
  assert (block_fits MV (caps_ test_builder) 4096) as Hfits by by_compute.
  assert (4096 + exact_end MV (caps_ test_builder) (N MV) < size_t_mod) as Hlt
    by by_compute.
  assert (build MV test_builder (Allocated 4096) w0 = (Ok test_mv, test_w))
    as Hbuild by reflexivity.
  assert ((block_align_ MV | 4096)) as Hal by (exists 512; reflexivity).
  destruct (X8_build_geometry MV test_builder 4096 w0 test_mv test_w
              Hwf Hb Hfits Hlt Hbuild) as (H1 & H2 & H3 & H4 & H5).
  exact (conj Hwf (conj Hb (conj Hfits (conj Hlt (conj Hbuild (conj Hal
           (conj H1 (conj H2 (conj H3 (conj H4 (H5 Hal))))))))))).
Defined.

(** X9.  When no step of the layout wraps around, the size [build] asks
    [::operator new] for is at least the bytes of all the elements and at
    most that plus [alignof - 1] bytes of padding per type, and the offsets
    of the arrays increase along the pack, each array ending where or
    before the next one starts and before the end of the block. *)
Theorem X9_layout_bounds (Ts : list cpp_type) (caps : list Z) :
  Forall wf_type Ts → Forall is_size_t caps → length caps = N Ts →
  exact_end Ts caps (N Ts) < size_t_mod →
  let offsets := (layout Ts caps).1 in
  let total := (layout Ts caps).2 in
  payload_bytes Ts caps (N Ts) <= total
  ∧ total <= payload_bytes Ts caps (N Ts) + padding_bound Ts (N Ts)
  ∧ (∀ i, (i < N Ts)%nat →
       0 <= offsets !!! i ∧
       offsets !!! i + caps !!! i * type_size (type_at Ts i) <= total)
  ∧ (∀ i j, (i < j)%nat → (j < N Ts)%nat →
       offsets !!! i + caps !!! i * type_size (type_at Ts i) <= offsets !!! j).
Proof.
  intros Hwf Hcs Hcl Hend offsets total. unfold offsets, total.
  destruct (layout_loop Ts caps) as (-> & _).
  rewrite (layout_end_exact Ts caps Hwf Hcs Hcl Hend) by done.
  pose proof (exact_end_payload Ts caps Hwf (N Ts) ltac:(lia)) as [Hlo Hhi].
  assert (∀ i, (i < N Ts)%nat →
            exact_offset Ts caps i + caps !!! i * type_size (type_at Ts i)
            = exact_end Ts caps (S i)) as Hnext.
  { intros i Hi. simpl. unfold exact_offset. by rewrite type_sizes_lookup. }
  split_and!; try done.
  - intros i Hi. rewrite (layout_offset_exact Ts caps Hwf Hcs Hcl Hend) by done.
    pose proof (exact_end_step Ts caps Hwf Hcs Hcl i Hi) as [? ?].
    pose proof (exact_end_nonneg Ts caps Hwf Hcs Hcl i ltac:(lia)).
    pose proof (exact_end_mono Ts caps Hwf Hcs Hcl (S i) (N Ts)
                  ltac:(lia) ltac:(lia)).
    specialize (Hnext i Hi). lia.
  - intros i j Hij Hj.
    rewrite !(layout_offset_exact Ts caps Hwf Hcs Hcl Hend) by lia.
    pose proof (exact_end_mono Ts caps Hwf Hcs Hcl (S i) j ltac:(lia) ltac:(lia)).
    pose proof (exact_end_step Ts caps Hwf Hcs Hcl j Hj) as [? _].
    specialize (Hnext i ltac:(lia)). lia.
Qed.

Lemma X9_layout_bounds_witness :
  Forall wf_type MV ∧ Forall is_size_t [3; 2; 4] ∧ length [3; 2; 4] = N MV ∧
  exact_end MV [3; 2; 4] (N MV) < size_t_mod ∧
  layout MV [3; 2; 4] = ([0; 16; 32], 160) ∧
  payload_bytes MV [3; 2; 4] (N MV) = 156 ∧ padding_bound MV (N MV) = 17 ∧
  let offsets := (layout MV [3; 2; 4]).1 in
  let total := (layout MV [3; 2; 4]).2 in
  payload_bytes MV [3; 2; 4] (N MV) <= total
  ∧ total <= payload_bytes MV [3; 2; 4] (N MV) + padding_bound MV (N MV)
  ∧ (∀ i, (i < N MV)%nat →
       0 <= offsets !!! i ∧
       offsets !!! i + [3; 2; 4] !!! i * type_size (type_at MV i) <= total)
  ∧ (∀ i j, (i < j)%nat → (j < N MV)%nat →
       offsets !!! i + [3; 2; 4] !!! i * type_size (type_at MV i) <= offsets !!! j).
Proof.
  assert (Forall wf_type MV) as Hwf by by_compute.
  assert (Forall is_size_t [3; 2; 4]) as Hcs by by_compute.
  assert (length [3; 2; 4] = N MV) as Hcl by reflexivity.
  assert (exact_end MV [3; 2; 4] (N MV) < size_t_mod) as Hend by by_compute.
  refine (conj Hwf (conj Hcs (conj Hcl (conj Hend (conj eq_refl (conj eq_refl
            (conj eq_refl _))))))).
  exact (X9_layout_bounds MV [3; 2; 4] Hwf Hcs Hcl Hend).
Defined.

(** X10.  For a pack in the order of decreasing alignment, of types whose
    size is a multiple of their alignment, the layout has no padding: when
    the bytes of the elements fit into [size_t], every array starts where
    the one before it ends and the block is exactly as large as the
    elements. *)
Theorem X10_layout_no_padding (Ts : list cpp_type) (caps : list Z) :
  Forall wf_type Ts → Forall is_size_t caps → length caps = N Ts →
  Forall (λ T, (type_align T | type_size T)) Ts →
  (∀ i j, (i ≤ j)%nat → (j < N Ts)%nat →
     type_align (type_at Ts j) <= type_align (type_at Ts i)) →
  payload_bytes Ts caps (N Ts) < size_t_mod →
  (layout Ts caps).2 = payload_bytes Ts caps (N Ts) ∧
  ∀ i, (i < N Ts)%nat → (layout Ts caps).1 !!! i = payload_bytes Ts caps i.
Proof.
  intros Hwf Hcs Hcl Hmult Hdecr Hpay.
  pose proof (exact_end_packed Ts caps Hwf Hmult Hdecr) as Hpacked.
  assert (exact_end Ts caps (N Ts) < size_t_mod) as Hend.
  { destruct (Hpacked (N Ts) ltac:(lia)) as [-> _]. done. }
  split.
  - destruct (layout_loop Ts caps) as (-> & _).
    rewrite (layout_end_exact Ts caps Hwf Hcs Hcl Hend) by done.
    by destruct (Hpacked (N Ts) ltac:(lia)).
  - intros i Hi. rewrite (layout_offset_exact Ts caps Hwf Hcs Hcl Hend) by done.
    destruct (Hpacked i ltac:(lia)) as [Heq Hdiv].
    unfold exact_offset. rewrite Heq, type_aligns_lookup by done.
    apply round_up_aligned; [by apply type_align_pos|by apply Hdiv].
Qed.

Lemma X10_layout_no_padding_witness :
  Forall wf_type SORTED ∧ Forall is_size_t [3; 5; 7] ∧
  length [3; 5; 7] = N SORTED ∧
  Forall (λ T, (type_align T | type_size T)) SORTED ∧
  (∀ i j, (i ≤ j)%nat → (j < N SORTED)%nat →
     type_align (type_at SORTED j) <= type_align (type_at SORTED i)) ∧
  payload_bytes SORTED [3; 5; 7] (N SORTED) < size_t_mod ∧
  layout SORTED [3; 5; 7] = ([0; 24; 44], 51) ∧
  (layout SORTED [3; 5; 7]).2 = payload_bytes SORTED [3; 5; 7] (N SORTED) ∧
  ∀ i, (i < N SORTED)%nat →
    (layout SORTED [3; 5; 7]).1 !!! i = payload_bytes SORTED [3; 5; 7] i.
Proof.
  assert (Forall wf_type SORTED) as Hwf by by_compute.
  assert (Forall is_size_t [3; 5; 7]) as Hcs by by_compute.
  assert (length [3; 5; 7] = N SORTED) as Hcl by reflexivity.
  assert (Forall (λ T, (type_align T | type_size T)) SORTED) as Hmult.
  { repeat apply Forall_cons_2; [exists 1; reflexivity..|apply Forall_nil_2]. }
  assert (∀ i j, (i ≤ j)%nat → (j < N SORTED)%nat →
            type_align (type_at SORTED j) <= type_align (type_at SORTED i))
    as Hdecr.
  { intros [|[|[|i]]] [|[|[|j]]] Hij Hj; simpl in Hj; try lia;
      vm_compute; discriminate. }
  assert (payload_bytes SORTED [3; 5; 7] (N SORTED) < size_t_mod) as Hpay
    by by_compute.
  refine (conj Hwf (conj Hcs (conj Hcl (conj Hmult (conj Hdecr (conj Hpay
            (conj eq_refl _))))))).
  exact (X10_layout_no_padding SORTED [3; 5; 7] Hwf Hcs Hcl Hmult Hdecr Hpay).
Defined.

(** ** What the destructor loops leave alone *)

Section DestroyFrame.
Context {val : Type}.
Variable Ts : list cpp_type.
Implicit Types (mv : multi_vector) (w : world val) (T : cpp_type).

(** A destructor call ends one lifetime only. *)
Lemma load_destroy_at_other w p T p' T' :
  ¬ (p = p' ∧ T = T') → load (destroy_at p' T' w) p T = load w p T.
Proof.
  intros Hne. unfold load, destroy_at. simpl.
  rewrite list_filter_filter_l; [done|].
  intros o [Hp HT] [Hp' HT']. apply Hne. split; congruence.
Qed.

Lemma destroy_elements_at_other I mv w p T :
  (∀ j : nat, (j < Z.to_nat (size_I I mv))%nat →
     trivially_destructible (type_at Ts I) = false →
     ¬ (p = elem_addr Ts mv I j ∧ T = type_at Ts I)) →
  load (destroy_elements_at Ts I mv w) p T = load w p T.
Proof.
  intros Hne. unfold destroy_elements_at.
  destruct (trivially_destructible (type_at Ts I)) eqn:Htriv; [done|].
  apply (for_loop_ind (λ (_ : nat) w', load w' p T = load w p T)); [done|].
  intros k w' Hk <-. apply load_destroy_at_other. by apply Hne.
Qed.

Lemma destroy_elements_other mv w p T :
  ¬ tracked_slot Ts mv p T →
  load (destroy_elements Ts mv w) p T = load w p T.
Proof.
  intros Hne. unfold destroy_elements.
  apply (for_loop_ind (λ (_ : nat) w', load w' p T = load w p T)); [done|].
  intros I w' HI <-. apply destroy_elements_at_other.
  intros j Hj Htriv [-> ->]. apply Hne. by exists I, j.
Qed.

Lemma destroy_elements_tracked mv w p T :
  tracked_slot Ts mv p T → load (destroy_elements Ts mv w) p T = None.
Proof.
  intros (I & j & HI & Hj & Htriv & -> & ->). unfold destroy_elements.
  revert I HI Htriv j Hj.
  apply (for_loop_ind (λ (k : nat) w',
    ∀ I, (I < k)%nat → trivially_destructible (type_at Ts I) = false →
    ∀ j : nat, (j < Z.to_nat (size_I I mv))%nat →
      load w' (elem_addr Ts mv I j) (type_at Ts I) = None)).
  - intros; lia.
  - intros k w' _ Hprev I HI Htriv j Hj. destruct (decide (I = k)) as [->|Hne].
    + by apply destroy_elements_at_heap.
    + apply destroy_elements_at_None, Hprev; [lia|done..].
Qed.
End DestroyFrame.

(** X11.  [destroy_elements] ends the lifetime of the live elements of the
    types with a non-trivial destructor, and of nothing else: every other
    object, be it an element of a trivially destructible type, a slot
    above the size or an object outside the container, is afterwards what
    it was before; the call constructs nothing. *)
Theorem X11_destroy_elements_frame {val : Type} (Ts : list cpp_type)
    (mv : multi_vector) (w : world val) (p : Z) (T : cpp_type) :
  (tracked_slot Ts mv p T → load (destroy_elements Ts mv w) p T = None) ∧
  (¬ tracked_slot Ts mv p T →
   load (destroy_elements Ts mv w) p T = load w p T) ∧
  (trivially_destructible T = true →
   load (destroy_elements Ts mv w) p T = load w p T) ∧
  (load w p T = None → load (destroy_elements Ts mv w) p T = None).
Proof.
  split_and!.
  - apply destroy_elements_tracked.
  - apply destroy_elements_other.
  - intros Htriv. apply destroy_elements_other.
    intros (I & j & _ & _ & Hnt & _ & ->). congruence.
  - intros Hnone. destruct (load (destroy_elements Ts mv w) p T) eqn:Hl; [|done].
    assert (¬ tracked_slot Ts mv p T) as Hnot.
    { intros Hs. by rewrite (destroy_elements_tracked Ts mv w p T Hs) in Hl. }
    rewrite (destroy_elements_other Ts mv w p T Hnot) in Hl. congruence.
Qed.

Lemma X11_destroy_elements_frame_witness :
  tracked_slot MV pushed_mv 4128 t_string ∧
  ¬ tracked_slot MV pushed_mv 4096 t_int ∧
  trivially_destructible t_int = true ∧
  load pushed_w 4128 t_string = Some (Str "hello") ∧
  load (destroy_elements MV pushed_mv pushed_w) 4128 t_string = None ∧
  load (destroy_elements MV pushed_mv pushed_w) 4096 t_int = Some (Int 10) ∧
  load pushed_w 5000 t_string = None ∧
  load (destroy_elements MV pushed_mv pushed_w) 5000 t_string = None.
Proof.
  assert (tracked_slot MV pushed_mv 4128 t_string) as Hs.
  { exists 2%nat, 0%nat. split_and!; [simpl; lia|vm_compute; lia|reflexivity..]. }
  assert (¬ tracked_slot MV pushed_mv 4096 t_int) as Hn.
  { intros (I & j & HI & _ & Htriv & _ & HT).
    destruct I as [|[|[|I]]]; simpl in HI; try lia; discriminate. }
  assert (load pushed_w 5000 t_string = None) as Hnone by reflexivity.
  destruct (X11_destroy_elements_frame MV pushed_mv pushed_w 4128 t_string)
    as (H1 & _).
  destruct (X11_destroy_elements_frame MV pushed_mv pushed_w 4096 t_int)
    as (_ & H2 & _).
  destruct (X11_destroy_elements_frame MV pushed_mv pushed_w 5000 t_string)
    as (_ & _ & _ & H4).
  exact (conj Hs (conj Hn (conj eq_refl (conj eq_refl (conj (H1 Hs)
           (conj (H2 Hn) (conj Hnone (H4 Hnone)))))))).
Defined.

Section FamilyTrace.
Context {val : Type}.
Variable Ts : list cpp_type.

(** A [push_back] or a move construction adds at most the construction of
    one element to what has happened. *)
Lemma family_step_trace (c c' : list multi_vector * world val) :
  family_step Ts c c' →
  ∃ evs, trace c'.2 = trace c.2 ++ evs ∧ Forall (λ e, is_construct e = true) evs.
Proof.
  destruct 1 as [k idx v cs w mv r mv' w' Hk Hidx Hpush|k cs w mv Hk]; simpl.
  - unfold push_back_I in Hpush. case_decide; injection Hpush as <- <- <-.
    + exists []. by rewrite app_nil_r.
    + eexists [_]. split; [apply trace_placement_new|]. by repeat constructor.
  - exists []. by rewrite app_nil_r.
Qed.

Lemma family_steps_trace (c c' : list multi_vector * world val) :
  family_steps Ts c c' →
  ∃ evs, trace c'.2 = trace c.2 ++ evs ∧ Forall (λ e, is_construct e = true) evs.
Proof.
  induction 1 as [c|c1 c2 c3 _ (evs & Htr & Hevs) Hstep].
  - exists []. by rewrite app_nil_r.
  - destruct (family_step_trace c2 c3 Hstep) as (evs' & Htr' & Hevs').
    exists (evs ++ evs'). split; [|by apply Forall_app].
    by rewrite Htr', Htr, app_assoc.
Qed.
End FamilyTrace.

(** X12.  Of the containers made from one [build] by any sequence of
    [push_back] calls and move constructions, one holds the block and
    every other one is in the default-constructed state, so no two of them
    hold a block; and all that has happened since the [build] is the
    construction of elements: nothing was allocated, destroyed or
    released. *)
Theorem X12_single_owner {val : Type} (Ts : list cpp_type) (b : builder val)
    (block : Z) (w0 : world val) (mv : multi_vector) (w1 : world val)
    (cs : list multi_vector) (w : world val) :
  well_typed_builder Ts b →
  build Ts b (Allocated block) w0 = (Ok mv, w1) →
  family_steps Ts ([mv], w1) (cs, w) →
  (∃ (k : nat) owner,
     cs !! k = Some owner ∧ block_ owner = block ∧
     ∀ k' mv', k' ≠ k → cs !! k' = Some mv' → mv' = default_ctor Ts) ∧
  (∀ k1 k2 m1 m2, k1 ≠ k2 → cs !! k1 = Some m1 → cs !! k2 = Some m2 →
     block_ m1 = 0 ∨ block_ m2 = 0) ∧
  ∃ evs, trace w = trace w1 ++ evs ∧ Forall (λ e, is_construct e = true) evs.
Proof.
  intros Hb Hbuild Hsteps.
  pose proof (family_inv_steps Ts block (trace w0) _ _
                (family_inv_build Ts b block w0 mv w1 Hb Hbuild) Hsteps)
    as (k & owner & evs & Hk & Hothers & _ & _ & Hblk & _).
  simpl in *. split_and!.
  - by exists k, owner.
  - intros k1 k2 m1 m2 Hne H1 H2.
    destruct (decide (k1 = k)) as [->|Hk1].
    + right. by rewrite (Hothers k2 m2 ltac:(congruence) H2).
    + left. by rewrite (Hothers k1 m1 Hk1 H1).
  - apply (family_steps_trace Ts _ _ Hsteps).
Qed.

Lemma X12_single_owner_witness :
  well_typed_builder TR tracked_builder ∧
  build TR tracked_builder (Allocated 4096) w0 = (Ok tracked_mv0, tracked_w0) ∧
  family_steps TR ([tracked_mv0], tracked_w0)
    ([default_ctor TR; tracked_mv], tracked_w) ∧
  (∃ (k : nat) owner,
     [default_ctor TR; tracked_mv] !! k = Some owner ∧ block_ owner = 4096 ∧
     ∀ k' mv', k' ≠ k → [default_ctor TR; tracked_mv] !! k' = Some mv' →
       mv' = default_ctor TR) ∧
  (∀ k1 k2 m1 m2, k1 ≠ k2 →
     [default_ctor TR; tracked_mv] !! k1 = Some m1 →
     [default_ctor TR; tracked_mv] !! k2 = Some m2 →
     block_ m1 = 0 ∨ block_ m2 = 0) ∧
  ∃ evs, trace tracked_w = trace tracked_w0 ++ evs ∧
         Forall (λ e, is_construct e = true) evs.
Proof.
  assert (well_typed_builder TR tracked_builder) as Hb by by_compute.
  assert (build TR tracked_builder (Allocated 4096) w0 = (Ok tracked_mv0, tracked_w0))
    as Hbuild by reflexivity.
  assert (family_steps TR ([tracked_mv0], tracked_w0)
            ([default_ctor TR; tracked_mv], tracked_w)) as Hsteps.
  { eapply fss_step with
      (c2 := ([tracked_mv], tracked_w)).
    - eapply fss_step with
        (c2 := ([set_size 0 1 tracked_mv0],
                placement_new 4096 t_Tracked (Int 100) tracked_w0)).
      + eapply fss_step; [apply fss_refl|].
        eapply (fs_push_back TR 0 0 (Int 100) [tracked_mv0] tracked_w0 tracked_mv0);
          [reflexivity|by_compute|reflexivity].
      + eapply (fs_push_back TR 0 0 (Int 200) [set_size 0 1 tracked_mv0] _
                  (set_size 0 1 tracked_mv0));
          [reflexivity|by_compute|reflexivity].
    - apply (fs_move TR 0 [tracked_mv] tracked_w tracked_mv). reflexivity. }
  refine (conj Hb (conj Hbuild (conj Hsteps _))).
  exact (X12_single_owner TR tracked_builder 4096 w0 tracked_mv0 tracked_w0
           [default_ctor TR; tracked_mv] tracked_w Hb Hbuild Hsteps).
Defined.
